(** * dependency-scrambler: the version mutator, the selector and the
      conflict strategist of [src/scrambler.ts], embedded and verified.

    Conventions of the embedding.
    - A JavaScript string is a [string]; a [Record<string, string>] is an
      association list in insertion order, as [Object.keys] enumerates it.
    - The numbers that the code prints into specifiers are IEEE doubles with an
      integer value; [jsnum] keeps that value in [Z] and writes the rounding to
      53 bits out.  Probabilities are compared as rationals; the count of the
      selector, a product and a quotient of doubles, is rounded as doubles
      are ([binary64]).
    - [Math.random] reads the next element of a stream of draws.
    - Manifests live in a store of objects, so that the copy made by
      [JSON.parse(JSON.stringify(pkg))] and the caller's object are told apart.
    - A property access on [undefined] is a [Throw]. *)

From Stdlib Require Import ZArith QArith Qround String Ascii List Lia Bool.
From Stdlib Require Import DecimalString DecimalN DecimalPos DecimalFacts.
From stdpp Require Import base option list gmap.

Open Scope string_scope.
Open Scope Z_scope.

(** ** Characters and the two regular expressions of the source *)

Module Regex.

Definition is_digit (c : ascii) : bool :=
  let n := nat_of_ascii c in (Nat.leb 48 n && Nat.leb n 57)%bool.

Definition is_alpha (c : ascii) : bool :=
  let n := nat_of_ascii c in
  ((Nat.leb 97 n && Nat.leb n 122) || (Nat.leb 65 n && Nat.leb n 90))%bool.

(** The class [[a-zA-Z0-9.-]] of the prerelease group. *)
Definition is_pre_char (c : ascii) : bool :=
  (is_alpha c || is_digit c || Ascii.eqb c "." || Ascii.eqb c "-")%bool.

Fixpoint all_chars (p : ascii -> bool) (s : string) : bool :=
  match s with
  | EmptyString => true
  | String c r => (p c && all_chars p r)%bool
  end.

(** [\d+]: a non-empty run of digits. *)
Definition digits1 (s : string) : bool :=
  match s with
  | EmptyString => false
  | _ => all_chars is_digit s
  end.

(** Greedy [\d*]: the longest prefix of digits and what follows it. *)
Fixpoint span_digits (s : string) : string * string :=
  match s with
  | String c r =>
      if is_digit c
      then let '(d, t) := span_digits r in (String c d, t)
      else (EmptyString, s)
  | EmptyString => (EmptyString, EmptyString)
  end.

(** The capture groups of a successful [VERSION_RANGE_REGEX.exec]; an optional
    group that did not take part is [None] ([undefined] in the source). *)
Record RegExpMatch : Type := mkMatch {
  g_modifier : option string;
  g_major : string;
  g_minor : string;
  g_patch : string;
  g_prerelease : option string
}.

(** Group 1, [(\^|~|>=|>|<=|<|=)?].  What follows the group has to be a digit,
    so the first alternative that fits is the only one that can succeed. *)
Definition take_modifier (s : string) : option string * string :=
  match s with
  | String "^" r => (Some "^", r)
  | String "~" r => (Some "~", r)
  | String ">" (String "=" r) => (Some ">=", r)
  | String ">" r => (Some ">", r)
  | String "<" (String "=" r) => (Some "<=", r)
  | String "<" r => (Some "<", r)
  | String "=" r => (Some "=", r)
  | _ => (None, s)
  end.

(** Group 5 and the anchor, [(-[a-zA-Z0-9.-]+)?$]. *)
Definition take_prerelease (s : string) : option (option string) :=
  match s with
  | EmptyString => Some None
  | String "-" (String c r) =>
      if all_chars is_pre_char (String c r) then Some (Some s) else None
  | _ => None
  end.

(** [\.] after a run of digits. *)
Definition take_dot (s : string) : option string :=
  match s with
  | String "." r => Some r
  | _ => None
  end.

(** [VERSION_RANGE_REGEX.exec]:
    [/^(\^|~|>=|>|<=|<|=)?(\d+)\.(\d+)\.(\d+)(-[a-zA-Z0-9.-]+)?$/]. *)
Definition VERSION_RANGE_REGEX_exec (s : string) : option RegExpMatch :=
  let '(modifier, s1) := take_modifier s in
  let '(major, s2) := span_digits s1 in
  if negb (digits1 major) then None else
  match take_dot s2 with
  | None => None
  | Some s3 =>
      let '(minor, s4) := span_digits s3 in
      if negb (digits1 minor) then None else
      match take_dot s4 with
      | None => None
      | Some s5 =>
          let '(patch, s6) := span_digits s5 in
          if negb (digits1 patch) then None else
          match take_prerelease s6 with
          | None => None
          | Some prerelease => Some (mkMatch modifier major minor patch prerelease)
          end
      end
  end.

(** The version grammar in the words of the specification: an optional range
    modifier, [major.minor.patch], an optional prerelease suffix. *)
Definition range_modifiers : list string :=
  ["^"; "~"; ">="; ">"; "<="; "<"; "="].

Definition opt_string (o : option string) : string :=
  match o with Some s => s | None => EmptyString end.

Definition modifier_ok (m : option string) : Prop :=
  match m with Some s => In s range_modifiers | None => True end.

Definition prerelease_ok (p : option string) : Prop :=
  match p with
  | Some s => exists c r, s = String "-" (String c r)
                          /\ all_chars is_pre_char (String c r) = true
  | None => True
  end.

Definition assemble (m : RegExpMatch) : string :=
  opt_string (g_modifier m) ++ g_major m ++ "." ++ g_minor m ++ "."
    ++ g_patch m ++ opt_string (g_prerelease m).

Definition well_formed (m : RegExpMatch) : Prop :=
  modifier_ok (g_modifier m) /\ digits1 (g_major m) = true
  /\ digits1 (g_minor m) = true /\ digits1 (g_patch m) = true
  /\ prerelease_ok (g_prerelease m).

Definition version_grammar (s : string) : Prop :=
  exists m, well_formed m /\ s = assemble m.

End Regex.

(** ** Numbers: doubles with an integer value *)

Module JS.

(** The values a version component can take at run time. [Fin z] is the double
    whose value is the integer [z]. *)
Inductive jsnum : Type :=
  | Fin (z : Z)
  | PosInf
  | NegInf
  | NaN.

(** Round-to-nearest, ties-to-even, on 53 significant bits; [2^1024] and above
    overflow. Integers below [2^53] in magnitude are their own double. *)
Definition round_double (z : Z) : jsnum :=
  let a := Z.abs z in
  if a <? 2 ^ 53 then Fin z else
  let e := Z.log2 a - 52 in
  let q := a / 2 ^ e in
  let r := a mod 2 ^ e in
  let half := 2 ^ (e - 1) in
  let q' := if ((half <? r) || ((r =? half) && Z.odd q))%bool then q + 1 else q in
  let m := q' * 2 ^ e in
  if 2 ^ 1024 <=? m then (if 0 <? z then PosInf else NegInf)
  else Fin (Z.sgn z * m).

Definition js_add (x y : jsnum) : jsnum :=
  match x, y with
  | NaN, _ | _, NaN => NaN
  | PosInf, NegInf | NegInf, PosInf => NaN
  | PosInf, _ | _, PosInf => PosInf
  | NegInf, _ | _, NegInf => NegInf
  | Fin a, Fin b => round_double (a + b)
  end.

Definition js_neg (x : jsnum) : jsnum :=
  match x with
  | Fin a => Fin (- a)
  | PosInf => NegInf
  | NegInf => PosInf
  | NaN => NaN
  end.

Definition js_sub (x y : jsnum) : jsnum := js_add x (js_neg y).

(** [Math.max(x, y)]. *)
Definition Math_max (x y : jsnum) : jsnum :=
  match x, y with
  | NaN, _ | _, NaN => NaN
  | PosInf, _ | _, PosInf => PosInf
  | NegInf, v | v, NegInf => v
  | Fin a, Fin b => Fin (Z.max a b)
  end.

(** Decimal digits of a natural number, ["0"] for zero. *)
Definition decimal (n : N) : string := NilZero.string_of_uint (N.to_uint n).

(** [Number(s)] on a string of ASCII digits, the only strings the source
    passes to it (capture groups of [\d+]); the wider numeric-literal grammar
    of JavaScript is not modelled and maps to [NaN] here. *)
Definition Number (s : string) : jsnum :=
  match NilZero.uint_of_string s with
  | Some d => round_double (Z.of_N (N.of_uint d))
  | None => NaN
  end.

Definition num_digits (v : Z) : nat := String.length (decimal (Z.to_N v)).

Definition roundtrips (v c : Z) : bool :=
  match round_double c with
  | Fin z => z =? v
  | _ => false
  end.

(** Number::toString, step 5: the decimal with the fewest significant digits
    that still denotes the double [v] (for [0 < v]); among two of them the one
    closer to [v], and the even one on a tie. [k] counts significant digits. *)
Fixpoint shortest_from (v : Z) (d k fuel : nat) : Z :=
  match fuel with
  | O => v
  | S fuel' =>
      let p := 10 ^ Z.of_nat (d - k) in
      let lo := (v / p) * p in
      let hi := lo + p in
      match roundtrips v lo, roundtrips v hi with
      | true, true =>
          if v - lo <? hi - v then lo
          else if hi - v <? v - lo then hi
          else if Z.even (v / p) then lo else hi
      | true, false => lo
      | false, true => hi
      | false, false => shortest_from v d (S k) fuel'
      end
  end.

Definition shortest (v : Z) : Z :=
  let d := num_digits v in shortest_from v d 1 (d - 1).

Fixpoint strip_zeros (s : string) : string :=
  match s with
  | EmptyString => EmptyString
  | String c r =>
      match strip_zeros r with
      | EmptyString => if Ascii.eqb c "0" then EmptyString else String c EmptyString
      | r' => String c r'
      end
  end.

(** Number::toString for a positive integer-valued double: plain digits up to
    21 of them (a value below [10^21]), exponent notation beyond. *)
Definition to_string_pos (v : Z) : string :=
  let c := shortest v in
  let n := num_digits c in
  if c <? 10 ^ 21 then decimal (Z.to_N c)
  else
    let e := "e+" ++ decimal (N.of_nat (n - 1)) in
    match strip_zeros (decimal (Z.to_N c)) with
    | String c0 EmptyString => String c0 e
    | String c0 r => String c0 ("." ++ r ++ e)
    | EmptyString => e
    end.

(** What a template literal prints for a number. *)
Definition ToString (x : jsnum) : string :=
  match x with
  | NaN => "NaN"
  | PosInf => "Infinity"
  | NegInf => "-Infinity"
  | Fin 0 => "0"
  | Fin (Zpos p) => to_string_pos (Zpos p)
  | Fin (Zneg p) => "-" ++ to_string_pos (Zpos p)
  end.

(** Truthiness of a string that may be [undefined]: [s || ''] and [if (s)]. *)
Definition truthy (o : option string) : bool :=
  match o with
  | Some (String _ _) => true
  | _ => false
  end.

Definition is_Some_bool {A : Type} (o : option A) : bool :=
  match o with Some _ => true | None => false end.

Definition or_empty (o : option string) : string :=
  match o with Some s => s | None => EmptyString end.

(** [a.startsWith(b)]. *)
Definition startsWith (a b : string) : bool := String.prefix b a.

(** [arr[i]] for an integer index. *)
Definition index {A : Type} (arr : list A) (i : Z) : option A :=
  if i <? 0 then None else arr !! Z.to_nat i.

(** [arr.slice(0, end)]. *)
Definition slice0 {A : Type} (arr : list A) (e : Z) : list A :=
  let len := Z.of_nat (length arr) in
  let k := if e <? 0 then Z.max (len + e) 0 else Z.min e len in
  take (Z.to_nat k) arr.

(** Round to the nearest integer, ties to the even one, of [num / den] for
    a positive [den]. *)
Definition round_half_even (num den : Z) : Z :=
  let q := num / den in
  let r := num mod den in
  if 2 * r <? den then q
  else if den <? 2 * r then q + 1
  else if Z.even q then q else q + 1.

(** [2^e <= a / b], for positive [a] and [b] and any integer [e]. *)
Definition at_least_pow2 (a b e : Z) : bool :=
  if 0 <=? e then b * 2 ^ e <=? a else b <=? a * 2 ^ (- e).

(** The binade of a positive rational: [floor (log2 (a / b))]. *)
Definition binade (a b : Z) : Z :=
  let e := Z.log2 a - Z.log2 b in
  if at_least_pow2 a b e then e else e - 1.

(** The double nearest to the positive rational [a / b], ties to even: a
    multiple of the quantum [2^c], where [c] leaves 53 significant bits and
    is never below [-1074] (the subnormal numbers). From [2^1024] on the
    double is [Infinity]; [2^1024] stands for it, which [Math.ceil] and
    [slice] cannot tell from it on an array. *)
Definition binary64_pos (a b : Z) : Q :=
  let c := Z.max (binade a b - 52) (- 1074) in
  if 0 <=? c
  then inject_Z (Z.min (round_half_even a (b * 2 ^ c) * 2 ^ c) (2 ^ 1024))
  else Qmake (round_half_even (a * 2 ^ (- c)) b) (Z.to_pos (2 ^ (- c))).

(** The result of an arithmetic operation whose exact value is [q]. *)
Definition binary64 (q : Q) : Q :=
  match Qnum q with
  | 0 => 0%Q
  | Zpos a => binary64_pos (Zpos a) (Zpos (Qden q))
  | Zneg a => Qopp (binary64_pos (Zpos a) (Zpos (Qden q)))
  end.

End JS.

Import Regex JS.


(** ** The random source *)

Definition Qltb (x y : Q) : bool := negb (Qle_bool y x).

Module Rand.

(** A computation that draws from an ambient stream of [Math.random] results:
    it reads the stream from a position and returns the position it reached. *)
Definition Rand (A : Type) : Type := (nat -> Q) -> nat -> A * nat.

Definition ret {A : Type} (a : A) : Rand A := fun _ i => (a, i).

Definition bind {A B : Type} (m : Rand A) (k : A -> Rand B) : Rand B :=
  fun draws i => let '(a, j) := m draws i in k a draws j.

Definition Math_random : Rand Q := fun draws i => (draws i, S i).

End Rand.

Import Rand.

Declare Scope rand_scope.
Delimit Scope rand_scope with rand.
Notation "'let*' x ':=' m 'in' k" := (bind m (fun x => k))
  (at level 10, x name, m at level 100, k at level 200) : rand_scope.

(** A stream that repeats one draw, and a stream that starts with a list of
    draws and goes on with zero. *)
Definition always (q : Q) : nat -> Q := fun _ => q.
Definition script (l : list Q) : nat -> Q := fun i => nth i l 0%Q.

(** Every draw of the stream is a result [Math.random] can give. *)
Definition unit_draws (draws : nat -> Q) : Prop :=
  forall i, (0 <= draws i)%Q /\ (draws i < 1)%Q.

(** ** 4.1 / 4.2  The version specifier mutator *)

Definition VERSION_MODIFIERS : list string :=
  ["^"; "~"; ">="; ">"; "="; "<"; "<="; ""].
Definition MAJOR_VERSION_BOUND : Z := 3.
Definition MINOR_VERSION_BOUND : Z := 5.
Definition PATCH_VERSION_BOUND : Z := 10.

(** A [Record<string, string>], keys in the order [Object.keys] gives them. *)
Definition StringRecord : Type := list (string * string).

Definition Object_keys (o : StringRecord) : list string := map fst o.

(** [o[k]]: the value of an own key. *)
Fixpoint get_prop (o : StringRecord) (k : string) : option string :=
  match o with
  | [] => None
  | (k', v) :: r => if String.eqb k' k then Some v else get_prop r k
  end.

(** [o[k] = v]: an existing key keeps its place, a new key goes last. *)
Fixpoint set_prop (o : StringRecord) (k v : string) : StringRecord :=
  match o with
  | [] => [(k, v)]
  | (k', v') :: r => if String.eqb k' k then (k', v) :: r else (k', v') :: set_prop r k v
  end.

(** The [options] argument of [scrambleVersion]. *)
Module Hints.
Record t : Type := mk {
  respectMajorVersion : option bool;
  packageName : option string;
  versionConstraints : option StringRecord;
  conflictMode : option string
}.
End Hints.

Definition is_realistic (mode : option string) : bool :=
  match mode with Some m => String.eqb m "realistic" | None => false end.

Definition falsy_flag (b : option bool) : bool :=
  match b with Some true => false | _ => true end.

Section Mutator.
Local Open Scope rand_scope.

(** The idiom of lines 125-126, 129-130, 133-134, 186-187 and 190-191:
    [change = Math.floor(Math.random() * BOUND) + 1], then
    [Math.max(0, Math.random() > 0.5 ? x + change : x - change)]. *)
Definition shift_component (x : jsnum) (bound : Z) : Rand jsnum :=
  let* r := Math_random in
  let change := Fin (Qfloor (r * inject_Z bound) + 1) in
  let* s := Math_random in
  ret (Math_max (Fin 0) (if Qltb (1 # 2) s then js_add x change else js_sub x change)).

(** [createVersionWithinConstraint], lines 157-196. *)
Definition createVersionWithinConstraint
    (modifier : string) (major minor patch : jsnum) (aggressionLevel : Q)
    : Rand string :=
  let scaledAggression := (aggressionLevel / 10)%Q in
  let* r0 := Math_random in
  let* t := (if Qltb r0 (scaledAggression * (8 # 10))
     then
       let* r1 := Math_random in
       let newModifier :=
         if String.eqb modifier "^" then (if Qltb r1 (6 # 10) then "~" else "")
         else if String.eqb modifier "~" then (if Qltb r1 (7 # 10) then "" else "^")
         else (if Qltb r1 (3 # 10) then "=" else "") in
       let* r2 := Math_random in
       if Qltb r2 (6 # 10)
       then let* newMinor := shift_component minor MINOR_VERSION_BOUND in
            ret (newModifier, newMinor, patch)
       else let* newPatch := shift_component patch PATCH_VERSION_BOUND in
            ret (newModifier, minor, newPatch)
     else ret (modifier, minor, patch)) in
  let '(newModifier, newMinor, newPatch) := t in
  ret (newModifier ++ ToString major ++ "." ++ ToString newMinor ++ "."
         ++ ToString newPatch).

(** Lines 77-99: the constraint that applies to the package, when its key is
    found, it is a non-empty string and it matches the version grammar. *)
Definition constraint_match (options : Hints.t) : option RegExpMatch :=
  match Hints.packageName options, Hints.versionConstraints options with
  | Some name, Some constraints =>
      if truthy (Some name) then
        match find (fun key => String.eqb name key || startsWith name (key ++ "/"))%bool
                   (Object_keys constraints) with
        | Some constraintKey =>
            if truthy (Some constraintKey) then
              let constraint := get_prop constraints constraintKey in
              if truthy constraint
              then VERSION_RANGE_REGEX_exec (or_empty constraint)
              else None
            else None
        | None => None
        end
      else None
  | _, _ => None
  end.

(** The free mutation of lines 101-150, once the specifier has matched and
    no constraint applies; [m] holds the groups of the match. *)
Definition free_mutation
    (m : RegExpMatch) (aggressionLevel : Q) (options : Hints.t) : Rand string :=
  let scaledAggression := (aggressionLevel / 10)%Q in
  let* modType := Math_random in
  let newModifier := or_empty (g_modifier m) in
  let newMajor := Number (g_major m) in
  let newMinor := Number (g_minor m) in
  let newPatch := Number (g_patch m) in
  let* r0 := Math_random in
  let* newModifier := (if Qltb r0 (scaledAggression * (8 # 10))
     then
       if is_realistic (Hints.conflictMode options)
       then let* r1 := Math_random in
            if Qltb r1 (6 # 10) then ret ""
            else let* r2 := Math_random in
                 ret (if Qltb r2 (7 # 10) then "~" else "^")
       else let* r1 := Math_random in
            ret (or_empty
                   (index VERSION_MODIFIERS
                      (Qfloor (r1 * inject_Z (Z.of_nat (length VERSION_MODIFIERS))))))
     else ret newModifier) in
  let* r3 := Math_random in
  let* t := (if Qltb r3 (scaledAggression * (7 # 10))
     then
       if (Qltb modType (3 # 10)
           && (falsy_flag (Hints.respectMajorVersion options)
               && negb (is_realistic (Hints.conflictMode options))))%bool
       then let* n := shift_component newMajor MAJOR_VERSION_BOUND in
            ret (n, newMinor, newPatch)
       else if Qltb modType (7 # 10)
       then let* n := shift_component newMinor MINOR_VERSION_BOUND in
            ret (newMajor, n, newPatch)
       else let* n := shift_component newPatch PATCH_VERSION_BOUND in
            ret (newMajor, newMinor, n)
     else ret (newMajor, newMinor, newPatch)) in
  let '(newMajor, newMinor, newPatch) := t in
  let* t := (if is_realistic (Hints.conflictMode options)
     then let* r4 := Math_random in
          if Qltb r4 ((4 # 10) * scaledAggression)
          then let* r5 := Math_random in
               if Qltb r5 (5 # 10)
               then let* r6 := Math_random in
                    ret ("", js_add (js_add newPatch (Fin 1))
                                    (Fin (Qfloor (r6 * 3))))
               else ret ("", newPatch)
          else ret (newModifier, newPatch)
     else ret (newModifier, newPatch)) in
  let '(newModifier, newPatch) := t in
  ret (newModifier ++ ToString newMajor ++ "." ++ ToString newMinor ++ "."
         ++ ToString newPatch ++ or_empty (g_prerelease m)).

(** [scrambleVersion], lines 61-151. *)
Definition scrambleVersion
    (originalVersion : string) (aggressionLevel : Q) (options : Hints.t)
    : Rand string :=
  match VERSION_RANGE_REGEX_exec originalVersion with
  | None => ret originalVersion
  | Some m =>
    match constraint_match options with
    | Some c =>
        createVersionWithinConstraint (or_empty (g_modifier c))
          (Number (g_major c)) (Number (g_minor c)) (Number (g_patch c))
          aggressionLevel
    | None => free_mutation m aggressionLevel options
    end
  end.

End Mutator.

(** ** 3  Manifests, options and the object store *)

Inductive DependencyType : Type :=
  | DEPENDENCIES
  | DEV_DEPENDENCIES
  | PEER_DEPENDENCIES
  | OPTIONAL_DEPENDENCIES.

#[global] Instance DependencyType_eq_dec : EqDecision DependencyType.
Proof. solve_decision. Defined.

(** The string value of each member of the enum. *)
Definition DependencyType_value (t : DependencyType) : string :=
  match t with
  | DEPENDENCIES => "dependencies"
  | DEV_DEPENDENCIES => "devDependencies"
  | PEER_DEPENDENCIES => "peerDependencies"
  | OPTIONAL_DEPENDENCIES => "optionalDependencies"
  end.

(** A reference to a category object of the store. *)
Abbreviation loc := positive (only parsing).

(** A manifest object. The code never assigns a field of a manifest, only
    entries of the category objects its fields refer to, so the manifest is a
    record of references; an absent category is [None]. *)
Record PackageJson : Type := mkPackageJson {
  name : string;
  version : string;
  dependencies : option loc;
  devDependencies : option loc;
  peerDependencies : option loc;
  optionalDependencies : option loc
}.

(** [pkg[depType]]. *)
Definition category (pkg : PackageJson) (t : DependencyType) : option loc :=
  match t with
  | DEPENDENCIES => dependencies pkg
  | DEV_DEPENDENCIES => devDependencies pkg
  | PEER_DEPENDENCIES => peerDependencies pkg
  | OPTIONAL_DEPENDENCIES => optionalDependencies pkg
  end.

Record RouletteOptions : Type := mkOptions {
  targetPath : option string;
  createBackup : option bool;
  dependencyTypes : option (list DependencyType);
  scramblePercentage : option Q;
  aggressionLevel : option Q;
  versionConstraints : option StringRecord;
  respectMajorVersions : option bool;
  conflictMode : option string
}.

Definition Object_values_DependencyType : list DependencyType :=
  [DEPENDENCIES; DEV_DEPENDENCIES; PEER_DEPENDENCIES; OPTIONAL_DEPENDENCIES].

Definition DEFAULT_OPTIONS : RouletteOptions :=
  mkOptions (Some "./package.json") (Some true)
    (Some Object_values_DependencyType) (Some 30%Q) (Some 5%Q) (Some [])
    (Some true) (Some "realistic").

(** [Record<DependencyType, string[]>]. *)
Record ScrambledDeps : Type := mkScrambled {
  sd_dependencies : list string;
  sd_devDependencies : list string;
  sd_peerDependencies : list string;
  sd_optionalDependencies : list string
}.

Definition scrambled (sd : ScrambledDeps) (t : DependencyType) : list string :=
  match t with
  | DEPENDENCIES => sd_dependencies sd
  | DEV_DEPENDENCIES => sd_devDependencies sd
  | PEER_DEPENDENCIES => sd_peerDependencies sd
  | OPTIONAL_DEPENDENCIES => sd_optionalDependencies sd
  end.

(** [sd[t].push(x)]. *)
Definition scrambled_push (sd : ScrambledDeps) (t : DependencyType) (x : string)
    : ScrambledDeps :=
  match t with
  | DEPENDENCIES =>
      mkScrambled (sd_dependencies sd ++ [x]) (sd_devDependencies sd)
        (sd_peerDependencies sd) (sd_optionalDependencies sd)
  | DEV_DEPENDENCIES =>
      mkScrambled (sd_dependencies sd) (sd_devDependencies sd ++ [x])
        (sd_peerDependencies sd) (sd_optionalDependencies sd)
  | PEER_DEPENDENCIES =>
      mkScrambled (sd_dependencies sd) (sd_devDependencies sd)
        (sd_peerDependencies sd ++ [x]) (sd_optionalDependencies sd)
  | OPTIONAL_DEPENDENCIES =>
      mkScrambled (sd_dependencies sd) (sd_devDependencies sd)
        (sd_peerDependencies sd) (sd_optionalDependencies sd ++ [x])
  end.

(** The state one invocation threads: the object store, the random source and
    how far it was read, and the two accumulators that [scrambleDependencies]
    shares with [createRealisticConflicts]. *)
Record session : Type := mkSession {
  store : gmap loc StringRecord;
  draws : nat -> Q;
  drawn : nat;
  scrambledDeps : ScrambledDeps;
  issues : list string
}.

Inductive outcome (A : Type) : Type :=
  | Ok (a : A) (s : session)
  | Throw (error : string).
Arguments Ok {A} a s.
Arguments Throw {A} error.

Module Eff.

Definition M (A : Type) : Type := session -> outcome A.

Definition ret {A : Type} (a : A) : M A := fun s => Ok a s.

Definition bind {A B : Type} (m : M A) (k : A -> M B) : M B :=
  fun s => match m s with
           | Ok a s' => k a s'
           | Throw e => Throw e
           end.

(** Run a drawing computation on the session's random source. *)
Definition rand {A : Type} (m : Rand A) : M A :=
  fun s => let '(a, j) := m (draws s) (drawn s) in
           Ok a (mkSession (store s) (draws s) j (scrambledDeps s) (issues s)).

(** A member access [o.x] or [o[k]] on [o]: a [TypeError] when [o] is
    [undefined]. *)
Definition member {A : Type} (o : option A) : M A :=
  match o with
  | Some a => ret a
  | None => fun _ => Throw "TypeError: Cannot read properties of undefined"
  end.

(** The object a reference points to. *)
Definition deref (l : loc) : M StringRecord :=
  fun s => match store s !! l with
           | Some o => Ok o s
           | None => Throw "dangling reference"
           end.

(** [obj[k] = v] on the object at [l]. *)
Definition assign (l : loc) (k v : string) : M unit :=
  fun s => match store s !! l with
           | Some o =>
               Ok tt (mkSession (<[l := set_prop o k v]> (store s)) (draws s) (drawn s)
                        (scrambledDeps s) (issues s))
           | None => Throw "dangling reference"
           end.

(** A fresh object holding [o]. *)
Definition alloc (o : StringRecord) : M loc :=
  fun s => let l := fresh (dom (store s)) in
           Ok l (mkSession (<[l := o]> (store s)) (draws s) (drawn s)
                   (scrambledDeps s) (issues s)).

(** [scrambledDeps[t].push(x)] and [issues.push(line)]. *)
Definition push_scrambled (t : DependencyType) (x : string) : M unit :=
  fun s => Ok tt (mkSession (store s) (draws s) (drawn s)
                    (scrambled_push (scrambledDeps s) t x) (issues s)).

Definition push_issue (line : string) : M unit :=
  fun s => Ok tt (mkSession (store s) (draws s) (drawn s) (scrambledDeps s)
                    (issues s ++ [line])).

Definition get_scrambled (t : DependencyType) : M (list string) :=
  fun s => Ok (scrambled (scrambledDeps s) t) s.

(** The empty [scrambledDeps] and [issues] of lines 206-213. *)
Definition new_accumulators : M unit :=
  fun s => Ok tt (mkSession (store s) (draws s) (drawn s)
                    (mkScrambled [] [] [] []) []).

Definition the_scrambledDeps : M ScrambledDeps := fun s => Ok (scrambledDeps s) s.
Definition the_issues : M (list string) := fun s => Ok (issues s) s.

(** [for (const x of xs) body(x)]. *)
Fixpoint for_of {A : Type} (xs : list A) (body : A -> M unit) : M unit :=
  match xs with
  | [] => ret tt
  | x :: r => bind (body x) (fun _ => for_of r body)
  end.

End Eff.

Import Eff.

Declare Scope eff_scope.
Delimit Scope eff_scope with eff.
Notation "'do' x ':=' m 'in' k" := (Eff.bind m (fun x => k))
  (at level 10, x name, m at level 100, k at level 200) : eff_scope.
Notation "m ';;' k" := (Eff.bind m (fun _ => k))
  (at level 100, k at level 200, right associativity) : eff_scope.

(** ** The host's [Array.prototype.sort] *)

(** A comparison sort, run on one array, is a finite tree of comparator calls:
    each call answers negative, zero or positive, and a leaf is the array the
    sort leaves behind. Which tree an engine builds for an array is the
    engine's business; the selector only fixes the comparator. *)
Inductive sort_tree : Type :=
  | Sorted (result : list string)
  | Compare (negative zero positive : sort_tree).

(** [keys.sort(() => Math.random() - 0.5)]: every comparator call draws. *)
Fixpoint run_sort (t : sort_tree) : Rand (list string) :=
  match t with
  | Sorted result => Rand.ret result
  | Compare negative zero positive =>
      Rand.bind Math_random (fun r =>
        let order := (r - (1 # 2))%Q in
        if Qltb order 0 then run_sort negative
        else if Qeq_bool order 0 then run_sort zero
        else run_sort positive)
  end.

Fixpoint leaves (t : sort_tree) : list (list string) :=
  match t with
  | Sorted result => [result]
  | Compare n z p => leaves n ++ leaves z ++ leaves p
  end.

(** What ECMAScript asks of every engine: the sort rearranges the array. *)
Definition rearranges (sort : list string -> sort_tree) : Prop :=
  forall keys result, In result (leaves (sort keys)) -> Permutation keys result.

(** [semver]'s view of a version: three numbers. *)
Record SemVer : Type := mkSemVer {
  major : jsnum;
  minor : jsnum;
  patch : jsnum
}.

(** ** 4.4  The conflict strategist *)

(** What [obj[k]] evaluates to on an object parsed from JSON. *)
Inductive property : Type :=
  | Own (v : string)
  | Inherited
  | Undefined.

(** The members every object inherits from [Object.prototype]; all of them
    are functions or objects, hence truthy and never strings. *)
Definition Object_prototype_keys : list string :=
  ["constructor"; "__proto__"; "hasOwnProperty"; "isPrototypeOf";
   "propertyIsEnumerable"; "toLocaleString"; "toString"; "valueOf";
   "__defineGetter__"; "__defineSetter__"; "__lookupGetter__";
   "__lookupSetter__"].

Definition mem_string (x : string) (l : list string) : bool :=
  existsb (String.eqb x) l.

(** [obj[k]] for a key that need not be an own key of [obj]. *)
Definition lookup_property (o : StringRecord) (k : string) : property :=
  match get_prop o k with
  | Some v => Own v
  | None => if mem_string k Object_prototype_keys then Inherited else Undefined
  end.

Definition property_truthy (p : property) : bool :=
  match p with
  | Own v => truthy (Some v)
  | Inherited => true
  | Undefined => false
  end.

(** How a template literal prints a string that may be [undefined]. *)
Definition show_optional (o : option string) : string :=
  match o with Some s => s | None => "undefined" end.

(** [\[^/\]*], greedy. *)
Fixpoint span_not_slash (s : string) : string :=
  match s with
  | String c r => if Ascii.eqb c "/" then EmptyString else String c (span_not_slash r)
  | EmptyString => EmptyString
  end.

Fixpoint drop_not_slash (s : string) : string :=
  match s with
  | String c r => if Ascii.eqb c "/" then s else drop_not_slash r
  | EmptyString => EmptyString
  end.

(** The longest prefix that ends with a hyphen. *)
Fixpoint longest_dash (s : string) : option string :=
  match s with
  | EmptyString => None
  | String c r =>
      match longest_dash r with
      | Some p => Some (String c p)
      | None => if Ascii.eqb c "-" then Some "-" else None
      end
  end.

(** Group 1 of [/^(@[^/]+\/|[^@][^/]+-)/.exec(dep)]. *)
Definition family_prefix (dep : string) : option string :=
  match dep with
  | String c0 rest =>
      let run := span_not_slash rest in
      if Ascii.eqb c0 "@" then
        match run, drop_not_slash rest with
        | String _ _, String _ _ => Some (String c0 (run ++ "/"))
        | _, _ => None
        end
      else
        match run with
        | String c1 r =>
            match longest_dash r with
            | Some p => Some (String c0 (String c1 p))
            | None => None
            end
        | EmptyString => None
        end
  | EmptyString => None
  end.

(** [prefixes.add(p)] on a [Set] kept in insertion order. *)
Definition Set_add (prefixes : list string) (p : string) : list string :=
  if mem_string p prefixes then prefixes else prefixes ++ [p].

Definition popularPackages : list string :=
  ["react"; "react-dom"; "angular"; "@angular/core"; "vue";
   "express"; "next"; "gatsby"; "webpack"].

Record TransitiveConflict : Type := mkConflict {
  c_name : string;
  c_version : string;
  c_transitive : string;
  c_transVersion : string
}.

Definition transitiveConflicts : list TransitiveConflict :=
  [mkConflict "@babel/core" "^7.0.0" "@babel/preset-env" "^7.18.0";
   mkConflict "webpack" "^4.0.0" "html-webpack-plugin" "^5.0.0";
   mkConflict "react" "^17.0.0" "react-router-dom" "^6.0.0";
   mkConflict "typescript" "^4.0.0" "tslib" "^2.5.0"].

(** [dep === pkg || dep.startsWith(`${pkg}/`)]. *)
Definition names_package (pkg dep : string) : bool :=
  (String.eqb dep pkg || startsWith dep (pkg ++ "/"))%bool.

(** [dep === target || dep.startsWith(`${target}/`)] for a [target] that may
    be [undefined]. *)
Definition names_target (target : option string) (dep : string) : bool :=
  match target with
  | Some pkg => names_package pkg dep
  | None => startsWith dep "undefined/"
  end.

(** [Math.floor(Math.random() * n)]. *)
Definition random_below (n : Z) : Rand Z :=
  Rand.bind Math_random (fun r => Rand.ret (Qfloor (r * inject_Z n))).

(** [Math.random() < p]. *)
Definition chance (p : Q) : Rand bool :=
  Rand.bind Math_random (fun r => Rand.ret (Qltb r p)).

Definition is_mode (mode expected : string) : bool := String.eqb mode expected.

Section Strategist.

(** [semver.coerce], taken from outside the repository, together with
    [semver.valid] of its result, which accepts every version it returns. *)
Variable coerce : string -> option SemVer.

Local Open Scope eff_scope.

(** [v && semver.valid(semver.coerce(v))], then [semver.coerce(v)]: only a
    non-empty string has a coerced version. *)
Definition coerce_valid (v : property) : option (string * SemVer) :=
  match v with
  | Own s => if truthy (Some s)
             then match coerce s with Some c => Some (s, c) | None => None end
             else None
  | _ => None
  end.

(** [original.dependencies || {}], read from the store. *)
Definition record_or_empty (o : option loc) : M StringRecord :=
  match o with
  | Some l => deref l
  | None => ret []
  end.

(** Strategy 1, lines 289-342. *)
Definition peer_conflict_strategy
    (original modified : PackageJson) (currentDepType : DependencyType)
    (mode : string) : M unit :=
  do applies :=
    (if decide (currentDepType = PEER_DEPENDENCIES) then ret true
     else if is_mode mode "peer-conflict" then rand (chance (8 # 10))
     else ret false) in
  if negb applies then ret tt else
  if negb (is_Some_bool (dependencies original)) then ret tt else
  do l := member (dependencies original) in
  do regular := deref l in
  if negb (Nat.ltb 0 (length (Object_keys regular))) then ret tt else
  do peerDeps := record_or_empty (category original PEER_DEPENDENCIES) in
  (* the filter reads [original.dependencies] again *)
  do regular' := (do l := member (dependencies original) in deref l) in
  let sharedDeps :=
    filter (fun dep => property_truthy (lookup_property regular' dep))
           (Object_keys peerDeps) in
  if negb (Nat.ltb 0 (length sharedDeps)) then ret tt else
  do preferReact :=
    (if mem_string "react" sharedDeps then rand (chance (7 # 10)) else ret false) in
  do sharedDep :=
    (if preferReact then ret (Some "react")
     else do i := rand (random_below (Z.of_nat (length sharedDeps))) in
          ret (index sharedDeps i)) in
  do regularVersion :=
    (if (is_Some_bool (dependencies original) && truthy sharedDep)%bool
     then do l := member (dependencies original) in
          do o := deref l in
          ret (lookup_property o (or_empty sharedDep))
     else ret Undefined) in
  match coerce_valid regularVersion with
  | None => ret tt
  | Some (regularText, coercedRegular) =>
      do strategyChoice := rand Math_random in
      do conflictVersion :=
        (if Qltb strategyChoice (4 # 10)
         then do r := rand (random_below 2) in
              let majorDiff := Fin (r + 1) in
              ret ("^" ++ ToString (js_add (major coercedRegular) majorDiff) ++ ".0.0")
         else if Qltb strategyChoice (7 # 10)
         then ret (ToString (major coercedRegular) ++ "."
                     ++ ToString (minor coercedRegular) ++ "."
                     ++ ToString (js_add (patch coercedRegular) (Fin 1)))
         else ret (">=" ++ ToString (major coercedRegular) ++ "."
                     ++ ToString (js_add (minor coercedRegular) (Fin 2)) ++ ".0 <"
                     ++ ToString (major coercedRegular) ++ "."
                     ++ ToString (js_add (minor coercedRegular) (Fin 5)) ++ ".0")) in
      if is_Some_bool (category modified PEER_DEPENDENCIES) then
        (if (is_Some_bool (category modified PEER_DEPENDENCIES) && truthy sharedDep)%bool
         then do m := member (category modified PEER_DEPENDENCIES) in
              assign m (or_empty sharedDep) conflictVersion
         else ret tt) ;;
        (if truthy sharedDep
         then push_scrambled PEER_DEPENDENCIES (or_empty sharedDep)
         else ret tt) ;;
        push_issue ("Created peer dependency conflict for " ++ show_optional sharedDep
                      ++ ": regular=" ++ regularText ++ ", peer=" ++ conflictVersion)
      else ret tt
  end.

(** The loop of lines 390-399 for one entry of the catalogue. *)
Definition transitive_conflict_step
    (dependencies_l modified_l : option loc) (newVersion : string)
    (conflict : TransitiveConflict) : M unit :=
  do deps := record_or_empty dependencies_l in
  let depVersion := get_prop deps (c_name conflict) in
  do already := get_scrambled DEPENDENCIES in
  if (truthy depVersion && negb (mem_string (c_name conflict) already))%bool
  then
    do m := member modified_l in
    assign m (c_name conflict) newVersion ;;
    push_scrambled DEPENDENCIES (c_name conflict) ;;
    push_issue ("Created potential transitive dependency conflict for "
                  ++ c_name conflict ++ ": " ++ or_empty depVersion ++ " -> "
                  ++ newVersion)
  else ret tt.

(** Strategy 2, lines 344-404. *)
Definition transitive_strategy
    (original modified : PackageJson) (mode : string) (scaledAggression : Q)
    : M unit :=
  do applies :=
    (if is_mode mode "realistic" then rand (chance (scaledAggression * (6 # 10)))
     else ret false) in
  if negb applies then ret tt else
  do deps := record_or_empty (dependencies original) in
  let depKeys := Object_keys deps in
  let foundPopular :=
    filter (fun pkg => existsb (names_package pkg) depKeys) popularPackages in
  if negb (Nat.ltb 0 (length foundPopular) && is_Some_bool (dependencies modified))%bool
  then ret tt else
  do i := rand (random_below (Z.of_nat (length foundPopular))) in
  let targetPkg := index foundPopular i in
  let matchingDeps := filter (names_target targetPkg) depKeys in
  if negb (Nat.ltb 0 (length matchingDeps)) then ret tt else
  do j := rand (random_below (Z.of_nat (length matchingDeps))) in
  let dep := index matchingDeps j in
  let originalVersion :=
    if truthy dep then lookup_property deps (or_empty dep) else Undefined in
  match coerce_valid originalVersion with
  | None => ret tt
  | Some (_, coerced) =>
      do r := rand (random_below 3) in
      let newMinor :=
        Math_max (Fin 0) (js_sub (js_sub (minor coerced) (Fin r)) (Fin 1)) in
      let newVersion := ToString (major coerced) ++ "." ++ ToString newMinor ++ ".0" in
      for_of transitiveConflicts
        (transitive_conflict_step (dependencies original) (dependencies modified)
           newVersion)
  end.

(** The loop of lines 435-454 for one related package. *)
Definition sibling_step
    (dependencies_l modified_l : option loc)
    (baseVersion : string) (baseMatch : RegExpMatch) (pkg : option string)
    : M unit :=
  do hit := rand (chance (7 # 10)) in
  if negb hit then ret tt else
  do r := rand (random_below 3) in
  let newPatch := js_add (js_add (Number (g_patch baseMatch)) (Fin r)) (Fin 1) in
  let newVersion :=
    or_empty (g_modifier baseMatch) ++ g_major baseMatch ++ "."
      ++ g_minor baseMatch ++ "." ++ ToString newPatch in
  (if (is_Some_bool modified_l && truthy pkg)%bool
   then do m := member modified_l in assign m (or_empty pkg) newVersion
   else ret tt) ;;
  (if truthy pkg then push_scrambled DEPENDENCIES (or_empty pkg) else ret tt) ;;
  do deps := record_or_empty dependencies_l in
  push_issue ("Created version mismatch for related package " ++ show_optional pkg
                ++ ": "
                ++ (if truthy pkg
                    then show_optional (get_prop deps (or_empty pkg))
                    else "")
                ++ " -> " ++ newVersion ++ " (base: " ++ baseVersion ++ ")").

(** The body of the loop over prefixes, lines 421-458. *)
Definition sibling_family
    (dependencies_l modified_l : option loc) (depKeys : list string)
    (scaledAggression : Q) (prefix : string) : M unit :=
  do hit := rand (chance (scaledAggression * (7 # 10))) in
  if negb hit then ret tt else
  let relatedPackages := filter (fun dep => startsWith dep prefix) depKeys in
  if negb (Nat.leb 2 (length relatedPackages)) then ret tt else
  let basePkg := index relatedPackages 0 in
  do deps := record_or_empty dependencies_l in
  let baseVersion :=
    if truthy basePkg then get_prop deps (or_empty basePkg) else Some "" in
  let baseMatch :=
    if truthy baseVersion then VERSION_RANGE_REGEX_exec (or_empty baseVersion)
    else None in
  match baseMatch with
  | Some m =>
      if is_Some_bool modified_l
      then for_of (map (fun i => index relatedPackages (Z.of_nat i))
                       (seq 1 (length relatedPackages - 1)))
                  (sibling_step dependencies_l modified_l (or_empty baseVersion) m)
      else ret tt
  | None => ret tt
  end.

(** Strategy 3, lines 406-459. *)
Definition sibling_strategy
    (original modified : PackageJson) (currentDepType : DependencyType)
    (mode : string) (scaledAggression : Q) : M unit :=
  if negb (is_mode mode "realistic" && bool_decide (currentDepType = DEPENDENCIES))%bool
  then ret tt else
  do deps := record_or_empty (dependencies original) in
  let depKeys := Object_keys deps in
  let prefixes :=
    fold_left (fun acc dep =>
                 match family_prefix dep with
                 | Some p => if truthy (Some p) then Set_add acc p else acc
                 | None => acc
                 end) depKeys [] in
  for_of prefixes
    (sibling_family (dependencies original) (dependencies modified) depKeys
       scaledAggression).

(** [createRealisticConflicts], lines 274-462. The accumulators
    [scrambledDeps] and [issues] are those of the session. *)
Definition createRealisticConflicts
    (original modified : PackageJson) (currentDepType : DependencyType)
    (aggression : Q) (mode : string) : M unit :=
  let scaledAggression := (aggression / 10)%Q in
  peer_conflict_strategy original modified currentDepType mode ;;
  transitive_strategy original modified mode scaledAggression ;;
  sibling_strategy original modified currentDepType mode scaledAggression.

End Strategist.

Section Selector.

(** The engine's sort and [semver.coerce], both taken from outside. *)
Variable host_sort : list string -> sort_tree.
Variable coerce : string -> option SemVer.

Local Open Scope eff_scope.

(** [x || d] on a number that may be [undefined]: zero is falsy. *)
Definition number_or (x : option Q) (d : Q) : Q :=
  match x with
  | Some q => if Qeq_bool q 0 then d else q
  | None => d
  end.

Definition string_or (x : option string) (d : string) : string :=
  if truthy x then or_empty x else d.

Definition value_or {A : Type} (x : option A) (d : A) : A :=
  match x with Some a => a | None => d end.

(** [JSON.parse(JSON.stringify(pkg))]: every category that is present is
    copied into a fresh object. *)
Definition copy_category (o : option loc) : M (option loc) :=
  match o with
  | Some l => do entries := deref l in do l' := alloc entries in ret (Some l')
  | None => ret None
  end.

Definition deep_copy (pkg : PackageJson) : M PackageJson :=
  do d := copy_category (dependencies pkg) in
  do v := copy_category (devDependencies pkg) in
  do p := copy_category (peerDependencies pkg) in
  do o := copy_category (optionalDependencies pkg) in
  ret (mkPackageJson (name pkg) (version pkg) d v p o).

(** [Math.ceil((totalDeps * scramblePercentage) / 100)]: the product and
    the quotient are doubles, each rounded from its exact value. [totalDeps]
    is the length of an array and so below [2^32]; a list that long or longer
    is no array, and its count is taken without rounding. *)
Definition scramble_count (totalDeps : nat) (percentage : Q) : Z :=
  let product := (inject_Z (Z.of_nat totalDeps) * percentage)%Q in
  if Z.of_nat totalDeps <? 2 ^ 32
  then Qceiling (binary64 (binary64 product / 100))
  else Qceiling (product / 100).

(** Lines 231-233: the keys chosen for mutation. *)
Definition select_keys (keys : list string) (scrambleCount : Z)
    : Rand (list string) :=
  Rand.bind (run_sort (host_sort keys)) (fun sorted =>
    Rand.ret (slice0 sorted scrambleCount)).

(** [originalVersion !== newVersion] for an [originalVersion] that may be
    [undefined]. *)
Definition differs (originalVersion : option string) (newVersion : string) : bool :=
  match originalVersion with
  | Some v => negb (String.eqb v newVersion)
  | None => true
  end.

(** The body of the loop of lines 236-255. *)
Definition scramble_entry
    (deps_l : loc) (modified : PackageJson) (depType : DependencyType)
    (aggression : Q) (hints : string -> Hints.t) (dep : string) : M unit :=
  do deps := deref deps_l in
  let originalVersion := get_prop deps dep in
  do newVersion :=
    rand (scrambleVersion (or_empty originalVersion) aggression (hints dep)) in
  if differs originalVersion newVersion then
    if is_Some_bool (category modified depType) then
      do m := member (category modified depType) in
      assign m dep newVersion ;;
      push_scrambled depType dep ;;
      let versionInfo :=
        dep ++ ": " ++ show_optional originalVersion ++ " -> " ++ newVersion in
      push_issue ("Modified " ++ DependencyType_value depType ++ " " ++ versionInfo)
    else ret tt
  else ret tt.

(** The body of the loop of lines 223-266. *)
Definition scramble_category
    (pkg modified : PackageJson) (percentage aggression : Q) (mode : string)
    (hints : string -> Hints.t) (depType : DependencyType) : M unit :=
  match category pkg depType with
  | None => ret tt
  | Some l =>
      do deps := deref l in
      if negb (Nat.ltb 0 (length (Object_keys deps))) then ret tt else
      let totalDeps := length (Object_keys deps) in
      let scrambleCount := scramble_count totalDeps percentage in
      do depsToScramble := rand (select_keys (Object_keys deps) scrambleCount) in
      for_of depsToScramble
        (scramble_entry l modified depType aggression hints) ;;
      if (is_mode mode "realistic" || is_mode mode "peer-conflict")%bool
      then createRealisticConflicts coerce pkg modified depType aggression mode
      else ret tt
  end.

Record Scrambled : Type := mkResult {
  modified : PackageJson;
  result_scrambledDeps : ScrambledDeps;
  result_issues : list string
}.

(** Lines 214-220: every option falls back on its default. *)
Definition resolved_depTypes (options : RouletteOptions) : list DependencyType :=
  value_or (dependencyTypes options)
    (value_or (dependencyTypes DEFAULT_OPTIONS) []).

Definition resolved_scramblePercentage (options : RouletteOptions) : Q :=
  number_or (scramblePercentage options)
    (number_or (scramblePercentage DEFAULT_OPTIONS) 30).

Definition resolved_aggressionLevel (options : RouletteOptions) : Q :=
  number_or (aggressionLevel options)
    (number_or (aggressionLevel DEFAULT_OPTIONS) 5).

Definition resolved_conflictMode (options : RouletteOptions) : string :=
  string_or (conflictMode options)
    (string_or (conflictMode DEFAULT_OPTIONS) "realistic").

Definition resolved_respectMajorVersions (options : RouletteOptions) : option bool :=
  match respectMajorVersions options with
  | Some b => Some b
  | None => respectMajorVersions DEFAULT_OPTIONS
  end.

Definition resolved_versionConstraints (options : RouletteOptions) : StringRecord :=
  value_or (versionConstraints options)
    (value_or (versionConstraints DEFAULT_OPTIONS) []).

(** Lines 238-243: the hints [scrambleVersion] gets for the entry [dep]. *)
Definition hints_for (options : RouletteOptions) (dep : string) : Hints.t :=
  Hints.mk
    (match resolved_respectMajorVersions options with
     | Some true => Some true
     | _ => None
     end)
    (Some dep) (Some (resolved_versionConstraints options))
    (Some (resolved_conflictMode options)).

(** [scrambleDependencies], lines 201-269. The accumulators start empty. *)
Definition scrambleDependencies (pkg : PackageJson) (options : RouletteOptions)
    : M Scrambled :=
  do modified := deep_copy pkg in
  new_accumulators ;;
  for_of (resolved_depTypes options)
    (scramble_category pkg modified (resolved_scramblePercentage options)
       (resolved_aggressionLevel options) (resolved_conflictMode options)
       (hints_for options)) ;;
  do sd := the_scrambledDeps in
  do iss := the_issues in
  ret (mkResult modified sd iss).

End Selector.

(** ** The callers of the selector *)

(** [{ ...DEFAULT_OPTIONS, ...options }], line 469 of [scramblePackageJson]:
    an option that is given replaces the default. *)
Definition spread_defaults (options : RouletteOptions) : RouletteOptions :=
  let pick {A : Type} (f : RouletteOptions -> option A) :=
    match f options with Some v => Some v | None => f DEFAULT_OPTIONS end in
  mkOptions (pick targetPath) (pick createBackup) (pick dependencyTypes)
    (pick scramblePercentage) (pick aggressionLevel) (pick versionConstraints)
    (pick respectMajorVersions) (pick conflictMode).

(** The options the [scramble] command builds from its arguments once
    [parseInt] has read the two numbers, [cli.ts] lines 49-63. *)
Definition cli_options (path : string) (backup : bool)
    (types : list DependencyType) (percentage level : Z) : RouletteOptions :=
  mkOptions (Some path) (Some backup) (Some types)
    (Some (inject_Z (Z.min 100 (Z.max 0 percentage))))
    (Some (inject_Z (Z.min 10 (Z.max 1 level))))
    None None None.

(** ** Sample collaborators, for running the embedding on concrete inputs *)

Module Sample.

(** Binary insertion, the insertion step of V8's sort: the pivot is compared
    with the middle of the sorted part and goes left on a negative answer. *)
Fixpoint binary_search (fuel left right : nat) (k : nat -> sort_tree) : sort_tree :=
  match fuel with
  | O => k left
  | S fuel' =>
      if Nat.ltb left right then
        let mid := (left + Nat.div2 (right - left))%nat in
        Compare (binary_search fuel' left mid k)
                (binary_search fuel' (S mid) right k)
                (binary_search fuel' (S mid) right k)
      else k left
  end.

Fixpoint insert_all (sorted rest : list string) : sort_tree :=
  match rest with
  | [] => Sorted sorted
  | pivot :: rest' =>
      binary_search (length sorted) 0 (length sorted)
        (fun at_ => insert_all (take at_ sorted ++ pivot :: drop at_ sorted) rest')
  end.

Definition binary_insertion_sort (keys : list string) : sort_tree :=
  insert_all [] keys.

(** V8's sort of an array shorter than 64, which is one run of its TimSort.
    [CountAndMakeRun] compares the second element with the first, a negative
    answer announcing a descending run, and then each element with the one
    before it until the run ends; a descending run is reversed. The elements
    after the run are inserted into it by binary insertion. *)
Fixpoint extend_run (descending : bool) (run rest : list string)
    (k : list string -> list string -> sort_tree) : sort_tree :=
  match rest with
  | [] => k (if descending then rev run else run) []
  | current :: rest' =>
      let longer := extend_run descending (run ++ [current]) rest' k in
      let stop := k (if descending then rev run else run) rest in
      if descending then Compare longer stop stop else Compare stop longer longer
  end.

Definition count_and_make_run (keys : list string)
    (k : list string -> list string -> sort_tree) : sort_tree :=
  match keys with
  | first :: second :: rest =>
      Compare (extend_run true [first; second] rest k)
              (extend_run false [first; second] rest k)
              (extend_run false [first; second] rest k)
  | _ => k keys []
  end.

Definition timsort_short (keys : list string) : sort_tree :=
  count_and_make_run keys insert_all.

(** A stand-in for [semver.coerce] on plain specifiers: the first run of
    digits is the major version, and up to two dotted runs after it are the
    minor and patch versions (zero when missing). *)
Fixpoint skip_to_digit (s : string) : string :=
  match s with
  | String c r => if is_digit c then s else skip_to_digit r
  | EmptyString => EmptyString
  end.

Definition dotted_number (s : string) : option (string * string) :=
  match s with
  | String "." r =>
      let '(d, t) := span_digits r in
      if digits1 d then Some (d, t) else None
  | _ => None
  end.

Definition coerce (v : string) : option SemVer :=
  let '(ma, s1) := span_digits (skip_to_digit v) in
  if negb (digits1 ma) then None else
  match dotted_number s1 with
  | None => Some (mkSemVer (Number ma) (Fin 0) (Fin 0))
  | Some (mi, s2) =>
      match dotted_number s2 with
      | None => Some (mkSemVer (Number ma) (Number mi) (Fin 0))
      | Some (pa, _) => Some (mkSemVer (Number ma) (Number mi) (Number pa))
      end
  end.

(** A session over a store, nothing drawn yet. *)
Definition start (objects : gmap loc StringRecord) (d : nat -> Q) : session :=
  mkSession objects d 0 (mkScrambled [] [] [] []) [].

(** A manifest with regular, development and peer dependencies, the three
    category objects it refers to, and options over the defaults. *)
Definition manifest : PackageJson :=
  mkPackageJson "demo" "1.0.0" (Some 1%positive) (Some 2%positive)
    (Some 3%positive) None.

Definition objects : gmap loc StringRecord :=
  <[1%positive := [("react", "^17.0.2"); ("webpack", "^4.0.0")]]>
    (<[2%positive := [("jest", "latest")]]>
       (<[3%positive := [("react", "^17.0.0")]]> ∅)).

Definition options (types : list DependencyType) (percentage aggression : Q)
    (mode : string) (constraints : StringRecord) : RouletteOptions :=
  mkOptions None None (Some types) (Some percentage) (Some aggression)
    (Some constraints) None (Some mode).

(** A manifest with a single regular dependency. *)
Definition small_manifest : PackageJson :=
  mkPackageJson "demo" "1.0.0" (Some 1%positive) None None None.

Definition small_objects : gmap loc StringRecord :=
  <[1%positive := [("express", "^4.17.1")]]> ∅.

End Sample.

(** ** Vocabulary of the properties *)

Definition starts_with_digit (s : string) : bool :=
  match s with String c _ => is_digit c | EmptyString => false end.


(** Whatever position the stream is read from, the result satisfies [P]. *)
Definition always_returns {A : Type} (d : nat -> Q) (m : Rand A) (P : A -> Prop)
    : Prop :=
  forall i, P (fst (m d i)).


Definition modifier_string_ok (m : string) : Prop :=
  m = "" \/ In m range_modifiers.

(** A component whose value leaves room for every offset the mutator adds
    (at most 10 and then at most 3) below [2^53], where doubles are exact. *)
Definition small_component (s : string) : Prop :=
  exists n, Number s = Fin n /\ 0 <= n < 2 ^ 53 - 13.

Definition small_match (m : RegExpMatch) : Prop :=
  small_component (g_major m) /\ small_component (g_minor m)
  /\ small_component (g_patch m).


(** A major version of [10^21], the least that prints in exponent notation. *)
Definition sextillion : string := "1000000000000000000000".

(** The entries of a category that may be absent. *)
Definition entries (s : session) (o : option loc) : option StringRecord :=
  match o with
  | Some l => store s !! l
  | None => None
  end.

(** All the references of a manifest point into the store. *)
Definition valid_refs (D : loc -> Prop) (pkg : PackageJson) : Prop :=
  forall t l, category pkg t = Some l -> D l.

Definition allocated (s : session) (l : loc) : Prop := is_Some (store s !! l).

(** From [s] to [s']: the random source is the same, no object disappears,
    and an object outside [W] is the same object. *)
Definition extends (W : loc -> Prop) (s s' : session) : Prop :=
  draws s' = draws s
  /\ (forall l, allocated s l -> allocated s' l)
  /\ (forall l, ~ W l -> store s' !! l = store s !! l).

(** Total correctness, confined to [W]: in every session where the objects
    [D] exist the computation returns, having written at most [W]. *)
Definition confined {A : Type} (D W : loc -> Prop) (m : M A) : Prop :=
  forall s, (forall l, D l -> allocated s l) ->
  exists a s', m s = Ok a s' /\ extends W s s'.

(** The categories the strategist writes whatever category is being
    processed: [peerDependencies] in [peer-conflict] mode (strategy 1) and
    [dependencies] in [realistic] mode (strategies 2 and 3). *)
Definition strategist_reaches (mode : string) (t : DependencyType) : bool :=
  ((bool_decide (t = PEER_DEPENDENCIES) && is_mode mode "peer-conflict")
   || (bool_decide (t = DEPENDENCIES) && is_mode mode "realistic"))%bool.

(** The categories written while [current] is processed. *)
Definition may_write (mode : string) (current t : DependencyType) : bool :=
  (bool_decide (t = current) || strategist_reaches mode t)%bool.

(** From [s] to [s']: only new objects, nothing else touched. *)
Definition grows (s s' : session) : Prop :=
  draws s' = draws s /\ drawn s' = drawn s
  /\ scrambledDeps s' = scrambledDeps s /\ issues s' = issues s
  /\ (forall l, allocated s l -> store s' !! l = store s !! l).

(** ** The distribution of the selection *)

(** A generator with [b] random bits draws [k / 2^b], every [k] below [2^b]
    as often as any other. *)
Definition bit_draws (b : nat) : list Q :=
  map (fun k => Z.of_nat k # Pos.of_nat (2 ^ b)) (seq 0 (2 ^ b)).

(** All sequences of [h] draws. *)
Fixpoint draw_sequences (b h : nat) : list (list Q) :=
  match h with
  | O => [[]]
  | S h' => flat_map (fun r => map (cons r) (draw_sequences b h')) (bit_draws b)
  end.

(** The most comparator calls a sort makes. *)
Fixpoint depth (t : sort_tree) : nat :=
  match t with
  | Sorted _ => O
  | Compare n z p => S (Nat.max (depth n) (Nat.max (depth z) (depth p)))
  end.

(** Whether [x] is among the chosen keys when the draws are [w]. *)
Definition chosen (host_sort : list string -> sort_tree) (keys : list string)
    (scrambleCount : Z) (x : string) (w : list Q) : bool :=
  mem_string x (fst (select_keys host_sort keys scrambleCount (script w) 0%nat)).

(** The probability that [x] is chosen: the share of the equally likely
    draw sequences on which it is. *)
Definition inclusion_probability (host_sort : list string -> sort_tree) (b : nat)
    (keys : list string) (scrambleCount : Z) (x : string) : Q :=
  let space := draw_sequences b (depth (host_sort keys)) in
  Z.of_nat (length (filter (fun w => chosen host_sort keys scrambleCount x w) space))
    # Pos.of_nat (length space).

(** A sort that asks of the comparator's answer only whether it is negative:
    a zero and a positive answer lead to the same place. *)
Inductive sign_only : sort_tree -> Prop :=
  | sign_only_sorted result : sign_only (Sorted result)
  | sign_only_compare negative other :
      sign_only negative -> sign_only other ->
      sign_only (Compare negative other other).

(** [Math.random() - 0.5] is negative on half of the draws, so each
    comparator call of such a sort is the toss of a fair coin. Of the [2^h]
    outcomes of [h] tosses, [coin_hits f t h] lead the sort [t] to an array
    on which [f] holds. *)
Fixpoint coin_hits (f : list string -> bool) (t : sort_tree) (h : nat) : nat :=
  match t with
  | Sorted result => if f result then (2 ^ h)%nat else 0%nat
  | Compare negative _ positive =>
      match h with
      | O => 0%nat
      | S h' => (coin_hits f negative h' + coin_hits f positive h')%nat
      end
  end.

(** ** More vocabulary *)

(** A run of digits the way a number is printed: no zero in front, except
    for zero itself. *)
Definition no_leading_zero (s : string) : bool :=
  match s with
  | String "0" (String _ _) => false
  | _ => true
  end.

Definition plain_match (m : RegExpMatch) : Prop :=
  no_leading_zero (g_major m) = true /\ no_leading_zero (g_minor m) = true
  /\ no_leading_zero (g_patch m) = true.

(** [s] has no character [c]. *)
Definition lacks (c : ascii) (s : string) : bool :=
  all_chars (fun x => negb (Ascii.eqb x c)) s.

(** What [/^(@[^/]+\/|[^@][^/]+-)/] captures in [dep]: a scope with its slash;
    or, for a name that does not start with [@], the longest prefix that ends
    with a hyphen, has a character and then at least one more before the
    hyphen, and holds no slash. *)
Inductive family_shape (dep : string) : string -> Prop :=
  | family_scoped (scope rest : string) :
      scope <> "" -> lacks "/" scope = true ->
      dep = String "@" (scope ++ String "/" rest) ->
      family_shape dep (String "@" (scope ++ "/"))
  | family_hyphenated (c : ascii) (body rest : string) :
      c <> "@"%char -> body <> "" -> lacks "/" body = true ->
      lacks "-" (span_not_slash rest) = true ->
      dep = String c (body ++ String "-" rest) ->
      family_shape dep (String c (body ++ "-")).

(** ** More sample inputs *)

Module Demo.

(** A specifier with a prerelease, what the matcher makes of it, hints of a
    package without constraint in two modes, and a stream of draws. *)
Definition specifier : string := "^1.2.3-rc.1".
Definition groups : RegExpMatch := mkMatch (Some "^") "1" "2" "3" (Some "-rc.1").
Definition realistic : Hints.t :=
  Hints.mk None (Some "left-pad") (Some []) (Some "realistic").
Definition simple : Hints.t :=
  Hints.mk None (Some "left-pad") (Some []) (Some "simple").
Definition thirds : nat -> Q := always (1 # 3).
Definition constrained : Hints.t :=
  Hints.mk (Some true) (Some "@angular/core") (Some [("@angular", "^14.0.0")])
    (Some "realistic").
Definition constraint_groups : RegExpMatch := mkMatch (Some "^") "14" "0" "0" None.

End Demo.


(** ** A weakest precondition for the selector and the strategist *)

(** [Q] holds of the result and the session when [m] returns from [s]. *)
Definition wp {A : Type} (m : M A) (Q : A -> session -> Prop) (s : session) : Prop :=
  match m s with
  | Ok a s' => Q a s'
  | Throw _ => True
  end.

(** A computation that does nothing but draw. *)
Definition draws_only {A : Type} (m : M A) : Prop :=
  forall s, exists a j,
    m s = Ok a (mkSession (store s) (draws s) j (scrambledDeps s) (issues s)).

(** How many names [scrambledDeps] lists. *)
Definition total (sd : ScrambledDeps) : nat :=
  (length (scrambled sd DEPENDENCIES) + length (scrambled sd DEV_DEPENDENCIES)
   + length (scrambled sd PEER_DEPENDENCIES)
   + length (scrambled sd OPTIONAL_DEPENDENCIES))%nat.

(** The specifier of [k] in a category that may be absent. *)
Definition version_of (st : gmap loc StringRecord) (o : option loc) (k : string)
    : option string :=
  match o with
  | Some l => match st !! l with Some r => get_prop r k | None => None end
  | None => None
  end.

Definition keys_of (st : gmap loc StringRecord) (o : option loc)
    : option (list string) :=
  match o with
  | Some l => match st !! l with Some r => Some (Object_keys r) | None => None end
  | None => None
  end.

(** [k] names a dependency of category [t] of the manifest [pkg]. *)
Definition original_key (st0 : gmap loc StringRecord) (pkg : PackageJson)
    (t : DependencyType) (k : string) : Prop :=
  match keys_of st0 (category pkg t) with
  | Some keys => In k keys
  | None => False
  end.

(** What holds all along one run of [scrambleDependencies] on the manifest
    [pkg] with the copy [copy], started on the store [st0]: the objects of
    [st0] are as they were; each category of the copy has the names of that
    category of [pkg], in their order; there are as many issue lines as
    recorded names; a recorded name is a name of its category; and an entry of
    the copy that differs from the entry of [pkg] is recorded. *)
Record scramble_invariant (st0 : gmap loc StringRecord) (pkg copy : PackageJson)
    (st : gmap loc StringRecord) (sd : ScrambledDeps) (iss : list string)
    : Prop := mkInvariant {
  inv_intact : forall l, is_Some (st0 !! l) -> st !! l = st0 !! l;
  inv_keys : forall t, keys_of st (category copy t) = keys_of st0 (category pkg t);
  inv_count : length iss = total sd;
  inv_listed : forall t k, In k (scrambled sd t) -> original_key st0 pkg t k;
  inv_changed : forall t k,
    version_of st (category copy t) k <> version_of st0 (category pkg t) k ->
    In k (scrambled sd t)
}.

Definition holds (st0 : gmap loc StringRecord) (pkg copy : PackageJson)
    (s : session) : Prop :=
  scramble_invariant st0 pkg copy (store s) (scrambledDeps s) (issues s).

(** How many names one pass over category [t] selects at most:
    [ceil(E * P / 100)], taken exactly, for a category of [E] names, none for
    an absent one. *)
Definition selection_bound (st0 : gmap loc StringRecord) (pkg : PackageJson)
    (P : Q) (t : DependencyType) : nat :=
  match keys_of st0 (category pkg t) with
  | Some keys => Z.to_nat (Qceiling (inject_Z (Z.of_nat (length keys)) * P / 100))
  | None => 0%nat
  end.

(** Lines 237-243 over the chosen keys in turn: the specifier each key has
    in the category and the one the mutator returns for it. *)
Fixpoint mutations (deps : StringRecord) (aggression : Q)
    (hints : string -> Hints.t) (depsToScramble : list string)
    : Rand (list (string * option string * string)) :=
  match depsToScramble with
  | [] => Rand.ret []
  | dep :: rest =>
      let originalVersion := get_prop deps dep in
      Rand.bind (scrambleVersion (or_empty originalVersion) aggression (hints dep))
        (fun newVersion =>
           Rand.bind (mutations deps aggression hints rest) (fun more =>
             Rand.ret ((dep, originalVersion, newVersion) :: more)))
  end.

(** At most [n t] names are recorded under each category [t]. *)
Definition recorded_within (n : DependencyType -> nat) (s : session) : Prop :=
  forall t, (length (scrambled (scrambledDeps s) t) <= n t)%nat.

Definition one_more (n : DependencyType -> nat) (depType : DependencyType) (k : nat)
    : DependencyType -> nat :=
  fun t => if decide (t = depType) then (n t + k)%nat else n t.

(** ** The file layer: [loadPackageJson], [savePackageJson], [createBackup],
    [scramblePackageJson] and [restoreFromBackup] *)

(** What [JSON.parse] makes of the text of a manifest: the categories are
    plain records. Other fields of a manifest are read by no function of the
    repository and are left out. *)
Record Manifest : Type := mkManifest {
  m_name : string;
  m_version : string;
  m_dependencies : option StringRecord;
  m_devDependencies : option StringRecord;
  m_peerDependencies : option StringRecord;
  m_optionalDependencies : option StringRecord
}.

(** The files, keyed by the path string that is passed to [fs]; the reading
    of [Date.now()]; and the memory of the process: the object store with the
    random source. *)
Record world : Type := mkWorld {
  files : gmap string string;
  clock : Z;
  mem : session
}.

(** How an [async] function ends. A rejection carries [String(error)]. *)
Inductive promise (A : Type) : Type :=
  | Resolved (a : A) (w : world)
  | Rejected (error : string) (w : world).
Arguments Resolved {A} a w.
Arguments Rejected {A} error w.

Definition world_of {A : Type} (p : promise A) : world :=
  match p with
  | Resolved _ w => w
  | Rejected _ w => w
  end.

Record ScrambleResult : Type := mkScrambleResult {
  r_original : PackageJson;
  r_modified : PackageJson;
  r_scrambledDeps : ScrambledDeps;
  r_backupPath : string;
  r_issues : list string
}.

(** [mergedOptions.createBackup] as a condition, and
    [targetPath || './package.json']. *)
Definition backup_requested (options : RouletteOptions) : bool :=
  match createBackup options with
  | Some true => true
  | _ => false
  end.

Definition target_or_default (path : option string) : string :=
  string_or path "./package.json".

Module Files.

Definition IO (A : Type) : Type := world -> promise A.

Definition ret {A : Type} (a : A) : IO A := fun w => Resolved a w.

(** [await]: a rejection ends the function. *)
Definition bind {A B : Type} (m : IO A) (k : A -> IO B) : IO B :=
  fun w => match m w with
           | Resolved a w' => k a w'
           | Rejected e w' => Rejected e w'
           end.

Definition reject {A : Type} (error : string) : IO A := fun w => Rejected error w.

(** [try { body } catch (error) { throw new Error(`${prefix}${String(error)}`) }]:
    the string of an [Error] is its message after ["Error: "]. *)
Definition rethrow {A : Type} (prefix : string) (body : IO A) : IO A :=
  fun w => match body w with
           | Resolved a w' => Resolved a w'
           | Rejected e w' => Rejected ("Error: " ++ prefix ++ e) w'
           end.

(** Synchronous code on the memory of the process; what it throws rejects
    the promise. *)
Definition lift {A : Type} (m : M A) : IO A :=
  fun w => match m (mem w) with
           | Ok a s' => Resolved a (mkWorld (files w) (clock w) s')
           | Throw e => Rejected e w
           end.

Definition Date_now : IO Z := fun w => Resolved (clock w) w.

(** The objects [JSON.parse] builds for a manifest, and the records
    [JSON.stringify] reads from one. *)
Definition build_category (o : option StringRecord) : M (option loc) :=
  match o with
  | Some entries => Eff.bind (alloc entries) (fun l => Eff.ret (Some l))
  | None => Eff.ret None
  end.

Definition build (m : Manifest) : M PackageJson :=
  Eff.bind (build_category (m_dependencies m)) (fun d =>
  Eff.bind (build_category (m_devDependencies m)) (fun v =>
  Eff.bind (build_category (m_peerDependencies m)) (fun p =>
  Eff.bind (build_category (m_optionalDependencies m)) (fun o =>
  Eff.ret (mkPackageJson (m_name m) (m_version m) d v p o))))).

Definition read_category (o : option loc) : M (option StringRecord) :=
  match o with
  | Some l => Eff.bind (deref l) (fun entries => Eff.ret (Some entries))
  | None => Eff.ret None
  end.

Definition read_back (pkg : PackageJson) : M Manifest :=
  Eff.bind (read_category (dependencies pkg)) (fun d =>
  Eff.bind (read_category (devDependencies pkg)) (fun v =>
  Eff.bind (read_category (peerDependencies pkg)) (fun p =>
  Eff.bind (read_category (optionalDependencies pkg)) (fun o =>
  Eff.ret (mkManifest (name pkg) (version pkg) d v p o))))).

Section Host.

(** Taken from outside the repository: the engine's sort and
    [semver.coerce] as before; [path.resolve(process.cwd(), p)];
    [JSON.parse] on the text of a manifest, which gives the manifest or the
    string of the error it throws; [JSON.stringify(data, null, 2)]; which
    paths [fs.writeFile] can write; and the strings of the errors of
    [fs.readFile] and [fs.writeFile]. A file [fs.readFile] cannot read is
    absent from [files]. *)
Variable host_sort : list string -> sort_tree.
Variable coerce : string -> option SemVer.
Variable path_resolve : string -> string.
Variable JSON_parse : string -> Manifest + string.
Variable JSON_stringify : Manifest -> string.
Variable writable : string -> bool.
Variable readFile_error : string -> string.
Variable writeFile_error : string -> string.

Definition fs_readFile (path : string) : IO string :=
  fun w => match files w !! path with
           | Some content => Resolved content w
           | None => Rejected (readFile_error path) w
           end.

Definition fs_writeFile (path content : string) : IO unit :=
  fun w => if writable path
           then Resolved tt (mkWorld (<[path := content]> (files w)) (clock w) (mem w))
           else Rejected (writeFile_error path) w.

(** [loadPackageJson], lines 24-31. *)
Definition loadPackageJson (filePath : string) : IO PackageJson :=
  rethrow ("Failed to load package.json from " ++ filePath ++ ": ")
    (bind (fs_readFile filePath) (fun content =>
     match JSON_parse content with
     | inl m => lift (build m)
     | inr error => reject error
     end)).

(** [savePackageJson], lines 36-42. *)
Definition savePackageJson (filePath : string) (data : PackageJson) : IO unit :=
  rethrow ("Failed to save package.json to " ++ filePath ++ ": ")
    (bind (lift (read_back data)) (fun m =>
     fs_writeFile filePath (JSON_stringify m))).

(** [createBackup], lines 47-56. *)
Definition createBackup (filePath : string) : IO string :=
  rethrow "Failed to create backup: "
    (bind Date_now (fun now =>
     let backupPath := filePath ++ ".backup." ++ ToString (Fin now) in
     bind (fs_readFile filePath) (fun content =>
     bind (fs_writeFile backupPath content) (fun _ =>
     ret backupPath)))).

(** [scramblePackageJson], lines 467-494. *)
Definition scramblePackageJson (options : RouletteOptions) : IO ScrambleResult :=
  let mergedOptions := spread_defaults options in
  let targetPath := path_resolve (target_or_default (targetPath mergedOptions)) in
  bind (loadPackageJson targetPath) (fun originalPkg =>
  bind (if backup_requested mergedOptions
        then bind (createBackup targetPath) (fun p => ret (Some p))
        else ret None) (fun backupPath =>
  bind (lift (scrambleDependencies host_sort coerce originalPkg mergedOptions))
    (fun r =>
  bind (savePackageJson targetPath (modified r)) (fun _ =>
  ret (mkScrambleResult originalPkg (modified r) (result_scrambledDeps r)
         (string_or backupPath "") (result_issues r)))))).

(** [restoreFromBackup], lines 499-509. *)
Definition restoreFromBackup (backupPath : string) (targetPath : option string)
    : IO unit :=
  let target := target_or_default targetPath in
  let resolvedTarget := path_resolve target in
  rethrow "Failed to restore from backup: "
    (bind (fs_readFile backupPath) (fun backupContent =>
     fs_writeFile resolvedTarget backupContent)).

End Host.

End Files.

(** The backup that [createBackup] writes for [filePath] in the world [w]. *)
Definition backup_of (filePath : string) (w : world) : string :=
  filePath ++ ".backup." ++ ToString (Fin (clock w)).

(** The file [scramblePackageJson] works on. *)
Definition target_file (path_resolve : string -> string) (options : RouletteOptions)
    : string :=
  path_resolve (target_or_default (targetPath (spread_defaults options))).

(** Stand-ins for the host of the file layer, for running it: one manifest
    on disk, a parser that knows its text, a printer, and a working directory
    [/app]. *)
Module Disk.

Definition text : string := "demo manifest".

Definition manifest : Manifest :=
  mkManifest "demo" "1.0.0"
    (Some [("react", "^17.0.2"); ("webpack", "^4.0.0")])
    (Some [("jest", "latest")])
    (Some [("react", "^17.0.0")])
    None.

Definition parse (content : string) : Manifest + string :=
  if String.eqb content text then inl manifest
  else inr "SyntaxError: Unexpected token".

Definition print_record (o : option StringRecord) : string :=
  match o with
  | Some entries =>
      fold_right (fun e acc => fst e ++ "=" ++ snd e ++ ";" ++ acc) "" entries
  | None => "-"
  end.

Definition stringify (m : Manifest) : string :=
  m_name m ++ "@" ++ m_version m ++ "|" ++ print_record (m_dependencies m)
    ++ "|" ++ print_record (m_devDependencies m)
    ++ "|" ++ print_record (m_peerDependencies m)
    ++ "|" ++ print_record (m_optionalDependencies m).

Definition resolve (p : string) : string :=
  if startsWith p "/" then p else "/app/" ++ p.

Definition writable (p : string) : bool := startsWith p "/app/".

Definition readFile_error (p : string) : string :=
  "Error: ENOENT: no such file or directory, open '" ++ p ++ "'".

Definition writeFile_error (p : string) : string :=
  "Error: EACCES: permission denied, open '" ++ p ++ "'".

Definition world : world :=
  mkWorld {[ "/app/package.json" := text ]} 1700000000000
    (Sample.start ∅ (always (1 # 3))).

Definition options : RouletteOptions :=
  mkOptions (Some "package.json") (Some true) (Some [DEPENDENCIES]) (Some 50%Q)
    (Some 5%Q) None None (Some "simple").

Definition scramblePackageJson : RouletteOptions -> Files.IO ScrambleResult :=
  Files.scramblePackageJson Sample.binary_insertion_sort Sample.coerce resolve
    parse stringify writable readFile_error writeFile_error.

Definition restoreFromBackup : string -> option string -> Files.IO unit :=
  Files.restoreFromBackup resolve writable readFile_error writeFile_error.

End Disk.

(** From [s] to [s'] nothing happened but draws. *)
Definition only_drew (s s' : session) : Prop :=
  store s' = store s /\ draws s' = draws s
  /\ scrambledDeps s' = scrambledDeps s /\ issues s' = issues s.
(** * Properties *)

(** ** The matcher and the grammar *)

Section RegexFacts.

Lemma span_digits_spec s d t :
  span_digits s = (d, t) -> s = d ++ t /\ all_chars is_digit d = true.
Proof.
  revert d t. induction s as [|c r IH]; simpl; intros d t H.
  - inversion H; subst. auto.
  - destruct (is_digit c) eqn:Hc.
    + destruct (span_digits r) as [d' t'] eqn:Hr. inversion H; subst.
      destruct (IH _ _ eq_refl) as [-> Hd]. simpl. rewrite Hc, Hd. auto.
    + inversion H; subst. auto.
Qed.

Lemma span_digits_app d t :
  all_chars is_digit d = true -> starts_with_digit t = false ->
  span_digits (d ++ t) = (d, t).
Proof.
  intros Hd Ht. induction d as [|c r IH]; simpl in *.
  - destruct t as [|c t']; simpl in *; [reflexivity|]. rewrite Ht. reflexivity.
  - apply andb_true_iff in Hd as [Hc Hr]. rewrite Hc, (IH Hr). reflexivity.
Qed.

Lemma take_modifier_spec s mo r :
  take_modifier s = (mo, r) -> s = opt_string mo ++ r /\ modifier_ok mo.
Proof.
  unfold take_modifier, modifier_ok, range_modifiers. intros H.
  repeat match type of H with
  | context [match ?x with _ => _ end] => destruct x; simpl in H
  end; inversion H; subst; simpl; auto 10.
Qed.

Lemma take_modifier_digit c r :
  is_digit c = true -> take_modifier (String c r) = (None, String c r).
Proof.
  destruct c as [[] [] [] [] [] [] [] []]; try discriminate; reflexivity.
Qed.

Lemma take_modifier_app mo d :
  modifier_ok mo -> starts_with_digit d = true ->
  take_modifier (opt_string mo ++ d) = (mo, d).
Proof.
  intros Hm Hd. destruct d as [|c r]; [discriminate|]. simpl in Hd.
  destruct mo as [m|]; simpl.
  - unfold modifier_ok, range_modifiers in Hm. simpl in Hm.
    destruct c as [[] [] [] [] [] [] [] []]; try discriminate;
    repeat (destruct Hm as [<-|Hm]; [reflexivity|]); contradiction.
  - apply take_modifier_digit, Hd.
Qed.

Lemma take_prerelease_spec s p :
  take_prerelease s = Some p -> s = opt_string p /\ prerelease_ok p.
Proof.
  unfold take_prerelease. intros H.
  destruct s as [|c0 [|c r]].
  - inversion H; subst; simpl; auto.
  - destruct c0 as [[] [] [] [] [] [] [] []]; discriminate.
  - destruct (Ascii.eqb c0 "-") eqn:E.
    + apply Ascii.eqb_eq in E. subst c0.
      destruct (all_chars is_pre_char (String c r)) eqn:Ha; [|discriminate].
      inversion H; subst. simpl. split; [reflexivity|]. eauto.
    + destruct c0 as [[] [] [] [] [] [] [] []]; try discriminate.
Qed.

Lemma take_prerelease_ok p :
  prerelease_ok p -> take_prerelease (opt_string p) = Some p.
Proof.
  destruct p as [s|]; simpl; [|reflexivity].
  intros (c & r & -> & Ha). unfold take_prerelease. cbv beta iota.
  cbn [all_chars]. rewrite Ha. reflexivity.
Qed.

Lemma take_dot_spec s r : take_dot s = Some r -> s = String "." r.
Proof.
  destruct s as [|c t]; [discriminate|]. unfold take_dot.
  destruct (Ascii.eqb c ".") eqn:E.
  - apply Ascii.eqb_eq in E. subst. intros H; inversion H; reflexivity.
  - destruct c as [[] [] [] [] [] [] [] []]; try discriminate.
Qed.

Lemma take_dot_app r : take_dot ("." ++ r) = Some r.
Proof. reflexivity. Qed.

Lemma digits1_all d : digits1 d = true -> all_chars is_digit d = true.
Proof. destruct d; [discriminate|auto]. Qed.

Lemma digits1_starts d t : digits1 d = true -> starts_with_digit (d ++ t) = true.
Proof.
  destruct d as [|c r]; [discriminate|]. simpl. intros H.
  apply andb_true_iff in H as [H _]. exact H.
Qed.

Lemma append_cons c (a b : string) : String c a ++ b = String c (a ++ b).
Proof. reflexivity. Qed.

Lemma append_nil_r (a : string) : a ++ "" = a.
Proof. induction a as [|x a IH]; [reflexivity|]. rewrite append_cons, IH. reflexivity. Qed.

Lemma prerelease_not_digit p : prerelease_ok p -> starts_with_digit (opt_string p) = false.
Proof.
  destruct p as [s|]; simpl; [|reflexivity]. intros (c & r & -> & _). reflexivity.
Qed.

(** The matcher accepts exactly the strings of the grammar, and its groups are
    the parts the string was assembled from. *)
Lemma exec_sound s m :
  VERSION_RANGE_REGEX_exec s = Some m -> well_formed m /\ s = assemble m.
Proof.
  unfold VERSION_RANGE_REGEX_exec. intros H.
  destruct (take_modifier s) as [mo s1] eqn:H1.
  destruct (span_digits s1) as [ma s2] eqn:H2.
  destruct (digits1 ma) eqn:Hma; simpl in H; [|discriminate].
  destruct (take_dot s2) as [s3|] eqn:H3; [|discriminate].
  destruct (span_digits s3) as [mi s4] eqn:H4.
  destruct (digits1 mi) eqn:Hmi; simpl in H; [|discriminate].
  destruct (take_dot s4) as [s5|] eqn:H5; [|discriminate].
  destruct (span_digits s5) as [pa s6] eqn:H6.
  destruct (digits1 pa) eqn:Hpa; simpl in H; [|discriminate].
  destruct (take_prerelease s6) as [pre|] eqn:H7; [|discriminate].
  inversion H; subst m; clear H.
  apply take_modifier_spec in H1 as [-> Hmo].
  apply span_digits_spec in H2 as [-> _].
  apply take_dot_spec in H3 as ->.
  apply span_digits_spec in H4 as [-> _].
  apply take_dot_spec in H5 as ->.
  apply span_digits_spec in H6 as [-> _].
  apply take_prerelease_spec in H7 as [-> Hpre].
  split; [repeat split; assumption|]. unfold assemble. simpl. reflexivity.
Qed.

Lemma exec_complete m :
  well_formed m -> VERSION_RANGE_REGEX_exec (assemble m) = Some m.
Proof.
  destruct m as [mo ma mi pa pre]. unfold well_formed, assemble. simpl.
  intros (Hmo & Hma & Hmi & Hpa & Hpre).
  unfold VERSION_RANGE_REGEX_exec.
  rewrite take_modifier_app; [| assumption | apply digits1_starts; assumption ].
  rewrite span_digits_app; [| apply digits1_all; assumption | reflexivity ].
  rewrite Hma. cbn [negb]. rewrite take_dot_app.
  rewrite span_digits_app; [| apply digits1_all; assumption | reflexivity ].
  rewrite Hmi. cbn [negb]. rewrite take_dot_app.
  rewrite span_digits_app;
    [| apply digits1_all; assumption | apply prerelease_not_digit; assumption ].
  rewrite Hpa. cbn [negb]. rewrite take_prerelease_ok by assumption. reflexivity.
Qed.

Lemma grammar_iff_exec s :
  version_grammar s <-> exists m, VERSION_RANGE_REGEX_exec s = Some m.
Proof.
  split.
  - intros (m & Hwf & ->). exists m. apply exec_complete, Hwf.
  - intros (m & H). exists m. apply exec_sound in H. tauto.
Qed.

Lemma opaque_iff_exec s :
  ~ version_grammar s <-> VERSION_RANGE_REGEX_exec s = None.
Proof.
  rewrite grammar_iff_exec. destruct (VERSION_RANGE_REGEX_exec s) as [m|].
  - split; [intros H; exfalso; eauto | discriminate].
  - split; [reflexivity | intros _ [m H]; discriminate].
Qed.

End RegexFacts.

(** C1: a string outside the version grammar is returned as it is, and
    nothing is drawn, at every aggression level and with every hint. *)
Theorem opaque_specifier_unchanged
    (s : string) (aggression : Q) (hints : Hints.t) (d : nat -> Q) (i : nat) :
  ~ version_grammar s ->
  scrambleVersion s aggression hints d i = (s, i).
Proof.
  intros H. apply opaque_iff_exec in H. unfold scrambleVersion. rewrite H.
  reflexivity.
Qed.

(** ** Numbers *)

Section NumberFacts.

Lemma round_double_small z : Z.abs z < 2 ^ 53 -> round_double z = Fin z.
Proof.
  intros H. unfold round_double.
  destruct (Z.ltb_spec (Z.abs z) (2 ^ 53)); [reflexivity | lia].
Qed.

(** Rounding never takes a value of [2^53] or more below [2^53]. *)
Lemma round_double_large z v :
  2 ^ 53 <= z -> round_double z = Fin v -> 2 ^ 53 <= v.
Proof.
  intros Hz. unfold round_double.
  rewrite (Z.abs_eq z) by lia.
  destruct (Z.ltb_spec z (2 ^ 53)); [lia|].
  set (e := Z.log2 z - 52).
  assert (Hlog : 53 <= Z.log2 z).
  { change 53 with (Z.log2 (2 ^ 53)). apply Z.log2_le_mono. lia. }
  assert (He : 1 <= e) by (unfold e; lia).
  assert (Hpow : 0 < 2 ^ e) by (apply Z.pow_pos_nonneg; lia).
  assert (Hq : 2 ^ 52 <= z / 2 ^ e).
  { apply Z.div_le_lower_bound; [lia|].
    rewrite Z.mul_comm, <- Z.pow_add_r by lia.
    replace (52 + e) with (Z.log2 z) by (unfold e; lia).
    apply Z.log2_spec. lia. }
  set (q := z / 2 ^ e) in *.
  match goal with
  | |- context [if ?b then q + 1 else q] =>
      set (q' := if b then q + 1 else q);
      assert (Hq' : q <= q') by (unfold q'; destruct b; lia)
  end.
  destruct (2 ^ 1024 <=? q' * 2 ^ e); [destruct (0 <? z); discriminate|].
  intros [= <-]. rewrite Z.sgn_pos by lia.
  assert (2 ^ 52 * 2 ^ 1 <= q' * 2 ^ e).
  { apply Z.mul_le_mono_nonneg; try lia.
    apply Z.pow_le_mono_r; lia. }
  change (2 ^ 52 * 2 ^ 1) with (2 ^ 53) in *. lia.
Qed.

Lemma roundtrips_below v c :
  0 <= c -> c < 2 ^ 53 -> roundtrips v c = (c =? v).
Proof.
  intros H0 H. unfold roundtrips. rewrite round_double_small; [reflexivity|lia].
Qed.

Lemma roundtrips_above v c :
  0 <= v < 2 ^ 53 -> v < c -> roundtrips v c = false.
Proof.
  intros Hv Hc. unfold roundtrips.
  destruct (Z.lt_ge_cases c (2 ^ 53)) as [Hs|Hl].
  - rewrite round_double_small by lia. apply Z.eqb_neq. lia.
  - destruct (round_double c) as [z| | |] eqn:E; try reflexivity.
    apply round_double_large in E; [|assumption]. apply Z.eqb_neq. lia.
Qed.

Lemma shortest_from_small v d k fuel :
  0 < v < 2 ^ 53 -> shortest_from v d k fuel = v.
Proof.
  intros Hv. revert k. induction fuel as [|fuel IH]; intros k; [reflexivity|].
  cbn [shortest_from].
  set (p := 10 ^ Z.of_nat (d - k)).
  assert (Hp : 0 < p) by (apply Z.pow_pos_nonneg; lia).
  assert (Hlo : 0 <= v / p * p <= v).
  { split; [apply Z.mul_nonneg_nonneg; [apply Z.div_pos|]; lia|].
    rewrite Z.mul_comm. apply Z.mul_div_le. lia. }
  assert (Hhi : v < v / p * p + p).
  { pose proof (Z.mod_pos_bound v p Hp). pose proof (Z.div_mod v p). lia. }
  rewrite (roundtrips_above v (v / p * p + p)) by lia.
  rewrite roundtrips_below by lia.
  destruct (Z.eqb_spec (v / p * p) v) as [E|E]; [exact E | apply IH].
Qed.

Lemma shortest_small v : 0 < v < 2 ^ 53 -> shortest v = v.
Proof. intros H. apply shortest_from_small, H. Qed.

Lemma string_of_uint_digits d :
  all_chars is_digit (NilEmpty.string_of_uint d) = true.
Proof. induction d; simpl; auto. Qed.

Lemma to_uint_nonnil n : N.to_uint n <> Decimal.Nil.
Proof.
  destruct n as [|p]; [discriminate|]. apply Unsigned.to_uint_nonnil.
Qed.

Lemma decimal_digits n : digits1 (decimal n) = true.
Proof.
  unfold decimal, NilZero.string_of_uint.
  pose proof (to_uint_nonnil n) as Hn.
  pose proof (string_of_uint_digits (N.to_uint n)) as Hd.
  destruct (N.to_uint n); [congruence | exact Hd ..].
Qed.

Lemma Number_decimal n : Number (decimal n) = round_double (Z.of_N n).
Proof.
  unfold Number, decimal. rewrite NilZero.usu by apply to_uint_nonnil.
  rewrite DecimalN.Unsigned.of_to. reflexivity.
Qed.

Lemma ToString_small n :
  0 <= n < 2 ^ 53 -> ToString (Fin n) = decimal (Z.to_N n).
Proof.
  intros H. destruct n as [|p|p]; [reflexivity| |lia].
  cbn [ToString]. unfold to_string_pos. rewrite shortest_small by lia.
  destruct (Z.ltb_spec (Z.pos p) (10 ^ 21)) as [_|Hge]; [reflexivity|].
  assert (2 ^ 53 < 10 ^ 21) by reflexivity. lia.
Qed.

Lemma ToString_digits n : 0 <= n < 2 ^ 53 -> digits1 (ToString (Fin n)) = true.
Proof. intros H. rewrite ToString_small by assumption. apply decimal_digits. Qed.

(** Printing a small number and reading it back gives the number. *)
Lemma Number_ToString n :
  0 <= n < 2 ^ 53 -> Number (ToString (Fin n)) = Fin n.
Proof.
  intros H. rewrite ToString_small, Number_decimal by assumption.
  rewrite Z2N.id by lia. apply round_double_small. lia.
Qed.

End NumberFacts.

(** What the model prints, against what JavaScript prints. *)
Example ToString_1e21 : ToString (Number "1000000000000000000000") = "1e+21".
Proof. vm_compute. reflexivity. Qed.

Example ToString_2p64 :
  ToString (Number "18446744073709551616") = "18446744073709552000".
Proof. vm_compute. reflexivity. Qed.

Example ToString_2p70 : ToString (round_double (2 ^ 70)) = "1.1805916207174113e+21".
Proof. vm_compute. reflexivity. Qed.

Example ToString_1e23 : ToString (Number "100000000000000000000000") = "1e+23".
Proof. vm_compute. reflexivity. Qed.

Example ToString_2p53_1 : ToString (Number "9007199254740993") = "9007199254740992".
Proof. vm_compute. reflexivity. Qed.

Example ToString_leading_zeros : ToString (Number "007") = "7".
Proof. vm_compute. reflexivity. Qed.

(** ** Rounding to doubles *)

Section Doubles.

Lemma round_half_even_le num den M :
  0 < den -> num <= M * den -> round_half_even num den <= M.
Proof.
  intros Hd H. unfold round_half_even.
  pose proof (Z.div_mod num den ltac:(lia)) as Hdm.
  pose proof (Z.mod_pos_bound num den Hd) as Hr.
  set (q := num / den) in *. set (r := num mod den) in *.
  assert (Hq : q <= M) by nia.
  destruct (Z.ltb_spec (2 * r) den); [exact Hq|].
  assert (q < M) by nia.
  destruct (Z.ltb_spec den (2 * r)); [lia|].
  destruct (Z.even q); lia.
Qed.

Lemma round_half_even_ge num den M :
  0 < den -> M * den <= num -> M <= round_half_even num den.
Proof.
  intros Hd H. unfold round_half_even.
  pose proof (Z.div_mod num den ltac:(lia)) as Hdm.
  pose proof (Z.mod_pos_bound num den Hd) as Hr.
  set (q := num / den) in *. set (r := num mod den) in *.
  assert (Hq : M <= q) by nia.
  destruct (Z.ltb_spec (2 * r) den); [exact Hq|].
  destruct (Z.ltb_spec den (2 * r)); [lia|].
  destruct (Z.even q); lia.
Qed.

(** The binade is not above the number. *)
Lemma binade_below a b :
  0 < a -> 0 < b -> at_least_pow2 a b (binade a b) = true.
Proof.
  intros Ha Hb. unfold binade.
  set (e := Z.log2 a - Z.log2 b).
  destruct (at_least_pow2 a b e) eqn:E; [exact E|].
  pose proof (Z.log2_spec a Ha) as [La _].
  pose proof (Z.log2_spec b Hb) as [_ Lb].
  pose proof (Z.log2_nonneg a) as Na. pose proof (Z.log2_nonneg b) as Nb.
  unfold at_least_pow2.
  destruct (Z.leb_spec 0 (e - 1)) as [H0|H0].
  - apply Z.leb_le.
    assert (Hp : 2 ^ Z.log2 a = 2 ^ (e - 1) * 2 ^ Z.succ (Z.log2 b)).
    { rewrite <- Z.pow_add_r by lia. f_equal. unfold e. lia. }
    assert (0 < 2 ^ (e - 1)) by (apply Z.pow_pos_nonneg; lia).
    nia.
  - apply Z.leb_le.
    assert (Hp : 2 ^ Z.succ (Z.log2 b) = 2 ^ Z.log2 a * 2 ^ (- (e - 1))).
    { rewrite <- Z.pow_add_r by lia. f_equal. unfold e. lia. }
    assert (0 < 2 ^ (- (e - 1))) by (apply Z.pow_pos_nonneg; lia).
    nia.
Qed.

Lemma Qmake_le_int N p n : N <= n * Z.pos p -> (Qmake N p <= inject_Z n)%Q.
Proof. intros H. unfold Qle. simpl. lia. Qed.

Lemma Qmake_ge_int N p n : n * Z.pos p <= N -> (inject_Z n <= Qmake N p)%Q.
Proof. intros H. unfold Qle. simpl. lia. Qed.

Lemma pow2_pos_id k : 0 <= k -> Z.pos (Z.to_pos (2 ^ k)) = 2 ^ k.
Proof.
  intros H. apply Z2Pos.id. apply Z.pow_pos_nonneg; lia.
Qed.

(** Rounding does not cross an integer that is a double. *)
Lemma binary64_pos_le_int a b n :
  0 < a -> 0 < b -> 0 <= n < 2 ^ 53 -> a <= n * b ->
  (binary64_pos a b <= inject_Z n)%Q.
Proof.
  intros Ha Hb Hn H. unfold binary64_pos.
  pose proof (binade_below a b Ha Hb) as He. unfold at_least_pow2 in He.
  set (e := binade a b) in *.
  destruct (Z.leb_spec 0 (Z.max (e - 52) (- 1074))) as [Hc|Hc].
  - assert (Hce : Z.max (e - 52) (- 1074) = e - 52) by lia. rewrite Hce in *.
    destruct (Z.leb_spec 0 e); [|lia]. apply Z.leb_le in He.
    rewrite <- Zle_Qle. etransitivity; [apply Z.le_min_l|].
    destruct (Z.eq_dec e 52) as [->|Hne].
    + change (2 ^ (52 - 52)) with 1. rewrite !Z.mul_1_r.
      apply round_half_even_le; assumption.
    + exfalso.
      assert (2 ^ 53 <= 2 ^ e) by (apply Z.pow_le_mono_r; lia).
      nia.
  - set (c := Z.max (e - 52) (- 1074)) in *.
    apply Qmake_le_int. rewrite pow2_pos_id by lia.
    apply round_half_even_le; [assumption|].
    assert (0 < 2 ^ (- c)) by (apply Z.pow_pos_nonneg; lia). nia.
Qed.

Lemma binary64_pos_ge_int a b n :
  0 < a -> 0 < b -> 0 <= n < 2 ^ 53 -> n * b <= a ->
  (inject_Z n <= binary64_pos a b)%Q.
Proof.
  intros Ha Hb Hn H. unfold binary64_pos.
  pose proof (binade_below a b Ha Hb) as He. unfold at_least_pow2 in He.
  set (e := binade a b) in *.
  destruct (Z.leb_spec 0 (Z.max (e - 52) (- 1074))) as [Hc|Hc].
  - assert (Hce : Z.max (e - 52) (- 1074) = e - 52) by lia. rewrite Hce in *.
    destruct (Z.leb_spec 0 e); [|lia]. apply Z.leb_le in He.
    rewrite <- Zle_Qle. apply Z.min_glb.
    + destruct (Z.eq_dec e 52) as [->|Hne].
      * change (2 ^ (52 - 52)) with 1. rewrite !Z.mul_1_r.
        apply round_half_even_ge; assumption.
      * assert (Hp : 2 ^ e = 2 ^ 52 * 2 ^ (e - 52)).
        { rewrite <- Z.pow_add_r by lia. f_equal. lia. }
        assert (Hq : 0 < 2 ^ (e - 52)) by (apply Z.pow_pos_nonneg; lia).
        assert (Hr : 2 ^ 52 <= round_half_even a (b * 2 ^ (e - 52))).
        { apply round_half_even_ge; nia. }
        assert (2 <= 2 ^ (e - 52)).
        { change 2 with (2 ^ 1) at 1. apply Z.pow_le_mono_r; lia. }
        assert (2 ^ 53 = 2 ^ 52 * 2) by reflexivity.
        nia.
    + assert (2 ^ 53 <= 2 ^ 1024) by (apply Z.pow_le_mono_r; lia). lia.
  - set (c := Z.max (e - 52) (- 1074)) in *.
    apply Qmake_ge_int. rewrite pow2_pos_id by lia.
    apply round_half_even_ge; [assumption|].
    assert (0 < 2 ^ (- c)) by (apply Z.pow_pos_nonneg; lia). nia.
Qed.

Lemma binary64_le_int q n :
  (0 <= q)%Q -> 0 <= n < 2 ^ 53 -> (q <= inject_Z n)%Q ->
  (binary64 q <= inject_Z n)%Q.
Proof.
  intros H0 Hn H. destruct q as [num den]. unfold binary64. simpl.
  unfold Qle in H0, H. simpl in H0, H. rewrite Z.mul_1_r in *.
  destruct num as [|a|a]; [|apply binary64_pos_le_int; lia | lia].
  rewrite <- (Zle_Qle 0). lia.
Qed.

Lemma binary64_ge_int q n :
  0 <= n < 2 ^ 53 -> (inject_Z n <= q)%Q -> (inject_Z n <= binary64 q)%Q.
Proof.
  intros Hn H. destruct q as [num den]. unfold binary64. simpl.
  unfold Qle in H. simpl in H. rewrite Z.mul_1_r in *.
  destruct num as [|a|a]; [|apply binary64_pos_ge_int; lia | lia].
  unfold Qle. simpl. lia.
Qed.

(** An integer below [2^53] is a double. *)
Lemma binary64_int q n :
  0 <= n < 2 ^ 53 -> (q == inject_Z n)%Q -> (binary64 q == inject_Z n)%Q.
Proof.
  intros Hn H. apply Qle_antisym.
  - apply binary64_le_int; [|assumption|rewrite H; apply Qle_refl].
    rewrite H. rewrite <- (Zle_Qle 0). lia.
  - apply binary64_ge_int; [assumption|rewrite H; apply Qle_refl].
Qed.

(** A number that is at least the least positive double is not rounded to
    zero. *)
Lemma binary64_positive q :
  (1 # Z.to_pos (2 ^ 1074) <= q)%Q -> (0 < binary64 q)%Q.
Proof.
  intros H. destruct q as [num den]. unfold binary64. cbn [Qnum Qden].
  unfold Qle in H. cbn [Qnum Qden] in H. rewrite pow2_pos_id in H by lia.
  destruct num as [|a|a]; [lia | | lia].
  unfold binary64_pos.
  pose proof (binade_below (Z.pos a) (Z.pos den) ltac:(lia) ltac:(lia)) as He.
  unfold at_least_pow2 in He.
  set (e := binade (Z.pos a) (Z.pos den)) in *.
  destruct (Z.leb_spec 0 (Z.max (e - 52) (- 1074))) as [Hc|Hc].
  - assert (Hce : Z.max (e - 52) (- 1074) = e - 52) by lia. rewrite Hce in *.
    destruct (Z.leb_spec 0 e); [|lia]. apply Z.leb_le in He.
    assert (Hp : 2 ^ e = 2 ^ 52 * 2 ^ (e - 52)).
    { rewrite <- Z.pow_add_r by lia. f_equal. lia. }
    assert (Hq : 0 < 2 ^ (e - 52)) by (apply Z.pow_pos_nonneg; lia).
    assert (Hr : 1 <= round_half_even (Z.pos a) (Z.pos den * 2 ^ (e - 52))).
    { apply round_half_even_ge; [nia|].
      assert (1 <= 2 ^ 52) by (change 1 with (2 ^ 0) at 1; apply Z.pow_le_mono_r; lia).
      nia. }
    change 0%Q with (inject_Z 0). rewrite <- Zlt_Qlt.
    apply Z.min_glb_lt; [nia | apply Z.pow_pos_nonneg; lia].
  - set (c := Z.max (e - 52) (- 1074)) in *.
    assert (Hr : 1 <= round_half_even (Z.pos a * 2 ^ (- c)) (Z.pos den)).
    { apply round_half_even_ge; [lia|]. rewrite Z.mul_1_l.
      destruct (Z.max_spec (e - 52) (- 1074)) as [[_ Hm]|[_ Hm]]; fold c in Hm.
      - rewrite Hm. change (- - 1074) with 1074. lia.
      - destruct (Z.leb_spec 0 e) as [He0|He0].
        + apply Z.leb_le in He.
          assert (0 < 2 ^ e) by (apply Z.pow_pos_nonneg; lia).
          assert (0 < 2 ^ (- c)) by (apply Z.pow_pos_nonneg; lia). nia.
        + apply Z.leb_le in He.
          assert (Hp : 2 ^ (- c) = 2 ^ (- e) * 2 ^ 52).
          { rewrite <- Z.pow_add_r by lia. f_equal. lia. }
          assert (1 <= 2 ^ 52) by (change 1 with (2 ^ 0) at 1; apply Z.pow_le_mono_r; lia).
          assert (0 < 2 ^ (- e)) by (apply Z.pow_pos_nonneg; lia). nia. }
    unfold Qlt. simpl. lia.
Qed.

End Doubles.

(** ** The number of names to choose *)

Section Count.

Lemma Qdiv_100_le q n : (q <= inject_Z (100 * n))%Q -> (q / 100 <= inject_Z n)%Q.
Proof.
  intros H. apply Qle_shift_div_r; [reflexivity|].
  rewrite inject_Z_mult, Qmult_comm in H. exact H.
Qed.

Lemma Qdiv_100_ge q n : (inject_Z (100 * n) <= q)%Q -> (inject_Z n <= q / 100)%Q.
Proof.
  intros H. apply Qle_shift_div_l; [reflexivity|].
  rewrite inject_Z_mult, Qmult_comm in H. exact H.
Qed.

Lemma Qceiling_le_int q n : (q <= inject_Z n)%Q -> Qceiling q <= n.
Proof.
  intros H. rewrite <- (Qceiling_Z n). apply Qceiling_resp_le, H.
Qed.

Lemma Qceiling_ge_int q n : (inject_Z n <= q)%Q -> n <= Qceiling q.
Proof.
  intros H. rewrite <- (Qceiling_Z n). apply Qceiling_resp_le, H.
Qed.

Lemma product_nonneg E P : (0 <= P)%Q -> (0 <= inject_Z (Z.of_nat E) * P)%Q.
Proof.
  intros H. apply Qmult_le_0_compat; [|exact H].
  change 0%Q with (inject_Z 0). rewrite <- Zle_Qle. lia.
Qed.

Lemma product_le E P k :
  (P <= inject_Z k)%Q ->
  (inject_Z (Z.of_nat E) * P <= inject_Z (k * Z.of_nat E))%Q.
Proof.
  intros H. rewrite inject_Z_mult, (Qmult_comm (inject_Z k)).
  rewrite (Qmult_comm (inject_Z (Z.of_nat E)) P),
    (Qmult_comm (inject_Z (Z.of_nat E)) (inject_Z k)).
  apply Qmult_le_compat_r; [exact H|].
  change 0%Q with (inject_Z 0). rewrite <- Zle_Qle. lia.
Qed.

(** The count, as the doubles give it, between two integers. *)
Lemma rounded_count_le t k :
  (0 <= t)%Q -> 0 <= k < 2 ^ 46 -> (t <= inject_Z (100 * k))%Q ->
  Qceiling (binary64 (binary64 t / 100)) <= k.
Proof.
  intros H0 Hk H.
  assert (Hx : (binary64 t <= inject_Z (100 * k))%Q).
  { apply binary64_le_int; [assumption | | assumption].
    assert (2 ^ 53 = 128 * 2 ^ 46) by reflexivity. lia. }
  assert (Hx0 : (0 <= binary64 t)%Q).
  { apply (binary64_ge_int t 0); [lia | exact H0]. }
  apply Qceiling_le_int, binary64_le_int.
  - apply Qle_shift_div_l; [reflexivity|]. rewrite Qmult_0_l. exact Hx0.
  - assert (2 ^ 46 < 2 ^ 53) by reflexivity. lia.
  - apply Qdiv_100_le, Hx.
Qed.

Lemma rounded_count_ge t k :
  0 <= k < 2 ^ 46 -> (inject_Z (100 * k) <= t)%Q ->
  k <= Qceiling (binary64 (binary64 t / 100)).
Proof.
  intros Hk H.
  assert (Hx : (inject_Z (100 * k) <= binary64 t)%Q).
  { apply binary64_ge_int; [|assumption].
    assert (2 ^ 53 = 128 * 2 ^ 46) by reflexivity. lia. }
  apply Qceiling_ge_int, binary64_ge_int.
  - assert (2 ^ 46 < 2 ^ 53) by reflexivity. lia.
  - apply Qdiv_100_ge, Hx.
Qed.

Lemma scramble_count_range E P :
  (0 <= P)%Q -> (P <= 100)%Q -> 0 <= scramble_count E P <= Z.of_nat E.
Proof.
  intros H0 H1. unfold scramble_count.
  pose proof (product_nonneg E P H0) as Ht.
  pose proof (product_le E P 100 H1) as Hu.
  destruct (Z.ltb_spec (Z.of_nat E) (2 ^ 32)) as [Hs|Hl].
  - assert (2 ^ 32 < 2 ^ 46) by reflexivity.
    split.
    + apply rounded_count_ge; [lia | exact Ht].
    + apply rounded_count_le; [exact Ht | lia | exact Hu].
  - split.
    + apply (Qceiling_ge_int _ 0).
      apply Qle_shift_div_l; [reflexivity|]. rewrite Qmult_0_l. exact Ht.
    + apply Qceiling_le_int, Qdiv_100_le, Hu.
Qed.

(** The doubles never give more than the exact [ceil(E * P / 100)]. *)
Lemma scramble_count_le_exact E P :
  (0 <= P)%Q -> (P <= 100)%Q ->
  scramble_count E P <= Qceiling (inject_Z (Z.of_nat E) * P / 100).
Proof.
  intros H0 H1. unfold scramble_count.
  destruct (Z.ltb_spec (Z.of_nat E) (2 ^ 32)) as [Hs|Hl]; [|lia].
  pose proof (product_nonneg E P H0) as Ht.
  pose proof (product_le E P 100 H1) as Hu.
  set (t := (inject_Z (Z.of_nat E) * P)%Q) in *.
  set (k := Qceiling (t / 100)).
  assert (Hk0 : 0 <= k).
  { apply (Qceiling_ge_int _ 0).
    apply Qle_shift_div_l; [reflexivity|]. rewrite Qmult_0_l. exact Ht. }
  assert (HkE : k <= Z.of_nat E)
    by (apply Qceiling_le_int, Qdiv_100_le, Hu).
  assert (2 ^ 32 < 2 ^ 46) by reflexivity.
  apply rounded_count_le; [exact Ht | lia |].
  rewrite inject_Z_mult, Qmult_comm.
  apply Qle_trans with (t / 100 * inject_Z 100)%Q.
  - rewrite Qmult_comm. change (inject_Z 100) with 100%Q.
    rewrite Qmult_div_r by discriminate. apply Qle_refl.
  - apply Qmult_le_compat_r; [apply Qle_ceiling | discriminate].
Qed.

(** At 100 percent the count is the number of names. *)
Lemma scramble_count_full E : scramble_count E 100 = Z.of_nat E.
Proof.
  pose proof (scramble_count_range E 100 ltac:(discriminate) ltac:(discriminate))
    as [_ Hle].
  apply Z.le_antisymm; [exact Hle|].
  unfold scramble_count.
  assert (Ht : (inject_Z (100 * Z.of_nat E) <= inject_Z (Z.of_nat E) * 100)%Q).
  { rewrite inject_Z_mult, Qmult_comm. apply Qle_refl. }
  destruct (Z.ltb_spec (Z.of_nat E) (2 ^ 32)) as [Hs|Hl].
  - assert (2 ^ 32 < 2 ^ 46) by reflexivity.
    apply rounded_count_ge; [lia | exact Ht].
  - apply Qceiling_ge_int, Qdiv_100_ge, Ht.
Qed.

Lemma Qceiling_pos (q : Q) : (0 < q)%Q -> 0 < Qceiling q.
Proof.
  intros H. destruct (Z_lt_le_dec 0 (Qceiling q)) as [|Hle]; [assumption|].
  exfalso. pose proof (Qle_ceiling q) as Hq.
  assert (Hz : (inject_Z (Qceiling q) <= 0)%Q).
  { change 0%Q with (inject_Z 0). rewrite <- Zle_Qle. exact Hle. }
  apply (Qlt_irrefl 0). eapply Qlt_le_trans; [exact H|].
  eapply Qle_trans; eassumption.
Qed.

(** From one percent on, a category that has a name has a positive count. *)
Lemma scramble_count_positive E P :
  (0 < E)%nat -> (1 <= P)%Q -> 0 < scramble_count E P.
Proof.
  intros HE HP. unfold scramble_count.
  assert (Ht : (inject_Z 1 <= inject_Z (Z.of_nat E) * P)%Q).
  { apply Qle_trans with (inject_Z (Z.of_nat E) * 1)%Q.
    - rewrite Qmult_1_r. rewrite <- Zle_Qle. lia.
    - rewrite !(Qmult_comm (inject_Z (Z.of_nat E))).
      apply Qmult_le_compat_r; [exact HP|].
      change 0%Q with (inject_Z 0). rewrite <- Zle_Qle. lia. }
  destruct (Z.ltb_spec (Z.of_nat E) (2 ^ 32)) as [Hs|Hl].
  - apply Qceiling_pos, binary64_positive.
    assert (Hx : (inject_Z 1 <= binary64 (inject_Z (Z.of_nat E) * P))%Q).
    { apply binary64_ge_int; [|exact Ht].
      split; [lia | reflexivity]. }
    apply Qle_trans with (1 / 100)%Q.
    + unfold Qle. cbn [Qnum Qden Qdiv Qmult Qinv]. rewrite pow2_pos_id by lia.
      assert (100 <= 2 ^ 1074).
      { apply Z.le_trans with (2 ^ 7); [discriminate|].
        apply Z.pow_le_mono_r; lia. }
      lia.
    + apply Qle_shift_div_l; [reflexivity|].
      rewrite Qmult_comm, Qmult_div_r by discriminate. exact Hx.
  - apply Qceiling_pos. apply Qlt_shift_div_l; [reflexivity|].
    rewrite Qmult_0_l. eapply Qlt_le_trans; [|exact Ht]. reflexivity.
Qed.

(** The two numbers at which rounding shows: three names at the double
    nearest to 100/3, where the product rounds to 100 and one name is
    chosen, not two; and the least positive double, where the quotient
    rounds to zero and no name is chosen. *)
Example scramble_count_rounds :
  scramble_count 3 (4691249611844267 # 140737488355328) = 1
  /\ Qceiling (3 * (4691249611844267 # 140737488355328) / 100) = 2
  /\ scramble_count 1 (1 # Z.to_pos (2 ^ 1074)) = 0.
Proof. vm_compute. repeat split; reflexivity. Qed.

End Count.

(** ** Reasoning about drawing computations *)

Section RandFacts.

Variable d : nat -> Q.

Lemma returns_ret {A : Type} (a : A) (P : A -> Prop) :
  P a -> always_returns d (Rand.ret a) P.
Proof. intros H i. exact H. Qed.

Lemma returns_bind {A B : Type} (m : Rand A) (k : A -> Rand B)
    (P : A -> Prop) (R : B -> Prop) :
  always_returns d m P ->
  (forall a, P a -> always_returns d (k a) R) ->
  always_returns d (Rand.bind m k) R.
Proof.
  intros Hm Hk i. unfold Rand.bind. specialize (Hm i).
  destruct (m d i) as [a j]. apply Hk, Hm.
Qed.

Lemma returns_weaken {A : Type} (m : Rand A) (P R : A -> Prop) :
  always_returns d m P -> (forall a, P a -> R a) -> always_returns d m R.
Proof. intros Hm H i. apply H, Hm. Qed.

Lemma returns_any {A : Type} (m : Rand A) : always_returns d m (fun _ => True).
Proof. intros i. exact I. Qed.

Hypothesis unit : unit_draws d.

Lemma returns_random :
  always_returns d Math_random (fun r => (0 <= r)%Q /\ (r < 1)%Q).
Proof. intros i. apply unit. Qed.

Lemma Qfloor_scaled r b :
  (0 <= r)%Q -> (r < 1)%Q -> 0 < b -> 0 <= Qfloor (r * inject_Z b) < b.
Proof.
  intros H0 H1 Hb.
  assert (Hb' : (0 < inject_Z b)%Q).
  { change 0%Q with (inject_Z 0). rewrite <- Zlt_Qlt. exact Hb. }
  split.
  - change 0 with (Qfloor 0). apply Qfloor_resp_le.
    apply Qmult_le_0_compat; [assumption | apply Qlt_le_weak, Hb'].
  - rewrite Zlt_Qlt. eapply Qle_lt_trans; [apply Qfloor_le|].
    rewrite <- (Qmult_1_l (inject_Z b)) at 2.
    apply Qmult_lt_compat_r; assumption.
Qed.

(** The shifted component stays a small natural number. *)
Lemma returns_shift n b :
  0 <= n -> 0 < b -> n + b < 2 ^ 53 ->
  always_returns d (shift_component (Fin n) b)
    (fun x => exists n', x = Fin n' /\ 0 <= n' <= n + b).
Proof.
  intros Hn Hb Hsafe. unfold shift_component.
  eapply returns_bind; [apply returns_random|]. intros r [Hr0 Hr1].
  eapply returns_bind; [apply returns_any|]. intros s _.
  apply returns_ret.
  pose proof (Qfloor_scaled r b Hr0 Hr1 Hb) as Hc.
  set (c := Qfloor (r * inject_Z b)) in *.
  destruct (Qltb (1 # 2) s); cbn [js_add js_sub js_neg].
  - rewrite round_double_small by lia. cbn [Math_max].
    eexists; split; [reflexivity | lia].
  - rewrite round_double_small by lia. cbn [Math_max].
    eexists; split; [reflexivity | lia].
Qed.

End RandFacts.

(** ** The mutator keeps small specifiers in the grammar *)

Section MutatorFacts.

Lemma modifier_of_match m :
  well_formed m -> modifier_string_ok (or_empty (g_modifier m)).
Proof.
  intros (H & _). destruct (g_modifier m) as [s|]; [right; exact H | left; reflexivity].
Qed.

Lemma parts_well_formed mo a b c pre :
  modifier_string_ok mo -> digits1 a = true -> digits1 b = true ->
  digits1 c = true -> prerelease_ok pre ->
  exists m, well_formed m
            /\ mo ++ a ++ "." ++ b ++ "." ++ c ++ or_empty pre = assemble m
            /\ g_major m = a /\ g_minor m = b /\ g_patch m = c
            /\ g_prerelease m = pre.
Proof.
  intros [->|Hm] Ha Hb Hc Hp.
  - exists (mkMatch None a b c pre). unfold well_formed, assemble. simpl. tauto.
  - exists (mkMatch (Some mo) a b c pre). unfold well_formed, assemble. simpl. tauto.
Qed.

Variable d : nat -> Q.
Hypothesis unit : unit_draws d.

Lemma returns_within_constraint mo ma mi pa aggression :
  modifier_string_ok mo ->
  0 <= ma < 2 ^ 53 - 13 -> 0 <= mi < 2 ^ 53 - 13 -> 0 <= pa < 2 ^ 53 - 13 ->
  always_returns d
    (createVersionWithinConstraint mo (Fin ma) (Fin mi) (Fin pa) aggression)
    (fun out => exists m, well_formed m /\ out = assemble m
                          /\ g_major m = ToString (Fin ma)
                          /\ g_prerelease m = None).
Proof.
  intros Hmo Hma Hmi Hpa. unfold createVersionWithinConstraint.
  assert (Hfinal : forall mo' mi' pa',
             modifier_string_ok mo' -> 0 <= mi' < 2 ^ 53 -> 0 <= pa' < 2 ^ 53 ->
             exists m, well_formed m
               /\ mo' ++ ToString (Fin ma) ++ "." ++ ToString (Fin mi') ++ "."
                    ++ ToString (Fin pa') = assemble m
               /\ g_major m = ToString (Fin ma) /\ g_prerelease m = None).
  { intros mo' mi' pa' H1 H2 H3.
    destruct (parts_well_formed mo' (ToString (Fin ma)) (ToString (Fin mi'))
                (ToString (Fin pa')) None) as (m & Hwf & Heq & Hmaj & _ & _ & Hpre);
      try (apply ToString_digits; lia); try assumption; [exact I|].
    exists m. cbn [or_empty] in Heq. rewrite append_nil_r in Heq. tauto. }
  eapply returns_bind; [apply returns_random, unit|]. intros r0 _.
  eapply returns_bind with
    (P := fun t => exists mo' mi' pa', t = (mo', Fin mi', Fin pa')
                   /\ modifier_string_ok mo'
                   /\ 0 <= mi' < 2 ^ 53 /\ 0 <= pa' < 2 ^ 53).
  - destruct (Qltb r0 _).
    + eapply returns_bind; [apply returns_any|]. intros r1 _.
      assert (Hnew : modifier_string_ok
                (if String.eqb mo "^" then if Qltb r1 (6 # 10) then "~" else ""
                 else if String.eqb mo "~" then if Qltb r1 (7 # 10) then "" else "^"
                 else if Qltb r1 (3 # 10) then "=" else "")).
      { unfold modifier_string_ok, range_modifiers.
        destruct (String.eqb mo "^"), (String.eqb mo "~"), (Qltb r1 (6 # 10)),
          (Qltb r1 (7 # 10)), (Qltb r1 (3 # 10)); simpl; auto 10. }
      eapply returns_bind; [apply returns_any|]. intros r2 _.
      destruct (Qltb r2 _).
      * eapply returns_bind;
          [apply (returns_shift d unit mi MINOR_VERSION_BOUND);
           unfold MINOR_VERSION_BOUND; lia|].
        intros x (n' & -> & Hn'). apply returns_ret.
        unfold MINOR_VERSION_BOUND in Hn'. eexists _, n', pa. repeat split; try lia; assumption.
      * eapply returns_bind;
          [apply (returns_shift d unit pa PATCH_VERSION_BOUND);
           unfold PATCH_VERSION_BOUND; lia|].
        intros x (n' & -> & Hn'). apply returns_ret.
        unfold PATCH_VERSION_BOUND in Hn'. eexists _, mi, n'. repeat split; try lia; assumption.
    + apply returns_ret. exists mo, mi, pa. repeat split; try lia; assumption.
  - intros t (mo' & mi' & pa' & -> & H1 & H2 & H3). apply returns_ret.
    apply Hfinal; assumption.
Qed.

Lemma constraint_match_sound opts c :
  constraint_match opts = Some c -> well_formed c.
Proof.
  unfold constraint_match. intros H.
  destruct (Hints.packageName opts) as [name|]; [|discriminate].
  destruct (Hints.versionConstraints opts) as [cs|]; [|discriminate].
  destruct (truthy (Some name)); [|discriminate].
  destruct (find _ _) as [key|]; [|discriminate].
  destruct (truthy (Some key)); [|discriminate].
  destruct (truthy (get_prop cs key)); [|discriminate].
  apply exec_sound in H. tauto.
Qed.

Lemma index_modifier_ok k :
  modifier_string_ok (or_empty (index VERSION_MODIFIERS k)).
Proof.
  unfold index, modifier_string_ok, range_modifiers, VERSION_MODIFIERS.
  destruct (k <? 0); [left; reflexivity|].
  destruct (Z.to_nat k) as [|[|[|[|[|[|[|[|n]]]]]]]]; simpl; auto 10.
Qed.

Lemma returns_free_mutation m aggression opts :
  well_formed m -> small_match m ->
  always_returns d (free_mutation m aggression opts)
    (fun out => exists m', well_formed m' /\ out = assemble m'
                           /\ g_prerelease m' = g_prerelease m).
Proof.
  intros Hwf ((ma & Ema & Hma) & (mi & Emi & Hmi) & (pa & Epa & Hpa)).
  unfold free_mutation. cbv zeta. rewrite Ema, Emi, Epa.
  eapply returns_bind; [apply returns_any|]. intros modType _.
  eapply returns_bind; [apply returns_any|]. intros r0 _.
  eapply returns_bind with (P := modifier_string_ok).
  { destruct (Qltb r0 _).
    - destruct (is_realistic _).
      + eapply returns_bind; [apply returns_any|]. intros r1 _.
        destruct (Qltb r1 _); [apply returns_ret; left; reflexivity|].
        eapply returns_bind; [apply returns_any|]. intros r2 _.
        apply returns_ret. unfold modifier_string_ok, range_modifiers.
        destruct (Qltb r2 _); simpl; auto.
      + eapply returns_bind; [apply returns_any|]. intros r1 _.
        apply returns_ret, index_modifier_ok.
    - apply returns_ret, modifier_of_match, Hwf. }
  intros mo Hmo.
  eapply returns_bind; [apply returns_any|]. intros r3 _.
  eapply returns_bind with
    (P := fun t => exists a b c, t = (Fin a, Fin b, Fin c)
                   /\ 0 <= a < 2 ^ 53 /\ 0 <= b < 2 ^ 53
                   /\ 0 <= c < 2 ^ 53 - 3).
  { destruct (Qltb r3 _).
    - destruct (_ && _)%bool; [|destruct (Qltb modType (7 # 10))].
      + eapply returns_bind;
          [apply (returns_shift d unit ma MAJOR_VERSION_BOUND);
           unfold MAJOR_VERSION_BOUND; lia|].
        intros x (n' & -> & Hn'). apply returns_ret.
        unfold MAJOR_VERSION_BOUND in Hn'. exists n', mi, pa. repeat split; lia.
      + eapply returns_bind;
          [apply (returns_shift d unit mi MINOR_VERSION_BOUND);
           unfold MINOR_VERSION_BOUND; lia|].
        intros x (n' & -> & Hn'). apply returns_ret.
        unfold MINOR_VERSION_BOUND in Hn'. exists ma, n', pa. repeat split; lia.
      + eapply returns_bind;
          [apply (returns_shift d unit pa PATCH_VERSION_BOUND);
           unfold PATCH_VERSION_BOUND; lia|].
        intros x (n' & -> & Hn'). apply returns_ret.
        unfold PATCH_VERSION_BOUND in Hn'. exists ma, mi, n'. repeat split; lia.
    - apply returns_ret. exists ma, mi, pa. repeat split; lia. }
  intros t (a & b & c & -> & Ha & Hb & Hc).
  eapply returns_bind with
    (P := fun t => exists mo' c', t = (mo', Fin c') /\ modifier_string_ok mo'
                   /\ 0 <= c' < 2 ^ 53).
  { destruct (is_realistic _).
    - eapply returns_bind; [apply returns_any|]. intros r4 _.
      destruct (Qltb r4 _).
      + eapply returns_bind; [apply returns_any|]. intros r5 _.
        destruct (Qltb r5 _).
        * eapply returns_bind; [apply returns_random, unit|]. intros r6 [H0 H1].
          apply returns_ret.
          pose proof (Qfloor_scaled r6 3 H0 H1 ltac:(lia)) as Hk.
          change (inject_Z 3) with 3%Q in Hk.
          cbn [js_add]. rewrite round_double_small by lia.
          cbn [js_add]. rewrite round_double_small by lia.
          eexists "", _. split; [reflexivity|]. split; [left; reflexivity | lia].
        * apply returns_ret. exists "", c. split; [reflexivity|].
          split; [left; reflexivity | lia].
      + apply returns_ret. exists mo, c. repeat split; try lia; assumption.
    - apply returns_ret. exists mo, c. repeat split; try lia; assumption. }
  intros t (mo' & c' & -> & Hmo' & Hc'). apply returns_ret.
  destruct (parts_well_formed mo' (ToString (Fin a)) (ToString (Fin b))
              (ToString (Fin c')) (g_prerelease m))
    as (m' & Hwf' & Heq & _ & _ & _ & Hpre);
    try (apply ToString_digits; lia); try assumption; [apply Hwf|].
  exists m'. tauto.
Qed.

(** In the safe range every result of the mutator is a specifier of the
    grammar; on the constraint path its major version is the constraint's. *)
Lemma mutation_well_formed s m aggression opts :
  VERSION_RANGE_REGEX_exec s = Some m -> small_match m ->
  (forall c, constraint_match opts = Some c -> small_match c) ->
  always_returns d (scrambleVersion s aggression opts)
    (fun out => exists m', well_formed m' /\ out = assemble m'
       /\ (forall c, constraint_match opts = Some c ->
                     Number (g_major m') = Number (g_major c))).
Proof.
  intros Hs Hsmall Hc. unfold scrambleVersion. rewrite Hs.
  destruct (constraint_match opts) as [c|] eqn:Ec.
  - destruct (Hc c eq_refl) as ((ma & Ema & Hma) & (mi & Emi & Hmi) & (pa & Epa & Hpa)).
    rewrite Ema, Emi, Epa.
    eapply returns_weaken.
    + apply returns_within_constraint; try assumption.
      apply modifier_of_match, (constraint_match_sound opts), Ec.
    + intros out (m' & Hwf & Heq & Hmaj & _). exists m'. split; [assumption|].
      split; [assumption|]. intros c' [= <-].
      rewrite Hmaj, Ema. apply Number_ToString. lia.
  - eapply returns_weaken.
    + apply returns_free_mutation; [|assumption]. apply exec_sound in Hs. tauto.
    + intros out (m' & Hwf & Heq & _). exists m'. split; [assumption|].
      split; [assumption|]. intros c' [=].
Qed.

End MutatorFacts.

Lemma always_unit q : (0 <= q)%Q -> (q < 1)%Q -> unit_draws (always q).
Proof. intros H0 H1 i. split; assumption. Qed.

Lemma small_component_intro s n :
  Number s = Fin n -> 0 <= n -> n < 2 ^ 53 - 13 -> small_component s.
Proof. intros H H0 H1. exists n. auto. Qed.

(** A package of the [@angular] scope under the constraint ["^14.0.0"]: the
    mutated specifier is in the grammar and has major version 14. *)
Example constrained_mutation_sample :
  let hints :=
    Hints.mk None (Some "@angular/core") (Some [("@angular", "^14.0.0")])
      (Some "realistic") in
  exists m,
    well_formed m
    /\ fst (scrambleVersion "~13.2.1" 10 hints (always (1 # 3)) 0%nat) = assemble m
    /\ Number (g_major m) = Fin 14.
Proof.
  intros hints.
  assert (Hsmall : forall s n, Number s = Fin n -> 0 <= n -> n < 2 ^ 53 - 13 ->
                               small_component s) by exact small_component_intro.
  destruct (mutation_well_formed (always (1 # 3))
              (always_unit (1 # 3) ltac:(discriminate) ltac:(reflexivity))
              "~13.2.1" (mkMatch (Some "~") "13" "2" "1" None) 10 hints)
    with (i := 0%nat) as (m & Hwf & Heq & Hmajor).
  - reflexivity.
  - repeat split; [apply (Hsmall _ 13) | apply (Hsmall _ 2) | apply (Hsmall _ 1)];
      (reflexivity || discriminate).
  - intros c [= <-].
    repeat split; [apply (Hsmall _ 14) | apply (Hsmall _ 0) | apply (Hsmall _ 0)];
      (reflexivity || discriminate).
  - exists m. split; [exact Hwf|]. split; [exact Heq|].
    rewrite (Hmajor _ eq_refl). reflexivity.
Qed.

(** ** Confinement of the effects *)

Section Confinement.

Variables D W : loc -> Prop.

Lemma extends_refl s : extends W s s.
Proof. repeat split; auto. Qed.

Lemma extends_trans s1 s2 s3 :
  extends W s1 s2 -> extends W s2 s3 -> extends W s1 s3.
Proof.
  intros (Hd & Ha & Hf) (Hd' & Ha' & Hf'). repeat split.
  - congruence.
  - auto.
  - intros l Hl. rewrite Hf', Hf by assumption. reflexivity.
Qed.

Lemma confined_ret {A : Type} (a : A) : confined D W (Eff.ret a).
Proof. intros s _. exists a, s. split; [reflexivity | apply extends_refl]. Qed.

Lemma confined_bind {A B : Type} (m : M A) (k : A -> M B) :
  confined D W m -> (forall a, confined D W (k a)) ->
  confined D W (Eff.bind m k).
Proof.
  intros Hm Hk s Hs. destruct (Hm s Hs) as (a & s1 & E1 & X1).
  assert (Hs1 : forall l, D l -> allocated s1 l).
  { intros l Hl. apply X1, Hs, Hl. }
  destruct (Hk a s1 Hs1) as (b & s2 & E2 & X2).
  exists b, s2. unfold Eff.bind. rewrite E1. split; [exact E2|].
  eapply extends_trans; eassumption.
Qed.

Lemma confined_rand {A : Type} (m : Rand A) : confined D W (rand m).
Proof.
  intros s _. unfold rand. destruct (m (draws s) (drawn s)) as [a j].
  eexists _, _. split; [reflexivity|]. repeat split; auto.
Qed.

Lemma confined_deref l : D l -> confined D W (deref l).
Proof.
  intros Hl s Hs. unfold deref. destruct (Hs l Hl) as [o E]. rewrite E.
  eexists _, _. split; [reflexivity | apply extends_refl].
Qed.

Lemma confined_record_or_empty o :
  (forall l, o = Some l -> D l) -> confined D W (record_or_empty o).
Proof.
  destruct o as [l|]; intros H; [apply confined_deref, H; reflexivity|].
  apply confined_ret.
Qed.

Lemma confined_assign l k v : D l -> W l -> confined D W (assign l k v).
Proof.
  intros Hl Hw s Hs. unfold assign. destruct (Hs l Hl) as [o E]. rewrite E.
  eexists _, _. split; [reflexivity|]. repeat split; simpl.
  - intros l' [o' E']. unfold allocated. simpl.
    destruct (decide (l = l')) as [<-|Hne].
    + rewrite lookup_insert_eq. eauto.
    + rewrite lookup_insert_ne by assumption. eauto.
  - intros l' Hl'. apply lookup_insert_ne. intros <-. contradiction.
Qed.

Lemma confined_push_scrambled t x : confined D W (push_scrambled t x).
Proof. intros s _. eexists _, _. split; [reflexivity|]. repeat split; auto. Qed.

Lemma confined_push_issue line : confined D W (push_issue line).
Proof. intros s _. eexists _, _. split; [reflexivity|]. repeat split; auto. Qed.

Lemma confined_get_scrambled t : confined D W (get_scrambled t).
Proof. intros s _. eexists _, _. split; [reflexivity | apply extends_refl]. Qed.

Lemma confined_for_of {A : Type} (xs : list A) (body : A -> M unit) :
  (forall x, confined D W (body x)) -> confined D W (for_of xs body).
Proof.
  intros Hb. induction xs as [|x r IH]; simpl.
  - apply confined_ret.
  - apply confined_bind; [apply Hb | intros _; exact IH].
Qed.

End Confinement.

Lemma confined_member_bind {A B : Type} D W (o : option A) (k : A -> M B) :
  is_Some_bool o = true ->
  (forall a, o = Some a -> confined D W (k a)) ->
  confined D W (Eff.bind (member o) k).
Proof.
  destruct o as [a|]; [|discriminate]. intros _ H.
  change (Eff.bind (member (Some a)) k) with (fun s => k a s).
  intros s Hs. apply (H a eq_refl s Hs).
Qed.

(** Booleans of the guards, as facts. *)
Ltac guards :=
  repeat match goal with
  | H : negb _ = false |- _ => apply negb_false_iff in H
  | H : negb _ = true |- _ => apply negb_true_iff in H
  | H : (_ && _)%bool = true |- _ => apply andb_true_iff in H; destruct H
  | H : bool_decide _ = true |- _ => apply bool_decide_eq_true in H
  end.

(** One step of a confinement proof: split a bind or a conditional and close
    the primitive operations. *)
Ltac confine :=
  repeat match goal with
  | |- confined _ _ (Eff.ret _) => apply confined_ret
  | |- confined _ _ (rand _) => apply confined_rand
  | |- confined _ _ (push_scrambled _ _) => apply confined_push_scrambled
  | |- confined _ _ (push_issue _) => apply confined_push_issue
  | |- confined _ _ (get_scrambled _) => apply confined_get_scrambled
  | |- confined _ _ (Eff.bind (member _) _) =>
      apply confined_member_bind; [guards; assumption | intros ? ?]
  | |- confined _ _ (Eff.bind _ _) => apply confined_bind; [|intros ?]
  | |- confined _ _ (for_of _ _) => apply confined_for_of; intros ?
  | |- confined _ _ (if ?b then _ else _) => destruct b eqn:?
  | |- confined _ _ (match ?o with Some _ => _ | None => _ end) =>
      destruct o eqn:?
  | |- confined _ _ (let '(_, _) := ?p in _) => destruct p
  end.

Section StrategistConfined.

Variable coerce : string -> option SemVer.
Variables D W : loc -> Prop.
Variables original modified : PackageJson.
Hypothesis original_valid : valid_refs D original.
Hypothesis modified_valid : valid_refs D modified.

Lemma may_write_current mode current : may_write mode current current = true.
Proof. unfold may_write. rewrite bool_decide_eq_true_2 by reflexivity. reflexivity. Qed.

Lemma confined_peer_conflict_strategy current mode :
  (forall l, category modified PEER_DEPENDENCIES = Some l ->
             may_write mode current PEER_DEPENDENCIES = true -> W l) ->
  confined D W (peer_conflict_strategy coerce original modified current mode).
Proof.
  intros Hw. unfold peer_conflict_strategy.
  assert (Hcase : may_write mode current PEER_DEPENDENCIES = true
                  \/ (current <> PEER_DEPENDENCIES
                      /\ is_mode mode "peer-conflict" = false)).
  { unfold may_write, strategist_reaches.
    destruct (decide (current = PEER_DEPENDENCIES)) as [->|Hne].
    - left. rewrite bool_decide_eq_true_2 by reflexivity. reflexivity.
    - destruct (is_mode mode "peer-conflict"); [|right; auto].
      left. rewrite (bool_decide_eq_true_2 (PEER_DEPENDENCIES = PEER_DEPENDENCIES)) by reflexivity.
      simpl. apply orb_true_r. }
  destruct Hcase as [Hmay|[Hne Hmode]].
  - confine.
    + apply confined_deref, (original_valid DEPENDENCIES). assumption.
    + apply confined_record_or_empty. intros l. apply (original_valid PEER_DEPENDENCIES).
    + apply confined_deref, (original_valid DEPENDENCIES). assumption.
    + apply confined_deref, (original_valid DEPENDENCIES). assumption.
    + apply confined_assign.
      * apply (modified_valid PEER_DEPENDENCIES). assumption.
      * apply Hw; assumption.
  - destruct (decide (current = PEER_DEPENDENCIES)); [contradiction|].
    rewrite Hmode. intros s Hs. exists tt, s. split; [reflexivity | apply extends_refl].
Qed.

Lemma strategist_reaches_may_write mode current t :
  strategist_reaches mode t = true -> may_write mode current t = true.
Proof. unfold may_write. intros ->. apply orb_true_r. Qed.

Lemma realistic_reaches mode :
  is_mode mode "realistic" = true ->
  strategist_reaches mode DEPENDENCIES = true.
Proof.
  intros H. unfold strategist_reaches. rewrite H.
  rewrite (bool_decide_eq_true_2 (DEPENDENCIES = DEPENDENCIES)) by reflexivity.
  apply orb_true_r.
Qed.

Lemma confined_transitive_conflict_step newVersion conflict :
  (forall l, dependencies modified = Some l -> W l) ->
  is_Some_bool (dependencies modified) = true ->
  confined D W
    (transitive_conflict_step (dependencies original) (dependencies modified)
       newVersion conflict).
Proof.
  intros Hw Hm. unfold transitive_conflict_step. confine.
  - apply confined_record_or_empty. intros l. apply (original_valid DEPENDENCIES).
  - apply confined_assign; [apply (modified_valid DEPENDENCIES)|apply Hw]; assumption.
Qed.

Lemma confined_transitive_strategy mode scaled :
  (forall l, dependencies modified = Some l ->
             strategist_reaches mode DEPENDENCIES = true -> W l) ->
  confined D W (transitive_strategy coerce original modified mode scaled).
Proof.
  intros Hw. unfold transitive_strategy.
  destruct (is_mode mode "realistic") eqn:Hmode.
  - pose proof (realistic_reaches mode Hmode) as Hr. confine.
    + apply confined_record_or_empty. intros l. apply (original_valid DEPENDENCIES).
    + apply confined_transitive_conflict_step; [|guards; assumption].
      intros l Hl. apply Hw; assumption.
  - intros s Hs. exists tt, s. split; [reflexivity | apply extends_refl].
Qed.

Lemma confined_sibling_step baseVersion baseMatch pkg :
  (forall l, dependencies modified = Some l -> W l) ->
  confined D W
    (sibling_step (dependencies original) (dependencies modified)
       baseVersion baseMatch pkg).
Proof.
  intros Hw. unfold sibling_step. confine;
    try (apply confined_record_or_empty; intros l; apply (original_valid DEPENDENCIES)).
  apply confined_assign; [apply (modified_valid DEPENDENCIES)|apply Hw]; assumption.
Qed.

Lemma confined_sibling_family depKeys scaled prefix :
  (forall l, dependencies modified = Some l -> W l) ->
  confined D W
    (sibling_family (dependencies original) (dependencies modified) depKeys
       scaled prefix).
Proof.
  intros Hw. unfold sibling_family. confine.
  - apply confined_record_or_empty. intros l. apply (original_valid DEPENDENCIES).
  - apply confined_sibling_step, Hw.
Qed.

Lemma confined_sibling_strategy current mode scaled :
  (forall l, dependencies modified = Some l ->
             strategist_reaches mode DEPENDENCIES = true -> W l) ->
  confined D W (sibling_strategy original modified current mode scaled).
Proof.
  intros Hw. unfold sibling_strategy.
  destruct (is_mode mode "realistic") eqn:Hmode; [|apply confined_ret].
  pose proof (realistic_reaches mode Hmode) as Hr. confine.
  - apply confined_record_or_empty. intros l. apply (original_valid DEPENDENCIES).
  - apply confined_sibling_family.
    intros l Hl. apply Hw; assumption.
Qed.

(** The strategist returns, and writes only the categories of [modified]
    that [may_write] names. *)
Lemma confined_createRealisticConflicts current aggression mode :
  (forall t l, category modified t = Some l ->
               may_write mode current t = true -> W l) ->
  confined D W
    (createRealisticConflicts coerce original modified current aggression mode).
Proof.
  intros Hw. unfold createRealisticConflicts. confine.
  - apply confined_peer_conflict_strategy. apply Hw.
  - apply confined_transitive_strategy. intros l Hl Hr.
    apply (Hw DEPENDENCIES); [assumption | apply strategist_reaches_may_write, Hr].
  - apply confined_sibling_strategy. intros l Hl Hr.
    apply (Hw DEPENDENCIES); [assumption | apply strategist_reaches_may_write, Hr].
Qed.

End StrategistConfined.

Section SelectorConfined.

Variable host_sort : list string -> sort_tree.
Variable coerce : string -> option SemVer.
Variables D W : loc -> Prop.
Variables pkg modified : PackageJson.
Hypothesis pkg_valid : valid_refs D pkg.
Hypothesis modified_valid : valid_refs D modified.

Lemma confined_scramble_entry l depType aggression hints dep :
  D l ->
  (forall m, category modified depType = Some m -> W m) ->
  confined D W (scramble_entry l modified depType aggression hints dep).
Proof.
  intros Hl Hw. unfold scramble_entry. confine.
  - apply confined_deref, Hl.
  - apply confined_assign; [apply (modified_valid depType)|apply Hw]; assumption.
Qed.

Lemma confined_scramble_category percentage aggression mode hints depType :
  (forall t l, category modified t = Some l ->
               may_write mode depType t = true -> W l) ->
  confined D W
    (scramble_category host_sort coerce pkg modified percentage aggression mode
       hints depType).
Proof.
  intros Hw. unfold scramble_category.
  destruct (category pkg depType) as [l|] eqn:Hl; [|apply confined_ret].
  pose proof (pkg_valid depType l Hl) as HD. confine.
  - apply confined_deref, HD.
  - apply confined_scramble_entry; [exact HD|].
    intros m Hm. apply (Hw depType); [assumption | apply may_write_current].
  - apply confined_createRealisticConflicts; assumption.
Qed.

End SelectorConfined.

Lemma confined_for_of_in {A : Type} D W (xs : list A) (body : A -> M unit) :
  (forall x, In x xs -> confined D W (body x)) -> confined D W (for_of xs body).
Proof.
  induction xs as [|x r IH]; intros Hb; simpl.
  - apply confined_ret.
  - apply confined_bind; [apply Hb; left; reflexivity|].
    intros _. apply IH. intros y Hy. apply Hb. right. exact Hy.
Qed.

(** ** The deep copy *)

Section DeepCopy.

Lemma grows_refl s : grows s s.
Proof. repeat split; auto. Qed.

Lemma grows_allocated s s' l : grows s s' -> allocated s l -> allocated s' l.
Proof.
  intros (_ & _ & _ & _ & H) Hl. unfold allocated. rewrite H by assumption. exact Hl.
Qed.

Lemma grows_trans s1 s2 s3 : grows s1 s2 -> grows s2 s3 -> grows s1 s3.
Proof.
  intros H12 H23.
  assert (Ha : forall l, allocated s1 l -> allocated s2 l).
  { intros l. apply grows_allocated, H12. }
  destruct H12 as (A1 & A2 & A3 & A4 & A5), H23 as (B1 & B2 & B3 & B4 & B5).
  repeat split; try congruence.
  intros l Hl. rewrite B5, A5; auto.
Qed.

Lemma grows_entries s s' o :
  grows s s' -> (forall l, o = Some l -> allocated s l) ->
  entries s' o = entries s o.
Proof.
  intros (_ & _ & _ & _ & H) Ho. destruct o as [l|]; [|reflexivity].
  simpl. apply H, Ho. reflexivity.
Qed.

Lemma copy_category_spec o s :
  (forall l, o = Some l -> allocated s l) ->
  exists o' s', copy_category o s = Ok o' s' /\ grows s s'
    /\ entries s' o' = entries s o
    /\ (forall l', o' = Some l' -> ~ allocated s l' /\ allocated s' l').
Proof.
  intros Ho. destruct o as [l|]; simpl.
  - destruct (Ho l eq_refl) as [e E].
    unfold copy_category, Eff.bind, deref, alloc, Eff.ret. rewrite E. simpl.
    set (l' := fresh (dom (store s))).
    assert (Hfresh : ~ allocated s l').
    { unfold allocated. rewrite <- elem_of_dom. apply is_fresh. }
    eexists _, _. split; [reflexivity|]. split; [|split].
    + repeat split; simpl; auto. intros k Hk. apply lookup_insert_ne.
      intros <-. contradiction.
    + simpl. rewrite lookup_insert_eq. reflexivity.
    + intros k [= <-]. split; [exact Hfresh|].
      unfold allocated. simpl. rewrite lookup_insert_eq. eauto.
  - exists None, s. split; [reflexivity|]. split; [apply grows_refl|].
    split; [reflexivity|]. intros l' [=].
Qed.

Lemma deep_copy_spec pkg s :
  valid_refs (allocated s) pkg ->
  exists modified s', deep_copy pkg s = Ok modified s' /\ grows s s'
    /\ (forall t, entries s' (category modified t) = entries s (category pkg t))
    /\ (forall t l, category modified t = Some l ->
                    ~ allocated s l /\ allocated s' l)
    /\ (forall t t' l, category modified t = Some l ->
                       category modified t' = Some l -> t = t').
Proof.
  intros Hv. unfold deep_copy.
  destruct (copy_category_spec (dependencies pkg) s) as (d & s1 & E1 & G1 & N1 & F1).
  { intros l Hl. apply (Hv DEPENDENCIES), Hl. }
  destruct (copy_category_spec (devDependencies pkg) s1) as (v & s2 & E2 & G2 & N2 & F2).
  { intros l Hl. eapply grows_allocated; [exact G1|]. apply (Hv DEV_DEPENDENCIES), Hl. }
  pose proof (grows_trans _ _ _ G1 G2) as G12.
  destruct (copy_category_spec (peerDependencies pkg) s2) as (p & s3 & E3 & G3 & N3 & F3).
  { intros l Hl. eapply grows_allocated; [exact G12|]. apply (Hv PEER_DEPENDENCIES), Hl. }
  pose proof (grows_trans _ _ _ G12 G3) as G13.
  destruct (copy_category_spec (optionalDependencies pkg) s3) as (o & s4 & E4 & G4 & N4 & F4).
  { intros l Hl. eapply grows_allocated; [exact G13|]. apply (Hv OPTIONAL_DEPENDENCIES), Hl. }
  pose proof (grows_trans _ _ _ G13 G4) as G14.
  pose proof (grows_trans _ _ _ G2 (grows_trans _ _ _ G3 G4)) as G24.
  pose proof (grows_trans _ _ _ G3 G4) as G34.
  exists (mkPackageJson (name pkg) (version pkg) d v p o), s4.
  split.
  { unfold Eff.bind. rewrite E1, E2, E3, E4. reflexivity. }
  split; [exact G14|].
  assert (Hd : forall l, d = Some l -> ~ allocated s l /\ allocated s1 l) by exact F1.
  assert (Hvv : forall l, v = Some l -> ~ allocated s1 l /\ allocated s2 l) by exact F2.
  assert (Hp : forall l, p = Some l -> ~ allocated s2 l /\ allocated s3 l) by exact F3.
  assert (Ho : forall l, o = Some l -> ~ allocated s3 l /\ allocated s4 l) by exact F4.
  split; [|split].
  - intros [| | |]; simpl.
    + rewrite <- N1. apply grows_entries; [exact G24|]. intros l Hl. apply Hd, Hl.
    + rewrite <- (grows_entries s (s1) (devDependencies pkg) G1)
        by (intros l Hl; apply (Hv DEV_DEPENDENCIES), Hl).
      rewrite <- N2. apply grows_entries; [exact G34|]. intros l Hl. apply Hvv, Hl.
    + rewrite <- (grows_entries s s2 (peerDependencies pkg) G12)
        by (intros l Hl; apply (Hv PEER_DEPENDENCIES), Hl).
      rewrite <- N3. apply grows_entries; [exact G4|]. intros l Hl. apply Hp, Hl.
    + rewrite <- (grows_entries s s3 (optionalDependencies pkg) G13)
        by (intros l Hl; apply (Hv OPTIONAL_DEPENDENCIES), Hl).
      exact N4.
  - intros [| | |] l; simpl; intros Hl.
    + destruct (Hd l Hl). split; [assumption|].
      apply (grows_allocated s1 s4); assumption.
    + destruct (Hvv l Hl) as [Hn Ha]. split.
      * intros Hs. apply Hn. apply (grows_allocated s s1); assumption.
      * apply (grows_allocated s2 s4); assumption.
    + destruct (Hp l Hl) as [Hn Ha]. split.
      * intros Hs. apply Hn. apply (grows_allocated s s2); assumption.
      * apply (grows_allocated s3 s4); assumption.
    + destruct (Ho l Hl) as [Hn Ha]. split; [|assumption].
      intros Hs. apply Hn. apply (grows_allocated s s3); assumption.
  - assert (A1 : forall l, d = Some l -> allocated s1 l /\ allocated s2 l /\ allocated s3 l).
    { intros l Hl. destruct (Hd l Hl). split; [assumption|]. split.
      - apply (grows_allocated s1 s2); assumption.
      - apply (grows_allocated s1 s3); [apply (grows_trans _ _ _ G2 G3) | assumption]. }
    assert (A2 : forall l, v = Some l -> allocated s2 l /\ allocated s3 l).
    { intros l Hl. destruct (Hvv l Hl). split; [assumption|].
      apply (grows_allocated s2 s3); assumption. }
    intros [| | |] [| | |] l; simpl; intros H H'; try reflexivity; exfalso;
      repeat match goal with
      | X : d = Some l |- _ => destruct (A1 l X) as (? & ? & ?); clear X
      | X : v = Some l |- _ =>
          destruct (A2 l X) as (? & ?); destruct (Hvv l X) as (? & _); clear X
      | X : p = Some l |- _ => destruct (Hp l X) as (? & ?); clear X
      | X : o = Some l |- _ => destruct (Ho l X) as (? & ?); clear X
      end; tauto.
Qed.

End DeepCopy.

(** ** The selector as a whole *)

Section SelectorRuns.

Variable host_sort : list string -> sort_tree.
Variable coerce : string -> option SemVer.

Lemma selector_loop_confined pkg copy options s (W : loc -> Prop) :
  valid_refs (allocated s) pkg -> valid_refs (allocated s) copy ->
  (forall x t l, In x (resolved_depTypes options) ->
                 category copy t = Some l ->
                 may_write (resolved_conflictMode options) x t = true -> W l) ->
  exists s',
    for_of (resolved_depTypes options)
      (scramble_category host_sort coerce pkg copy
         (resolved_scramblePercentage options) (resolved_aggressionLevel options)
         (resolved_conflictMode options) (hints_for options)) s = Ok tt s'
    /\ extends W s s'.
Proof.
  intros Hp Hc Hw.
  destruct (confined_for_of_in (allocated s) W (resolved_depTypes options)
              (scramble_category host_sort coerce pkg copy
                 (resolved_scramblePercentage options)
                 (resolved_aggressionLevel options)
                 (resolved_conflictMode options) (hints_for options)))
    with (s := s) as ([] & s' & E & X).
  - intros x Hx. apply confined_scramble_category; try assumption.
    intros t l. apply Hw, Hx.
  - auto.
  - exists s'. split; assumption.
Qed.

(** Every run of the selector returns; what was in the store before is
    untouched, the copy is made of fresh objects, and a category that no
    processed category may write still holds the entries of the original. *)
Lemma scrambleDependencies_runs pkg options s :
  valid_refs (allocated s) pkg ->
  exists r s',
    scrambleDependencies host_sort coerce pkg options s = Ok r s'
    /\ draws s' = draws s
    /\ (forall l, allocated s l -> store s' !! l = store s !! l)
    /\ (forall t l, category (modified r) t = Some l ->
                    ~ allocated s l /\ allocated s' l)
    /\ (forall t,
          (forall x, In x (resolved_depTypes options) ->
                     may_write (resolved_conflictMode options) x t = false) ->
          entries s' (category (modified r) t) = entries s (category pkg t))
    /\ result_scrambledDeps r = scrambledDeps s'
    /\ result_issues r = issues s'.
Proof.
  intros Hv.
  destruct (deep_copy_spec pkg s Hv) as (copy & s1 & E1 & G1 & Hent & Hfresh & Hinj).
  set (s2 := mkSession (store s1) (draws s1) (drawn s1) (mkScrambled [] [] [] []) []).
  assert (Hp2 : valid_refs (allocated s2) pkg).
  { intros t l Hl. apply (grows_allocated s s1 l G1), (Hv t), Hl. }
  assert (Hc2 : valid_refs (allocated s2) copy).
  { intros t l Hl. destruct (Hfresh t l Hl) as [_ H]. exact H. }
  destruct (selector_loop_confined pkg copy options s2
              (fun l => ~ allocated s l) Hp2 Hc2) as (s3 & E3 & X3).
  { intros x t l _ Hl _. apply (Hfresh t l Hl). }
  exists (mkResult copy (scrambledDeps s3) (issues s3)), s3.
  split.
  { unfold scrambleDependencies, Eff.bind. rewrite E1.
    change (new_accumulators s1) with (Ok tt s2). cbv beta iota.
    rewrite E3. reflexivity. }
  destruct X3 as (Hd3 & Ha3 & Hf3).
  destruct G1 as (Gd & _ & _ & _ & Gs).
  split; [simpl in Hd3; congruence|].
  split.
  { intros l Hl. rewrite Hf3 by (intros H; apply H, Hl). simpl. apply Gs, Hl. }
  split.
  { intros t l Hl. destruct (Hfresh t l Hl) as [Hn Ha]. split; [exact Hn|].
    apply Ha3. exact Ha. }
  split; [|split; reflexivity].
  intros t Ht. cbn [modified]. rewrite <- Hent.
  destruct (category copy t) as [lt|] eqn:Hlt; [|reflexivity].
  destruct (selector_loop_confined pkg copy options s2
              (fun l => l <> lt) Hp2 Hc2) as (s3' & E3' & X3').
  { intros x t' l Hx Hl Hm ->. rewrite (Hinj t' t lt Hl Hlt) in Hm.
    rewrite (Ht x Hx) in Hm. discriminate. }
  rewrite E3 in E3'. injection E3' as <-.
  destruct X3' as (_ & _ & Hf). simpl. rewrite Hf by (intros H; apply H; reflexivity).
  reflexivity.
Qed.

End SelectorRuns.

(** ** The selection *)

Section Selection.

Lemma run_sort_leaf t d i : In (fst (run_sort t d i)) (leaves t).
Proof.
  revert i. induction t as [r|n IHn z IHz p IHp]; intros i; simpl.
  - left. reflexivity.
  - unfold Rand.bind, Math_random.
    destruct (Qltb _ _); [|destruct (Qeq_bool _ _)];
      rewrite !in_app_iff; auto.
Qed.

Lemma slice0_length {A : Type} (arr : list A) e :
  0 <= e <= Z.of_nat (length arr) -> Z.of_nat (length (slice0 arr e)) = e.
Proof.
  intros H. unfold slice0. destruct (Z.ltb_spec e 0); [lia|].
  rewrite length_take. lia.
Qed.

Variable host_sort : list string -> sort_tree.
Hypothesis host_rearranges : rearranges host_sort.

(** For a percentage between 0 and 100, as the selector has it once the
    defaults are resolved, exactly [scrambleCount] keys are chosen, never
    more than [E]. *)
Lemma selection_count keys P d i :
  (0 <= P)%Q -> (P <= 100)%Q ->
  let picked := fst (select_keys host_sort keys (scramble_count (length keys) P) d i) in
  Z.of_nat (length picked) = scramble_count (length keys) P
  /\ (length picked <= length keys)%nat.
Proof.
  intros H0 H1 picked.
  pose proof (scramble_count_range (length keys) P H0 H1) as Hr.
  unfold picked, select_keys, Rand.bind.
  pose proof (run_sort_leaf (host_sort keys) d i) as Hleaf.
  destruct (run_sort (host_sort keys) d i) as [sorted j]. simpl in *.
  apply host_rearranges in Hleaf. apply Permutation_length in Hleaf.
  assert (Hlen : Z.of_nat (length (slice0 sorted (scramble_count (length keys) P)))
                 = scramble_count (length keys) P).
  { apply slice0_length. rewrite <- Hleaf. exact Hr. }
  split; [exact Hlen | lia].
Qed.

(** The chosen keys are keys of the category, each with an entry. *)
Lemma selected_keys_are_keys keys count d i dep :
  In dep (fst (select_keys host_sort keys count d i)) -> In dep keys.
Proof.
  unfold select_keys, Rand.bind.
  pose proof (run_sort_leaf (host_sort keys) d i) as Hleaf.
  destruct (run_sort (host_sort keys) d i) as [sorted j]. simpl in *.
  apply host_rearranges in Hleaf. intros Hin.
  apply (Permutation_in dep (Permutation_sym Hleaf)).
  unfold slice0 in Hin. apply list_elem_of_In in Hin. apply list_elem_of_In.
  set (n := Z.to_nat _) in Hin.
  rewrite <- (take_drop n sorted). apply elem_of_app. left. exact Hin.
Qed.

End Selection.

Lemma key_has_entry (o : StringRecord) k :
  In k (Object_keys o) -> exists v, get_prop o k = Some v.
Proof.
  induction o as [|[k' v'] r IH]; simpl; [intros []|].
  destruct (String.eqb_spec k' k) as [->|Hne]; [eauto|].
  intros [H|H]; [contradiction | apply IH, H].
Qed.

(** The sample engine rearranges its array. *)
Section SampleEngine.

Lemma binary_search_leaves fuel left right k result :
  (left <= right)%nat ->
  In result (leaves (Sample.binary_search fuel left right k)) ->
  exists at_, (at_ <= right)%nat /\ In result (leaves (k at_)).
Proof.
  revert left right. induction fuel as [|fuel IH]; intros left right Hle; simpl.
  - intros H. exists left. auto.
  - destruct (Nat.ltb_spec left right) as [Hlt|Hge].
    + simpl. rewrite !in_app_iff.
      assert (Hmid : (left + Nat.div2 (right - left) < right)%nat).
      { rewrite Nat.div2_div.
        pose proof (Nat.div_lt (right - left) 2 ltac:(lia) ltac:(lia)). lia. }
      set (half := Nat.div2 (right - left)) in *. clearbody half.
      intros [H|[H|H]].
      * apply IH in H; [|lia]. destruct H as (a & Ha & Hin). exists a. split; [lia|assumption].
      * apply IH in H; [|lia]. exact H.
      * apply IH in H; [|lia]. exact H.
    + intros H. exists left. auto.
Qed.

Lemma insert_all_permutation sorted rest result :
  In result (leaves (Sample.insert_all sorted rest)) ->
  Permutation (sorted ++ rest) result.
Proof.
  revert sorted. induction rest as [|pivot rest IH]; intros sorted; simpl.
  - intros [<-|[]]. rewrite app_nil_r. reflexivity.
  - intros H. apply binary_search_leaves in H; [|lia].
    destruct H as (at_ & _ & H). apply IH in H.
    rewrite <- H. rewrite <- (take_drop at_ sorted) at 1.
    rewrite <- !app_assoc. apply Permutation_app_head.
    simpl. symmetry. apply Permutation_middle.
Qed.

Lemma binary_insertion_rearranges : rearranges Sample.binary_insertion_sort.
Proof. intros keys result H. apply (insert_all_permutation [] keys result H). Qed.

(** Seven entries at 30 percent on the sample engine: three keys. *)
Example selection_count_sample :
  let keys := ["a"; "b"; "c"; "d"; "e"; "f"; "g"] in
  let picked :=
    fst (select_keys Sample.binary_insertion_sort keys
           (scramble_count (length keys) 30) (always (1 # 3)) 0%nat) in
  Z.of_nat (length picked) = 3 /\ (length picked <= length keys)%nat.
Proof.
  intros keys picked.
  change 3 with (scramble_count (length keys) 30).
  exact (selection_count Sample.binary_insertion_sort binary_insertion_rearranges
           keys 30 (always (1 # 3)) 0%nat ltac:(discriminate) ltac:(discriminate)).
Qed.

End SampleEngine.

(** ** Recording a change *)



(** C5: the package [react] has the valid constraint ["^17.0.0"]; the
    mutator keeps major version 17 (["~17.0.0"]), and then the peer strategy
    of the strategist overwrites the entry with ["^18.0.0"]. *)
Theorem strategist_ignores_constraint :
  let options :=
    Sample.options [PEER_DEPENDENCIES] 100 10 "peer-conflict" [("react", "^17.0.0")] in
  match scrambleDependencies Sample.binary_insertion_sort Sample.coerce
          Sample.manifest options (Sample.start Sample.objects (always 0%Q)) with
  | Ok r s' =>
      constraint_match (hints_for options "react")
        = Some (mkMatch (Some "^") "17" "0" "0" None)
      /\ entries s' (category (modified r) PEER_DEPENDENCIES)
         = Some [("react", "^18.0.0")]
      /\ VERSION_RANGE_REGEX_exec "^18.0.0"
         = Some (mkMatch (Some "^") "18" "0" "0" None)
      /\ Number "17" = Fin 17 /\ Number "18" = Fin 18
      /\ result_issues r
         = ["Modified peerDependencies react: ^17.0.0 -> ~17.0.0";
            "Created peer dependency conflict for react: regular=^17.0.2, peer=^18.0.0"]
  | Throw _ => False
  end.
Proof. vm_compute. repeat split; reflexivity. Qed.

(** ** The distribution of the selection *)

Section Distribution.

Lemma bit_draws_length b : length (bit_draws b) = (2 ^ b)%nat.
Proof. unfold bit_draws. rewrite length_map, length_seq. reflexivity. Qed.

Lemma flat_map_cons_length {A : Type} (xs : list A) (tails : list (list A)) :
  length (flat_map (fun r => map (cons r) tails) xs)
  = (length xs * length tails)%nat.
Proof.
  induction xs as [|x r IH]; simpl; [reflexivity|].
  rewrite length_app, length_map, IH. reflexivity.
Qed.

Lemma draw_sequences_length b h :
  length (draw_sequences b h) = (2 ^ (b * h))%nat.
Proof.
  induction h as [|h IH]; simpl.
  - rewrite Nat.mul_0_r. reflexivity.
  - rewrite flat_map_cons_length, bit_draws_length, IH.
    rewrite <- Nat.pow_add_r. f_equal. lia.
Qed.

End Distribution.

(** On the sample engine the three entries are chosen with probabilities
    3/8, 3/8 and 1/4 when a draw has one random bit. *)
Example sample_engine_bias :
  map (inclusion_probability Sample.binary_insertion_sort 1 ["a"; "b"; "c"] 1)
      ["a"; "b"; "c"]
  = [3 # 8; 3 # 8; 2 # 8]%Q.
Proof. vm_compute. reflexivity. Qed.

(** ** A component of [10^21] *)

Section LargeComponent.

Variable d : nat -> Q.
Hypothesis unit : unit_draws d.

Lemma shift_sextillion bound :
  0 < bound <= 10 ->
  always_returns d (shift_component (Fin (10 ^ 21)) bound)
    (fun x => x = Fin (10 ^ 21)).
Proof.
  intros Hb. unfold shift_component.
  eapply returns_bind; [apply returns_random, unit|]. intros r [Hr0 Hr1].
  eapply returns_bind; [apply returns_any|]. intros s _. apply returns_ret.
  pose proof (Qfloor_scaled r bound Hr0 Hr1 ltac:(lia)) as Hc.
  set (c := Qfloor (r * inject_Z bound)) in *.
  assert (Hcases : c = 0 \/ c = 1 \/ c = 2 \/ c = 3 \/ c = 4 \/ c = 5 \/ c = 6
                   \/ c = 7 \/ c = 8 \/ c = 9) by lia.
  destruct (Qltb (1 # 2) s);
    repeat (destruct Hcases as [-> | Hcases]; [vm_compute; reflexivity|]);
    subst c; rewrite Hcases; vm_compute; reflexivity.
Qed.

(** A string that starts, after a modifier, with what [10^21] prints as. *)
Lemma exponent_not_in_grammar mo rest :
  modifier_string_ok mo -> ~ version_grammar (mo ++ "1e+21" ++ rest).
Proof.
  intros Hmo. apply opaque_iff_exec. unfold VERSION_RANGE_REGEX_exec.
  assert (Htake : take_modifier (mo ++ "1e+21" ++ rest)
                  = (if String.eqb mo "" then None else Some mo, "1e+21" ++ rest)).
  { destruct Hmo as [-> | Hin]; [reflexivity|].
    unfold range_modifiers in Hin. simpl in Hin.
    repeat (destruct Hin as [<- | Hin]; [reflexivity|]). contradiction. }
  rewrite Htake. reflexivity.
Qed.

Lemma free_mutation_of_sextillion minor_ patch_ pre aggression hints :
  always_returns d
    (free_mutation (mkMatch None sextillion minor_ patch_ pre) aggression hints)
    (fun out => ~ version_grammar out).
Proof.
  unfold free_mutation. cbv zeta. cbn [g_modifier g_major g_minor g_patch g_prerelease].
  change (Number sextillion) with (Fin (10 ^ 21)).
  eapply returns_bind; [apply returns_any|]. intros modType _.
  eapply returns_bind; [apply returns_any|]. intros r0 _.
  eapply returns_bind with (P := modifier_string_ok).
  { destruct (Qltb r0 _).
    - destruct (is_realistic _).
      + eapply returns_bind; [apply returns_any|]. intros r1 _.
        destruct (Qltb r1 _); [apply returns_ret; left; reflexivity|].
        eapply returns_bind; [apply returns_any|]. intros r2 _.
        apply returns_ret. unfold modifier_string_ok, range_modifiers.
        destruct (Qltb r2 _); simpl; auto.
      + eapply returns_bind; [apply returns_any|]. intros r1 _.
        apply returns_ret, index_modifier_ok.
    - apply returns_ret. left. reflexivity. }
  intros mo Hmo.
  eapply returns_bind; [apply returns_any|]. intros r3 _.
  eapply returns_bind with
    (P := fun t => exists b c, t = (Fin (10 ^ 21), b, c)).
  { destruct (Qltb r3 _).
    - destruct (_ && _)%bool; [|destruct (Qltb modType (7 # 10))].
      + eapply returns_bind;
          [apply (shift_sextillion MAJOR_VERSION_BOUND); unfold MAJOR_VERSION_BOUND; lia|].
        intros x ->. apply returns_ret. eauto.
      + eapply returns_bind; [apply returns_any|]. intros x _. apply returns_ret. eauto.
      + eapply returns_bind; [apply returns_any|]. intros x _. apply returns_ret. eauto.
    - apply returns_ret. eauto. }
  intros t (b & c & ->).
  eapply returns_bind with (P := fun t => modifier_string_ok (fst t)).
  { destruct (is_realistic _).
    - eapply returns_bind; [apply returns_any|]. intros r4 _.
      destruct (Qltb r4 _).
      + eapply returns_bind; [apply returns_any|]. intros r5 _.
        destruct (Qltb r5 _).
        * eapply returns_bind; [apply returns_any|]. intros r6 _.
          apply returns_ret. left. reflexivity.
        * apply returns_ret. left. reflexivity.
      + apply returns_ret. exact Hmo.
    - apply returns_ret. exact Hmo. }
  intros [mo' c'] Hmo'. apply returns_ret.
  change (ToString (Fin (10 ^ 21))) with "1e+21".
  apply exponent_not_in_grammar. exact Hmo'.
Qed.

End LargeComponent.

(** C2: the specifier ["1000000000000000000000.0.0"] is in the grammar, and
    whatever the aggression level, the draws and the hints are, as long as no
    constraint applies, the specifier the mutator returns is not: the major
    version [10^21] is printed as ["1e+21"]. *)
Theorem large_component_leaves_grammar
    (aggression : Q) (hints : Hints.t) (d : nat -> Q) (i : nat) :
  unit_draws d ->
  constraint_match hints = None ->
  version_grammar "1000000000000000000000.0.0"
  /\ ~ version_grammar
         (fst (scrambleVersion "1000000000000000000000.0.0" aggression hints d i)).
Proof.
  intros Hd Hc. split.
  - apply grammar_iff_exec. eexists. vm_compute. reflexivity.
  - unfold scrambleVersion.
    change (VERSION_RANGE_REGEX_exec "1000000000000000000000.0.0")
      with (Some (mkMatch None sextillion "0" "0" None)).
    rewrite Hc. apply free_mutation_of_sextillion, Hd.
Qed.

Lemma large_component_leaves_grammar_witness :
  (unit_draws (always (99 # 100))
   /\ constraint_match (Hints.mk None None None None) = None)
  /\ version_grammar "1000000000000000000000.0.0"
  /\ ~ version_grammar
         (fst (scrambleVersion "1000000000000000000000.0.0" 5
                 (Hints.mk None None None None) (always (99 # 100)) 0%nat)).
Proof.
  assert (H1 : unit_draws (always (99 # 100))).
  { apply always_unit; [discriminate | reflexivity]. }
  assert (H2 : constraint_match (Hints.mk None None None None) = None)
    by reflexivity.
  split; [split; assumption|].
  exact (large_component_leaves_grammar 5 (Hints.mk None None None None)
           (always (99 # 100)) 0%nat H1 H2).
Defined.

Example large_component_printed :
  scrambleVersion "1000000000000000000000.0.0" 5 (Hints.mk None None None None)
    (always (99 # 100)) 0%nat = ("1e+21.0.0", 3%nat).
Proof. vm_compute. reflexivity. Qed.

(** ** The selector and the strategist on whole manifests *)

Lemma sample_manifest_valid d :
  valid_refs (allocated (Sample.start Sample.objects d)) Sample.manifest.
Proof. intros [| | |] l [= <-]; vm_compute; eauto. Qed.

(** C1 witness: ["latest"] is opaque, and comes back as it went in. *)
Lemma opaque_specifier_unchanged_witness :
  ~ version_grammar "latest"
  /\ scrambleVersion "latest" 10 (Hints.mk None None None (Some "realistic"))
       (always 0%Q) 0%nat = ("latest", 0%nat).
Proof.
  assert (H : ~ version_grammar "latest") by (apply opaque_iff_exec; reflexivity).
  split; [exact H|].
  exact (opaque_specifier_unchanged "latest" 10
           (Hints.mk None None None (Some "realistic")) (always 0%Q) 0%nat H).
Defined.

(** C3: a [scramblePercentage] of 0, which the command line lets through,
    is replaced by 30; the only entry of the category is then still chosen
    and mutated, where zero candidates were promised. *)
Theorem zero_percent_still_selects :
  resolved_scramblePercentage
    (spread_defaults (cli_options "./package.json" true [DEPENDENCIES] 0 10)) = 30%Q
  /\ resolved_scramblePercentage
       (Sample.options [DEPENDENCIES] 0 10 "simple" []) = 30%Q
  /\ scramble_count 1 30 = 1
  /\ match scrambleDependencies Sample.binary_insertion_sort Sample.coerce
             Sample.small_manifest
             (Sample.options [DEPENDENCIES] 0 10 "simple" [])
             (Sample.start Sample.small_objects (always 0%Q)) with
     | Ok r s' =>
         entries s' (category (modified r) DEPENDENCIES)
           = Some [("express", "^4.16.1")]
         /\ result_scrambledDeps r = mkScrambled ["express"] [] [] []
         /\ result_issues r
            = ["Modified dependencies express: ^4.17.1 -> ^4.16.1"]
     | Throw _ => False
     end.
Proof.
  split; [reflexivity|]. split; [reflexivity|]. split; [reflexivity|].
  vm_compute. repeat split; reflexivity.
Qed.

(** C4, refuted as stated: with [dependencyTypes = [devDependencies]] in
    [realistic] mode the transitive strategy rewrites [dependencies]. *)
Lemma unlisted_dependencies_rewritten :
  match scrambleDependencies Sample.binary_insertion_sort Sample.coerce
          Sample.manifest
          (Sample.options [DEV_DEPENDENCIES] 100 10 "realistic" [])
          (Sample.start Sample.objects (always 0%Q)) with
  | Ok r s' =>
      entries s' (category (modified r) DEPENDENCIES)
        = Some [("react", "17.0.0"); ("webpack", "17.0.0")]
      /\ entries (Sample.start Sample.objects (always 0%Q))
           (category Sample.manifest DEPENDENCIES)
         = Some [("react", "^17.0.2"); ("webpack", "^4.0.0")]
  | Throw _ => False
  end.
Proof. vm_compute. split; reflexivity. Qed.

Section Claims.

Variable host_sort : list string -> sort_tree.
Variable coerce : string -> option SemVer.

Lemma strategist_reaches_neither mode t :
  t = DEV_DEPENDENCIES \/ t = OPTIONAL_DEPENDENCIES ->
  strategist_reaches mode t = false.
Proof. intros [-> | ->]; reflexivity. Qed.

(** C4, amended: a category that is not listed, and that the strategist does
    not reach in the mode in force, holds in the modified manifest the
    entries it has in the original. The strategist reaches [peerDependencies]
    in [peer-conflict] mode and [dependencies] in [realistic] mode. *)
Theorem unlisted_category_kept pkg options s t :
  valid_refs (allocated s) pkg ->
  ~ In t (resolved_depTypes options) ->
  strategist_reaches (resolved_conflictMode options) t = false ->
  exists r s',
    scrambleDependencies host_sort coerce pkg options s = Ok r s'
    /\ entries s' (category (modified r) t) = entries s (category pkg t).
Proof.
  intros Hv Hnot Hreach.
  destruct (scrambleDependencies_runs host_sort coerce pkg options s Hv)
    as (r & s' & E & _ & _ & _ & Hkept & _).
  exists r, s'. split; [exact E|]. apply Hkept.
  intros x Hx. unfold may_write. rewrite Hreach, orb_false_r.
  apply bool_decide_eq_false. intros ->. contradiction.
Qed.

(** C7: the selector returns, every object that existed before the call is
    unchanged after it, in particular the four category maps of the caller's
    manifest, and the manifest it returns is made of objects that did not
    exist before. *)
Theorem input_manifest_untouched pkg options s :
  valid_refs (allocated s) pkg ->
  exists r s',
    scrambleDependencies host_sort coerce pkg options s = Ok r s'
    /\ (forall l, allocated s l -> store s' !! l = store s !! l)
    /\ (forall t, entries s' (category pkg t) = entries s (category pkg t))
    /\ (forall t l, category (modified r) t = Some l -> ~ allocated s l).
Proof.
  intros Hv.
  destruct (scrambleDependencies_runs host_sort coerce pkg options s Hv)
    as (r & s' & E & _ & Hold & Hnew & _).
  exists r, s'. split; [exact E|]. split; [exact Hold|]. split.
  - intros t. destruct (category pkg t) as [l|] eqn:Hl; [|reflexivity].
    simpl. apply Hold, (Hv t), Hl.
  - intros t l Hl. apply (Hnew t l Hl).
Qed.

(** C10: a zero percentage behaves as 30, a zero aggression level as 5 and
    an empty conflict mode as ["realistic"]. *)
Theorem falsy_options_fall_back
    pkg target backup types percentage aggression constraints respect mode :
  scrambleDependencies host_sort coerce pkg
    (mkOptions target backup types (Some 0%Q) aggression constraints respect mode)
  = scrambleDependencies host_sort coerce pkg
      (mkOptions target backup types (Some 30%Q) aggression constraints respect mode)
  /\ scrambleDependencies host_sort coerce pkg
       (mkOptions target backup types percentage (Some 0%Q) constraints respect mode)
     = scrambleDependencies host_sort coerce pkg
         (mkOptions target backup types percentage (Some 5%Q) constraints respect mode)
  /\ scrambleDependencies host_sort coerce pkg
       (mkOptions target backup types percentage aggression constraints respect
          (Some ""))
     = scrambleDependencies host_sort coerce pkg
         (mkOptions target backup types percentage aggression constraints respect
            (Some "realistic")).
Proof. repeat split; reflexivity. Qed.

End Claims.

Lemma unlisted_category_kept_witness :
  let s := Sample.start Sample.objects (always 0%Q) in
  let options := Sample.options [DEV_DEPENDENCIES] 100 10 "realistic" [] in
  (valid_refs (allocated s) Sample.manifest
   /\ ~ In PEER_DEPENDENCIES (resolved_depTypes options)
   /\ strategist_reaches (resolved_conflictMode options) PEER_DEPENDENCIES = false)
  /\ exists r s',
       scrambleDependencies Sample.binary_insertion_sort Sample.coerce
         Sample.manifest options s = Ok r s'
       /\ entries s' (category (modified r) PEER_DEPENDENCIES)
          = entries s (category Sample.manifest PEER_DEPENDENCIES).
Proof.
  intros s options.
  assert (H1 : valid_refs (allocated s) Sample.manifest)
    by apply sample_manifest_valid.
  assert (H2 : ~ In PEER_DEPENDENCIES (resolved_depTypes options)).
  { simpl. intros [H|[]]. discriminate H. }
  assert (H3 : strategist_reaches (resolved_conflictMode options)
                 PEER_DEPENDENCIES = false) by reflexivity.
  split; [repeat split; assumption|].
  exact (unlisted_category_kept Sample.binary_insertion_sort Sample.coerce
           Sample.manifest options s PEER_DEPENDENCIES H1 H2 H3).
Defined.

Lemma input_manifest_untouched_witness :
  let s := Sample.start Sample.objects (always 0%Q) in
  let options := Sample.options [DEPENDENCIES; PEER_DEPENDENCIES] 100 10 "realistic" [] in
  valid_refs (allocated s) Sample.manifest
  /\ exists r s',
       scrambleDependencies Sample.binary_insertion_sort Sample.coerce
         Sample.manifest options s = Ok r s'
       /\ (forall l, allocated s l -> store s' !! l = store s !! l)
       /\ (forall t, entries s' (category Sample.manifest t)
                     = entries s (category Sample.manifest t))
       /\ (forall t l, category (modified r) t = Some l -> ~ allocated s l).
Proof.
  intros s options.
  assert (H1 : valid_refs (allocated s) Sample.manifest)
    by apply sample_manifest_valid.
  split; [exact H1|].
  exact (input_manifest_untouched Sample.binary_insertion_sort Sample.coerce
           Sample.manifest options s H1).
Defined.


(** * Further properties of the code *)

(** ** The matcher *)

(** A string matches with the groups [m] exactly when [m] is well formed and
    its groups, put end to end, are the string: matching and putting together
    are inverse to each other, and no string matches in two ways. *)
Theorem regex_groups_roundtrip (s : string) (m : RegExpMatch) :
  VERSION_RANGE_REGEX_exec s = Some m <-> well_formed m /\ assemble m = s.
Proof.
  split.
  - intros H. apply exec_sound in H. destruct H as [Hwf ->]. auto.
  - intros [Hwf <-]. apply exec_complete, Hwf.
Qed.

(** ** The shape of a mutated specifier *)

Section MutationShape.

Variable d : nat -> Q.
Hypothesis unit : unit_draws d.

Lemma returns_shift_close n b :
  0 <= n -> 0 < b -> n + b < 2 ^ 53 ->
  always_returns d (shift_component (Fin n) b)
    (fun x => exists n', x = Fin n' /\ 0 <= n' /\ n - b <= n' <= n + b).
Proof.
  intros Hn Hb Hsafe. unfold shift_component.
  eapply returns_bind; [apply returns_random, unit|]. intros r [Hr0 Hr1].
  eapply returns_bind; [apply returns_any|]. intros s _.
  apply returns_ret.
  pose proof (Qfloor_scaled r b Hr0 Hr1 Hb) as Hc.
  set (c := Qfloor (r * inject_Z b)) in *.
  destruct (Qltb (1 # 2) s); cbn [js_add js_sub js_neg];
    rewrite round_double_small by lia; cbn [Math_max];
    eexists; (split; [reflexivity | lia]).
Qed.

(** What the free mutation returns for a match with small components
    [ma.mi.pa]: a modifier, three numbers and the prerelease of the input. *)
Lemma free_mutation_shape m aggression hints ma mi pa :
  well_formed m ->
  Number (g_major m) = Fin ma -> 0 <= ma < 2 ^ 53 - 13 ->
  Number (g_minor m) = Fin mi -> 0 <= mi < 2 ^ 53 - 13 ->
  Number (g_patch m) = Fin pa -> 0 <= pa < 2 ^ 53 - 13 ->
  always_returns d (free_mutation m aggression hints)
    (fun out => exists mo a b c,
       out = mo ++ ToString (Fin a) ++ "." ++ ToString (Fin b) ++ "."
                ++ ToString (Fin c) ++ or_empty (g_prerelease m)
       /\ modifier_string_ok mo
       /\ (is_realistic (Hints.conflictMode hints) = true ->
           mo = or_empty (g_modifier m) \/ mo = "" \/ mo = "~" \/ mo = "^")
       /\ (0 <= a /\ ma - 3 <= a <= ma + 3)
       /\ (0 <= b /\ mi - 5 <= b <= mi + 5)
       /\ (0 <= c /\ pa - 10 <= c <= pa + 13)
       /\ (falsy_flag (Hints.respectMajorVersion hints) = false
           \/ is_realistic (Hints.conflictMode hints) = true -> a = ma)
       /\ (is_realistic (Hints.conflictMode hints) = false ->
           (a = ma /\ b = mi) \/ (a = ma /\ c = pa) \/ (b = mi /\ c = pa))).
Proof.
  intros Hwf Ema Hma Emi Hmi Epa Hpa.
  unfold free_mutation. cbv zeta. rewrite Ema, Emi, Epa.
  eapply returns_bind; [apply returns_any|]. intros modType _.
  eapply returns_bind; [apply returns_any|]. intros r0 _.
  eapply returns_bind with
    (P := fun mo => modifier_string_ok mo
                    /\ (is_realistic (Hints.conflictMode hints) = true ->
                        mo = or_empty (g_modifier m) \/ mo = "" \/ mo = "~" \/ mo = "^")).
  { destruct (Qltb r0 _).
    - destruct (is_realistic _) eqn:Hreal.
      + eapply returns_bind; [apply returns_any|]. intros r1 _.
        destruct (Qltb r1 _).
        { apply returns_ret. split; [left; reflexivity | auto]. }
        eapply returns_bind; [apply returns_any|]. intros r2 _.
        apply returns_ret. unfold modifier_string_ok, range_modifiers.
        destruct (Qltb r2 _); simpl; auto 10.
      + eapply returns_bind; [apply returns_any|]. intros r1 _.
        apply returns_ret. split; [apply index_modifier_ok | discriminate].
    - apply returns_ret. split; [apply modifier_of_match, Hwf | auto]. }
  intros mo [Hmo Hmo'].
  eapply returns_bind; [apply returns_any|]. intros r3 _.
  eapply returns_bind with
    (P := fun t => exists a b c, t = (Fin a, Fin b, Fin c)
            /\ (0 <= a /\ ma - 3 <= a <= ma + 3)
            /\ (0 <= b /\ mi - 5 <= b <= mi + 5)
            /\ (0 <= c /\ pa - 10 <= c <= pa + 10)
            /\ (falsy_flag (Hints.respectMajorVersion hints) = false
                \/ is_realistic (Hints.conflictMode hints) = true -> a = ma)
            /\ ((a = ma /\ b = mi) \/ (a = ma /\ c = pa) \/ (b = mi /\ c = pa))).
  { destruct (Qltb r3 _).
    - destruct (_ && _)%bool eqn:Hmajor; [|destruct (Qltb modType (7 # 10))].
      + apply andb_true_iff in Hmajor as [_ Hmajor].
        apply andb_true_iff in Hmajor as [Hflag Hreal].
        apply negb_true_iff in Hreal.
        eapply returns_bind;
          [apply (returns_shift_close ma MAJOR_VERSION_BOUND);
           unfold MAJOR_VERSION_BOUND; lia|].
        intros x (n' & -> & Hn'). apply returns_ret.
        unfold MAJOR_VERSION_BOUND in Hn'. exists n', mi, pa.
        repeat split; try lia; auto.
        intros [H|H]; congruence.
      + eapply returns_bind;
          [apply (returns_shift_close mi MINOR_VERSION_BOUND);
           unfold MINOR_VERSION_BOUND; lia|].
        intros x (n' & -> & Hn'). apply returns_ret.
        unfold MINOR_VERSION_BOUND in Hn'. exists ma, n', pa.
        repeat split; try lia; auto.
      + eapply returns_bind;
          [apply (returns_shift_close pa PATCH_VERSION_BOUND);
           unfold PATCH_VERSION_BOUND; lia|].
        intros x (n' & -> & Hn'). apply returns_ret.
        unfold PATCH_VERSION_BOUND in Hn'. exists ma, mi, n'.
        repeat split; try lia; auto.
    - apply returns_ret. exists ma, mi, pa. repeat split; try lia; auto. }
  intros t (a & b & c & -> & Ha & Hb & Hc & Hkeep & Hone).
  eapply returns_bind with
    (P := fun t => exists mo' c', t = (mo', Fin c')
            /\ modifier_string_ok mo'
            /\ (is_realistic (Hints.conflictMode hints) = true ->
                mo' = or_empty (g_modifier m) \/ mo' = "" \/ mo' = "~" \/ mo' = "^")
            /\ (0 <= c' /\ pa - 10 <= c' <= pa + 13)
            /\ (is_realistic (Hints.conflictMode hints) = false -> c' = c)).
  { destruct (is_realistic _) eqn:Hreal.
    - eapply returns_bind; [apply returns_any|]. intros r4 _.
      destruct (Qltb r4 _).
      + eapply returns_bind; [apply returns_any|]. intros r5 _.
        destruct (Qltb r5 _).
        * eapply returns_bind; [apply returns_random, unit|]. intros r6 [H0 H1].
          apply returns_ret.
          pose proof (Qfloor_scaled r6 3 H0 H1 ltac:(lia)) as Hk.
          change (inject_Z 3) with 3%Q in Hk.
          cbn [js_add]. rewrite round_double_small by lia.
          cbn [js_add]. rewrite round_double_small by lia.
          eexists "", _. split; [reflexivity|].
          split; [left; reflexivity|]. split; [auto|].
          split; [lia | discriminate].
        * apply returns_ret. exists "", c. split; [reflexivity|].
          split; [left; reflexivity|]. split; [auto|]. split; [lia | auto].
      + apply returns_ret. exists mo, c. repeat split; try lia; auto.
    - apply returns_ret. exists mo, c. repeat split; try lia; auto. }
  intros t (mo' & c' & -> & Hmo1 & Hmo2 & Hc' & Hsame). apply returns_ret.
  exists mo', a, b, c'. split; [reflexivity|].
  repeat split; try lia; auto.
  intros Hreal. rewrite (Hsame Hreal). exact Hone.
Qed.

End MutationShape.

Section ParsedResult.

Lemma parts_parsed mo a b c pre :
  modifier_string_ok mo -> digits1 a = true -> digits1 b = true ->
  digits1 c = true -> prerelease_ok pre ->
  exists m,
    VERSION_RANGE_REGEX_exec (mo ++ a ++ "." ++ b ++ "." ++ c ++ or_empty pre)
    = Some m
    /\ or_empty (g_modifier m) = mo /\ g_major m = a /\ g_minor m = b
    /\ g_patch m = c /\ g_prerelease m = pre.
Proof.
  intros [->|Hm] Ha Hb Hc Hp.
  - exists (mkMatch None a b c pre). split; [|repeat split].
    apply (exec_complete (mkMatch None a b c pre)).
    unfold well_formed. simpl. tauto.
  - exists (mkMatch (Some mo) a b c pre). split; [|repeat split].
    apply (exec_complete (mkMatch (Some mo) a b c pre)).
    unfold well_formed. simpl. tauto.
Qed.

Variable d : nat -> Q.
Hypothesis unit : unit_draws d.

(** The free mutation, read back through the matcher. *)
Lemma free_mutation_parsed m aggression hints ma mi pa :
  well_formed m ->
  Number (g_major m) = Fin ma -> 0 <= ma < 2 ^ 53 - 13 ->
  Number (g_minor m) = Fin mi -> 0 <= mi < 2 ^ 53 - 13 ->
  Number (g_patch m) = Fin pa -> 0 <= pa < 2 ^ 53 - 13 ->
  always_returns d (free_mutation m aggression hints)
    (fun out => exists m' a b c,
       VERSION_RANGE_REGEX_exec out = Some m'
       /\ Number (g_major m') = Fin a /\ Number (g_minor m') = Fin b
       /\ Number (g_patch m') = Fin c
       /\ g_prerelease m' = g_prerelease m
       /\ (is_realistic (Hints.conflictMode hints) = true ->
           In (or_empty (g_modifier m')) [or_empty (g_modifier m); ""; "~"; "^"])
       /\ (0 <= a /\ ma - 3 <= a <= ma + 3)
       /\ (0 <= b /\ mi - 5 <= b <= mi + 5)
       /\ (0 <= c /\ pa - 10 <= c <= pa + 13)
       /\ (falsy_flag (Hints.respectMajorVersion hints) = false
           \/ is_realistic (Hints.conflictMode hints) = true -> a = ma)
       /\ (is_realistic (Hints.conflictMode hints) = false ->
           (a = ma /\ b = mi) \/ (a = ma /\ c = pa) \/ (b = mi /\ c = pa))).
Proof.
  intros Hwf Ema Hma Emi Hmi Epa Hpa.
  eapply returns_weaken;
    [apply (free_mutation_shape d unit m aggression hints ma mi pa); assumption|].
  intros out (mo & a & b & c & -> & Hmo & Hreal & Ha & Hb & Hc & Hkeep & Hone).
  destruct (parts_parsed mo (ToString (Fin a)) (ToString (Fin b))
              (ToString (Fin c)) (g_prerelease m))
    as (m' & Hexec & Hmod & Hmaj & Hmin & Hpat & Hpre);
    try (apply ToString_digits; lia); [assumption | apply Hwf |].
  exists m', a, b, c. split; [exact Hexec|].
  rewrite Hmaj, Hmin, Hpat, Hmod.
  repeat split; try (apply Number_ToString; lia); try lia; auto.
  intros H. destruct (Hreal H) as [-> | [-> | [-> | ->]]]; simpl; auto.
Qed.

End ParsedResult.

(** ** What the free mutation keeps *)

Lemma free_path s m aggression hints d i :
  VERSION_RANGE_REGEX_exec s = Some m -> constraint_match hints = None ->
  scrambleVersion s aggression hints d i = free_mutation m aggression hints d i.
Proof. intros Hs Hc. unfold scrambleVersion. rewrite Hs, Hc. reflexivity. Qed.

Lemma realistic_hint hints :
  Hints.conflictMode hints = Some "realistic" ->
  is_realistic (Hints.conflictMode hints) = true.
Proof. intros ->. reflexivity. Qed.

(** When the caller asks to respect major versions, or in [realistic] mode,
    the free mutation leaves the major version as it is. *)
Theorem protected_major_is_kept
    (s : string) (m : RegExpMatch) (aggression : Q) (hints : Hints.t)
    (d : nat -> Q) (i : nat) :
  unit_draws d ->
  VERSION_RANGE_REGEX_exec s = Some m -> small_match m ->
  constraint_match hints = None ->
  Hints.respectMajorVersion hints = Some true
  \/ Hints.conflictMode hints = Some "realistic" ->
  exists m',
    VERSION_RANGE_REGEX_exec (fst (scrambleVersion s aggression hints d i)) = Some m'
    /\ Number (g_major m') = Number (g_major m).
Proof.
  intros Hd Hs ((ma & Ema & Hma) & (mi & Emi & Hmi) & (pa & Epa & Hpa)) Hc Hprot.
  rewrite (free_path s m) by assumption.
  destruct (free_mutation_parsed d Hd m aggression hints ma mi pa) with (i := i)
    as (m' & a & b & c & Hexec & Ha & _ & _ & _ & _ & _ & _ & _ & Hkeep & _);
    try assumption.
  { apply exec_sound in Hs. tauto. }
  exists m'. split; [exact Hexec|]. rewrite Ha, Ema. f_equal. apply Hkeep.
  destruct Hprot as [H|H]; [left; rewrite H; reflexivity | right; apply realistic_hint, H].
Qed.

(** The free mutation carries the prerelease suffix over, letter for letter. *)
Theorem prerelease_is_kept
    (s : string) (m : RegExpMatch) (aggression : Q) (hints : Hints.t)
    (d : nat -> Q) (i : nat) :
  unit_draws d ->
  VERSION_RANGE_REGEX_exec s = Some m -> small_match m ->
  constraint_match hints = None ->
  exists m',
    VERSION_RANGE_REGEX_exec (fst (scrambleVersion s aggression hints d i)) = Some m'
    /\ g_prerelease m' = g_prerelease m.
Proof.
  intros Hd Hs ((ma & Ema & Hma) & (mi & Emi & Hmi) & (pa & Epa & Hpa)) Hc.
  rewrite (free_path s m) by assumption.
  destruct (free_mutation_parsed d Hd m aggression hints ma mi pa) with (i := i)
    as (m' & a & b & c & Hexec & _ & _ & _ & Hpre & _); try assumption.
  { apply exec_sound in Hs. tauto. }
  exists m'. split; assumption.
Qed.

(** For components below [2^53 - 13] and draws in [0,1): no component goes
    below zero, the major version moves by at most 3, the minor version by at
    most 5, and the patch version by at most 10 down and 13 up (10 from the
    shift, 3 from the pin of [realistic] mode). Larger components are rounded
    as doubles and can move further. *)
Theorem components_move_within_bounds
    (s : string) (m : RegExpMatch) (aggression : Q) (hints : Hints.t)
    (d : nat -> Q) (i : nat) (ma mi pa : Z) :
  unit_draws d ->
  VERSION_RANGE_REGEX_exec s = Some m ->
  constraint_match hints = None ->
  Number (g_major m) = Fin ma -> 0 <= ma < 2 ^ 53 - 13 ->
  Number (g_minor m) = Fin mi -> 0 <= mi < 2 ^ 53 - 13 ->
  Number (g_patch m) = Fin pa -> 0 <= pa < 2 ^ 53 - 13 ->
  exists m' a b c,
    VERSION_RANGE_REGEX_exec (fst (scrambleVersion s aggression hints d i)) = Some m'
    /\ Number (g_major m') = Fin a /\ Number (g_minor m') = Fin b
    /\ Number (g_patch m') = Fin c
    /\ Z.max 0 (ma - 3) <= a <= ma + 3
    /\ Z.max 0 (mi - 5) <= b <= mi + 5
    /\ Z.max 0 (pa - 10) <= c <= pa + 13.
Proof.
  intros Hd Hs Hc Ema Hma Emi Hmi Epa Hpa.
  rewrite (free_path s m) by assumption.
  destruct (free_mutation_parsed d Hd m aggression hints ma mi pa) with (i := i)
    as (m' & a & b & c & Hexec & Ha & Hb & Hc' & _ & _ & Ba & Bb & Bc & _);
    try assumption.
  { apply exec_sound in Hs. tauto. }
  exists m', a, b, c. repeat split; try assumption; lia.
Qed.

(** For components below [2^53 - 13] and draws in [0,1): outside
    [realistic] mode one call changes at most one of the three numbers. A
    larger component can change by being read as a double. *)
Theorem one_component_at_a_time
    (s : string) (m : RegExpMatch) (aggression : Q) (hints : Hints.t)
    (d : nat -> Q) (i : nat) :
  unit_draws d ->
  VERSION_RANGE_REGEX_exec s = Some m -> small_match m ->
  constraint_match hints = None ->
  is_realistic (Hints.conflictMode hints) = false ->
  exists m',
    VERSION_RANGE_REGEX_exec (fst (scrambleVersion s aggression hints d i)) = Some m'
    /\ ((Number (g_major m') = Number (g_major m)
         /\ Number (g_minor m') = Number (g_minor m))
        \/ (Number (g_major m') = Number (g_major m)
            /\ Number (g_patch m') = Number (g_patch m))
        \/ (Number (g_minor m') = Number (g_minor m)
            /\ Number (g_patch m') = Number (g_patch m))).
Proof.
  intros Hd Hs ((ma & Ema & Hma) & (mi & Emi & Hmi) & (pa & Epa & Hpa)) Hc Hmode.
  rewrite (free_path s m) by assumption.
  destruct (free_mutation_parsed d Hd m aggression hints ma mi pa) with (i := i)
    as (m' & a & b & c & Hexec & Ha & Hb & Hc' & _ & _ & _ & _ & _ & _ & Hone);
    try assumption.
  { apply exec_sound in Hs. tauto. }
  exists m'. split; [exact Hexec|]. rewrite Ha, Hb, Hc', Ema, Emi, Epa.
  destruct (Hone Hmode) as [[-> ->] | [[-> ->] | [-> ->]]]; auto.
Qed.

(** For components below [2^53 - 13] and draws in [0,1): in [realistic]
    mode the result is a specifier of the grammar whose range modifier is the
    one of the input, none, [~] or [^]; the comparison modifiers are never
    introduced. *)
Theorem realistic_modifier_is_tight
    (s : string) (m : RegExpMatch) (aggression : Q) (hints : Hints.t)
    (d : nat -> Q) (i : nat) :
  unit_draws d ->
  VERSION_RANGE_REGEX_exec s = Some m -> small_match m ->
  constraint_match hints = None ->
  Hints.conflictMode hints = Some "realistic" ->
  exists m',
    VERSION_RANGE_REGEX_exec (fst (scrambleVersion s aggression hints d i)) = Some m'
    /\ In (or_empty (g_modifier m')) [or_empty (g_modifier m); ""; "~"; "^"].
Proof.
  intros Hd Hs ((ma & Ema & Hma) & (mi & Emi & Hmi) & (pa & Epa & Hpa)) Hc Hmode.
  rewrite (free_path s m) by assumption.
  destruct (free_mutation_parsed d Hd m aggression hints ma mi pa) with (i := i)
    as (m' & a & b & c & Hexec & _ & _ & _ & _ & Hmod & _); try assumption.
  { apply exec_sound in Hs. tauto. }
  exists m'. split; [exact Hexec | apply Hmod, realistic_hint, Hmode].
Qed.

Lemma demo_draws : unit_draws Demo.thirds.
Proof. apply always_unit; [discriminate | reflexivity]. Qed.

Lemma demo_small : small_match Demo.groups.
Proof.
  repeat split;
    [apply (small_component_intro _ 1) | apply (small_component_intro _ 2)
     | apply (small_component_intro _ 3)]; (reflexivity || discriminate).
Qed.

Lemma protected_major_is_kept_witness :
  (unit_draws Demo.thirds /\ VERSION_RANGE_REGEX_exec Demo.specifier = Some Demo.groups /\ small_match Demo.groups
   /\ constraint_match Demo.realistic = None
   /\ (Hints.respectMajorVersion Demo.realistic = Some true
       \/ Hints.conflictMode Demo.realistic = Some "realistic"))
  /\ exists m',
       VERSION_RANGE_REGEX_exec (fst (scrambleVersion Demo.specifier 10 Demo.realistic Demo.thirds 0%nat)) = Some m'
       /\ Number (g_major m') = Number (g_major Demo.groups).
Proof.
  assert (H1 : unit_draws Demo.thirds) by exact demo_draws.
  assert (H2 : VERSION_RANGE_REGEX_exec Demo.specifier = Some Demo.groups) by reflexivity.
  assert (H3 : small_match Demo.groups) by exact demo_small.
  assert (H4 : constraint_match Demo.realistic = None) by reflexivity.
  assert (H5 : Hints.respectMajorVersion Demo.realistic = Some true
               \/ Hints.conflictMode Demo.realistic = Some "realistic")
    by (right; reflexivity).
  split; [tauto|].
  exact (protected_major_is_kept Demo.specifier Demo.groups 10 Demo.realistic Demo.thirds 0%nat H1 H2 H3 H4 H5).
Defined.

Lemma prerelease_is_kept_witness :
  (unit_draws Demo.thirds /\ VERSION_RANGE_REGEX_exec Demo.specifier = Some Demo.groups /\ small_match Demo.groups
   /\ constraint_match Demo.realistic = None)
  /\ exists m',
       VERSION_RANGE_REGEX_exec (fst (scrambleVersion Demo.specifier 10 Demo.realistic Demo.thirds 0%nat)) = Some m'
       /\ g_prerelease m' = g_prerelease Demo.groups.
Proof.
  assert (H1 : unit_draws Demo.thirds) by exact demo_draws.
  assert (H2 : VERSION_RANGE_REGEX_exec Demo.specifier = Some Demo.groups) by reflexivity.
  assert (H3 : small_match Demo.groups) by exact demo_small.
  assert (H4 : constraint_match Demo.realistic = None) by reflexivity.
  split; [tauto|].
  exact (prerelease_is_kept Demo.specifier Demo.groups 10 Demo.realistic Demo.thirds 0%nat H1 H2 H3 H4).
Defined.

Lemma components_move_within_bounds_witness :
  (unit_draws Demo.thirds /\ VERSION_RANGE_REGEX_exec Demo.specifier = Some Demo.groups
   /\ constraint_match Demo.realistic = None
   /\ Number (g_major Demo.groups) = Fin 1 /\ 0 <= 1 < 2 ^ 53 - 13
   /\ Number (g_minor Demo.groups) = Fin 2 /\ 0 <= 2 < 2 ^ 53 - 13
   /\ Number (g_patch Demo.groups) = Fin 3 /\ 0 <= 3 < 2 ^ 53 - 13)
  /\ exists m' a b c,
       VERSION_RANGE_REGEX_exec (fst (scrambleVersion Demo.specifier 10 Demo.realistic Demo.thirds 0%nat)) = Some m'
       /\ Number (g_major m') = Fin a /\ Number (g_minor m') = Fin b
       /\ Number (g_patch m') = Fin c
       /\ Z.max 0 (1 - 3) <= a <= 1 + 3
       /\ Z.max 0 (2 - 5) <= b <= 2 + 5
       /\ Z.max 0 (3 - 10) <= c <= 3 + 13.
Proof.
  assert (H1 : unit_draws Demo.thirds) by exact demo_draws.
  assert (H2 : VERSION_RANGE_REGEX_exec Demo.specifier = Some Demo.groups) by reflexivity.
  assert (H4 : constraint_match Demo.realistic = None) by reflexivity.
  assert (Ea : Number (g_major Demo.groups) = Fin 1) by reflexivity.
  assert (Eb : Number (g_minor Demo.groups) = Fin 2) by reflexivity.
  assert (Ec : Number (g_patch Demo.groups) = Fin 3) by reflexivity.
  assert (Ba : 0 <= 1 < 2 ^ 53 - 13) by (split; [discriminate | reflexivity]).
  assert (Bb : 0 <= 2 < 2 ^ 53 - 13) by (split; [discriminate | reflexivity]).
  assert (Bc : 0 <= 3 < 2 ^ 53 - 13) by (split; [discriminate | reflexivity]).
  split; [tauto|].
  exact (components_move_within_bounds Demo.specifier Demo.groups 10 Demo.realistic Demo.thirds 0%nat 1 2 3
           H1 H2 H4 Ea Ba Eb Bb Ec Bc).
Defined.

Lemma one_component_at_a_time_witness :
  (unit_draws Demo.thirds /\ VERSION_RANGE_REGEX_exec Demo.specifier = Some Demo.groups /\ small_match Demo.groups
   /\ constraint_match Demo.simple = None
   /\ is_realistic (Hints.conflictMode Demo.simple) = false)
  /\ exists m',
       VERSION_RANGE_REGEX_exec (fst (scrambleVersion Demo.specifier 10 Demo.simple Demo.thirds 0%nat)) = Some m'
       /\ ((Number (g_major m') = Number (g_major Demo.groups)
            /\ Number (g_minor m') = Number (g_minor Demo.groups))
           \/ (Number (g_major m') = Number (g_major Demo.groups)
               /\ Number (g_patch m') = Number (g_patch Demo.groups))
           \/ (Number (g_minor m') = Number (g_minor Demo.groups)
               /\ Number (g_patch m') = Number (g_patch Demo.groups))).
Proof.
  assert (H1 : unit_draws Demo.thirds) by exact demo_draws.
  assert (H2 : VERSION_RANGE_REGEX_exec Demo.specifier = Some Demo.groups) by reflexivity.
  assert (H3 : small_match Demo.groups) by exact demo_small.
  assert (H4 : constraint_match Demo.simple = None) by reflexivity.
  assert (H5 : is_realistic (Hints.conflictMode Demo.simple) = false) by reflexivity.
  split; [tauto|].
  exact (one_component_at_a_time Demo.specifier Demo.groups 10 Demo.simple Demo.thirds 0%nat H1 H2 H3 H4 H5).
Defined.

Lemma realistic_modifier_is_tight_witness :
  (unit_draws Demo.thirds /\ VERSION_RANGE_REGEX_exec Demo.specifier = Some Demo.groups /\ small_match Demo.groups
   /\ constraint_match Demo.realistic = None
   /\ Hints.conflictMode Demo.realistic = Some "realistic")
  /\ exists m',
       VERSION_RANGE_REGEX_exec (fst (scrambleVersion Demo.specifier 10 Demo.realistic Demo.thirds 0%nat)) = Some m'
       /\ In (or_empty (g_modifier m')) [or_empty (g_modifier Demo.groups); ""; "~"; "^"].
Proof.
  assert (H1 : unit_draws Demo.thirds) by exact demo_draws.
  assert (H2 : VERSION_RANGE_REGEX_exec Demo.specifier = Some Demo.groups) by reflexivity.
  assert (H3 : small_match Demo.groups) by exact demo_small.
  assert (H4 : constraint_match Demo.realistic = None) by reflexivity.
  assert (H5 : Hints.conflictMode Demo.realistic = Some "realistic") by reflexivity.
  split; [tauto|].
  exact (realistic_modifier_is_tight Demo.specifier Demo.groups 10 Demo.realistic Demo.thirds 0%nat H1 H2 H3 H4 H5).
Defined.


(** ** What the constraint path returns *)

Section ConstraintShape.

Variable d : nat -> Q.
Hypothesis unit : unit_draws d.

Lemma within_constraint_parsed mo ma mi pa aggression :
  modifier_string_ok mo ->
  0 <= ma < 2 ^ 53 - 13 -> 0 <= mi < 2 ^ 53 - 13 -> 0 <= pa < 2 ^ 53 - 13 ->
  always_returns d
    (createVersionWithinConstraint mo (Fin ma) (Fin mi) (Fin pa) aggression)
    (fun out => exists m b c,
       VERSION_RANGE_REGEX_exec out = Some m
       /\ Number (g_major m) = Fin ma /\ Number (g_minor m) = Fin b
       /\ Number (g_patch m) = Fin c
       /\ g_prerelease m = None
       /\ In (or_empty (g_modifier m)) [mo; "~"; ""; "^"; "="]
       /\ Z.max 0 (mi - 5) <= b <= mi + 5
       /\ Z.max 0 (pa - 10) <= c <= pa + 10
       /\ (b = mi \/ c = pa)).
Proof.
  intros Hmo Hma Hmi Hpa. unfold createVersionWithinConstraint.
  eapply returns_bind; [apply returns_random, unit|]. intros r0 _.
  eapply returns_bind with
    (P := fun t => exists mo' b c, t = (mo', Fin b, Fin c)
            /\ modifier_string_ok mo' /\ In mo' [mo; "~"; ""; "^"; "="]
            /\ Z.max 0 (mi - 5) <= b <= mi + 5
            /\ Z.max 0 (pa - 10) <= c <= pa + 10
            /\ (b = mi \/ c = pa)).
  - destruct (Qltb r0 _).
    + eapply returns_bind; [apply returns_any|]. intros r1 _.
      set (mo' := if String.eqb mo "^" then _ else _).
      assert (Hnew : modifier_string_ok mo' /\ In mo' [mo; "~"; ""; "^"; "="]).
      { unfold mo', modifier_string_ok, range_modifiers.
        destruct (String.eqb mo "^"), (String.eqb mo "~"), (Qltb r1 (6 # 10)),
          (Qltb r1 (7 # 10)), (Qltb r1 (3 # 10)); simpl; auto 10. }
      clearbody mo'. destruct Hnew as [Hok Hin].
      eapply returns_bind; [apply returns_any|]. intros r2 _.
      destruct (Qltb r2 _).
      * eapply returns_bind;
          [apply (returns_shift_close d unit mi MINOR_VERSION_BOUND);
           unfold MINOR_VERSION_BOUND; lia|].
        intros x (n' & -> & Hn'). apply returns_ret.
        unfold MINOR_VERSION_BOUND in Hn'. exists mo', n', pa.
        repeat split; try lia; auto.
      * eapply returns_bind;
          [apply (returns_shift_close d unit pa PATCH_VERSION_BOUND);
           unfold PATCH_VERSION_BOUND; lia|].
        intros x (n' & -> & Hn'). apply returns_ret.
        unfold PATCH_VERSION_BOUND in Hn'. exists mo', mi, n'.
        repeat split; try lia; auto.
    + apply returns_ret. exists mo, mi, pa. repeat split; try lia; simpl; auto.
  - intros t (mo' & b & c & -> & Hok & Hin & Hb & Hc & Hone). apply returns_ret.
    destruct (parts_parsed mo' (ToString (Fin ma)) (ToString (Fin b))
                (ToString (Fin c)) None)
      as (m & Hexec & Hmod & Hmaj & Hmin & Hpat & Hpre);
      try (apply ToString_digits; lia); [assumption | exact I |].
    cbn [or_empty] in Hexec. rewrite append_nil_r in Hexec.
    exists m, b, c. split; [exact Hexec|]. rewrite Hmaj, Hmin, Hpat, Hmod.
    repeat split; try (apply Number_ToString; lia); try lia; auto.
Qed.

End ConstraintShape.

Lemma constraint_path s m c aggression hints d i :
  VERSION_RANGE_REGEX_exec s = Some m -> constraint_match hints = Some c ->
  scrambleVersion s aggression hints d i
  = createVersionWithinConstraint (or_empty (g_modifier c)) (Number (g_major c))
      (Number (g_minor c)) (Number (g_patch c)) aggression d i.
Proof. intros Hs Hc. unfold scrambleVersion. rewrite Hs, Hc. reflexivity. Qed.

(** Under a valid constraint whose components are below [2^53 - 13], and
    for draws in [0,1), the numbers of the result are those of the
    constraint, not those of the package's own specifier: the major version is
    the constraint's, the minor version is within 5 and the patch version
    within 10 of the constraint's, and one of the two is untouched. *)
Theorem constraint_replaces_version
    (s : string) (m c : RegExpMatch) (aggression : Q) (hints : Hints.t)
    (d : nat -> Q) (i : nat) (ma mi pa : Z) :
  unit_draws d ->
  VERSION_RANGE_REGEX_exec s = Some m ->
  constraint_match hints = Some c ->
  Number (g_major c) = Fin ma -> 0 <= ma < 2 ^ 53 - 13 ->
  Number (g_minor c) = Fin mi -> 0 <= mi < 2 ^ 53 - 13 ->
  Number (g_patch c) = Fin pa -> 0 <= pa < 2 ^ 53 - 13 ->
  exists m' b' c',
    VERSION_RANGE_REGEX_exec (fst (scrambleVersion s aggression hints d i)) = Some m'
    /\ Number (g_major m') = Fin ma
    /\ Number (g_minor m') = Fin b' /\ Number (g_patch m') = Fin c'
    /\ Z.max 0 (mi - 5) <= b' <= mi + 5
    /\ Z.max 0 (pa - 10) <= c' <= pa + 10
    /\ (b' = mi \/ c' = pa).
Proof.
  intros Hd Hs Hc Ema Hma Emi Hmi Epa Hpa.
  rewrite (constraint_path s m c) by assumption. rewrite Ema, Emi, Epa.
  destruct (within_constraint_parsed d Hd (or_empty (g_modifier c)) ma mi pa
              aggression) with (i := i)
    as (m' & b' & c' & Hexec & Ha & Hb & Hc' & _ & _ & Bb & Bc & Hone);
    try assumption.
  { apply modifier_of_match, (constraint_match_sound hints), Hc. }
  exists m', b', c'. repeat split; try assumption; lia.
Qed.

(** Under a valid constraint whose components are below [2^53 - 13], and
    for draws in [0,1), the result is a specifier of the grammar without
    prerelease suffix, whatever the package's specifier and the constraint
    carry, and its modifier is the constraint's, none, [~], [^] or [=]. *)
Theorem constraint_drops_prerelease
    (s : string) (m c : RegExpMatch) (aggression : Q) (hints : Hints.t)
    (d : nat -> Q) (i : nat) :
  unit_draws d ->
  VERSION_RANGE_REGEX_exec s = Some m ->
  constraint_match hints = Some c -> small_match c ->
  exists m',
    VERSION_RANGE_REGEX_exec (fst (scrambleVersion s aggression hints d i)) = Some m'
    /\ g_prerelease m' = None
    /\ In (or_empty (g_modifier m')) [or_empty (g_modifier c); "~"; ""; "^"; "="].
Proof.
  intros Hd Hs Hc ((ma & Ema & Hma) & (mi & Emi & Hmi) & (pa & Epa & Hpa)).
  rewrite (constraint_path s m c) by assumption. rewrite Ema, Emi, Epa.
  destruct (within_constraint_parsed d Hd (or_empty (g_modifier c)) ma mi pa
              aggression) with (i := i)
    as (m' & b' & c' & Hexec & _ & _ & _ & Hpre & Hmod & _); try assumption.
  { apply modifier_of_match, (constraint_match_sound hints), Hc. }
  exists m'. repeat split; assumption.
Qed.

Lemma demo_constraint : constraint_match Demo.constrained = Some Demo.constraint_groups.
Proof. reflexivity. Qed.

Lemma demo_specifier : VERSION_RANGE_REGEX_exec Demo.specifier = Some Demo.groups.
Proof. reflexivity. Qed.

Lemma constraint_replaces_version_witness :
  (unit_draws Demo.thirds
   /\ VERSION_RANGE_REGEX_exec Demo.specifier = Some Demo.groups
   /\ constraint_match Demo.constrained = Some Demo.constraint_groups
   /\ Number (g_major Demo.constraint_groups) = Fin 14 /\ 0 <= 14 < 2 ^ 53 - 13
   /\ Number (g_minor Demo.constraint_groups) = Fin 0 /\ 0 <= 0 < 2 ^ 53 - 13
   /\ Number (g_patch Demo.constraint_groups) = Fin 0 /\ 0 <= 0 < 2 ^ 53 - 13)
  /\ exists m' b' c',
       VERSION_RANGE_REGEX_exec
         (fst (scrambleVersion Demo.specifier 5 Demo.constrained Demo.thirds 0%nat))
       = Some m'
       /\ Number (g_major m') = Fin 14
       /\ Number (g_minor m') = Fin b' /\ Number (g_patch m') = Fin c'
       /\ Z.max 0 (0 - 5) <= b' <= 0 + 5
       /\ Z.max 0 (0 - 10) <= c' <= 0 + 10
       /\ (b' = 0 \/ c' = 0).
Proof.
  assert (H1 : unit_draws Demo.thirds) by exact demo_draws.
  assert (H2 : VERSION_RANGE_REGEX_exec Demo.specifier = Some Demo.groups)
    by reflexivity.
  assert (H3 : constraint_match Demo.constrained = Some Demo.constraint_groups)
    by reflexivity.
  assert (H4 : Number (g_major Demo.constraint_groups) = Fin 14) by reflexivity.
  assert (H5 : 0 <= 14 < 2 ^ 53 - 13) by lia.
  assert (H6 : Number (g_minor Demo.constraint_groups) = Fin 0) by reflexivity.
  assert (H7 : 0 <= 0 < 2 ^ 53 - 13) by lia.
  assert (H8 : Number (g_patch Demo.constraint_groups) = Fin 0) by reflexivity.
  split; [tauto|].
  exact (constraint_replaces_version Demo.specifier Demo.groups
           Demo.constraint_groups 5 Demo.constrained Demo.thirds 0%nat 14 0 0
           H1 H2 H3 H4 H5 H6 H7 H8 H7).
Defined.

Lemma demo_constraint_small : small_match Demo.constraint_groups.
Proof.
  repeat split;
    [apply (small_component_intro _ 14) | apply (small_component_intro _ 0)
     | apply (small_component_intro _ 0)]; (reflexivity || discriminate).
Qed.

Lemma constraint_drops_prerelease_witness :
  (unit_draws Demo.thirds
   /\ VERSION_RANGE_REGEX_exec Demo.specifier = Some Demo.groups
   /\ constraint_match Demo.constrained = Some Demo.constraint_groups
   /\ small_match Demo.constraint_groups)
  /\ exists m',
       VERSION_RANGE_REGEX_exec
         (fst (scrambleVersion Demo.specifier 5 Demo.constrained Demo.thirds 0%nat))
       = Some m'
       /\ g_prerelease m' = None
       /\ In (or_empty (g_modifier m'))
            [or_empty (g_modifier Demo.constraint_groups); "~"; ""; "^"; "="].
Proof.
  assert (H1 : unit_draws Demo.thirds) by exact demo_draws.
  assert (H2 : VERSION_RANGE_REGEX_exec Demo.specifier = Some Demo.groups)
    by reflexivity.
  assert (H3 : constraint_match Demo.constrained = Some Demo.constraint_groups)
    by reflexivity.
  assert (H4 : small_match Demo.constraint_groups) by exact demo_constraint_small.
  split; [tauto|].
  exact (constraint_drops_prerelease Demo.specifier Demo.groups
           Demo.constraint_groups 5 Demo.constrained Demo.thirds 0%nat H1 H2 H3 H4).
Defined.

(** ** What the selection picks *)

Lemma select_keys_prefix host_sort keys count d i :
  rearranges host_sort ->
  exists sorted,
    Permutation keys sorted
    /\ fst (select_keys host_sort keys count d i) = slice0 sorted count.
Proof.
  intros Hsort. unfold select_keys, Rand.bind.
  pose proof (run_sort_leaf (host_sort keys) d i) as Hleaf.
  destruct (run_sort (host_sort keys) d i) as [sorted j]. simpl in *.
  exists sorted. split; [apply Hsort, Hleaf | reflexivity].
Qed.

(** The names selected in a category are names of the category, no name
    twice, and there are exactly [scrambleCount] of them: the number
    [Math.ceil((E * P) / 100)] as the doubles give it, for [E] names and a
    percentage [P] between 0 and 100. That number lies between 0 and [E] and
    is never above the exact [ceil(E * P / 100)]; it can be below, as
    [scramble_count_rounds] shows. This holds whatever the engine's sort does
    with the random comparator, as long as it rearranges the array. *)
Theorem selection_is_a_sample
    (host_sort : list string -> sort_tree) (keys : list string) (P : Q)
    (d : nat -> Q) (i : nat) :
  rearranges host_sort -> List.NoDup keys -> (0 <= P)%Q -> (P <= 100)%Q ->
  let scrambleCount := scramble_count (length keys) P in
  let picked := fst (select_keys host_sort keys scrambleCount d i) in
  List.NoDup picked
  /\ (forall dep, In dep picked -> In dep keys)
  /\ Z.of_nat (length picked) = scrambleCount
  /\ 0 <= scrambleCount <= Z.of_nat (length keys)
  /\ scrambleCount <= Qceiling (inject_Z (Z.of_nat (length keys)) * P / 100)
  /\ (Z.of_nat (length keys) < 2 ^ 32 ->
      scrambleCount
      = Qceiling (binary64 (binary64 (inject_Z (Z.of_nat (length keys)) * P) / 100))).
Proof.
  intros Hsort Hnodup H0 H1 scrambleCount picked. repeat split.
  - unfold picked.
    destruct (select_keys_prefix host_sort keys scrambleCount d i Hsort)
      as (sorted & Hp & ->).
    unfold slice0. set (n := Z.to_nat _).
    apply (List.NoDup_app_remove_r (take n sorted) (drop n sorted)).
    rewrite take_drop. eapply Permutation_NoDup; eassumption.
  - intros dep. apply (selected_keys_are_keys host_sort Hsort).
  - apply (selection_count host_sort Hsort keys P d i H0 H1).
  - apply scramble_count_range; assumption.
  - apply scramble_count_range; assumption.
  - apply scramble_count_le_exact; assumption.
  - intros Hlen. unfold scrambleCount, scramble_count.
    destruct (Z.ltb_spec (Z.of_nat (length keys)) (2 ^ 32)); [reflexivity | lia].
Qed.

(** From one percent on, at least one name is selected in every category
    that has one. Below one percent the doubles can round the count to zero
    ([scramble_count_rounds]), so a positive percentage is not enough. *)
Theorem positive_percentage_selects_some
    (host_sort : list string -> sort_tree) (keys : list string) (P : Q)
    (d : nat -> Q) (i : nat) :
  rearranges host_sort -> keys <> [] -> (1 <= P)%Q ->
  fst (select_keys host_sort keys (scramble_count (length keys) P) d i) <> [].
Proof.
  intros Hsort Hkeys H1.
  destruct (select_keys_prefix host_sort keys
              (scramble_count (length keys) P) d i Hsort) as (sorted & Hp & ->).
  assert (Hlen : (0 < length keys)%nat) by (destruct keys; [congruence | simpl; lia]).
  pose proof (scramble_count_positive (length keys) P Hlen H1) as Hpos.
  apply Permutation_length in Hp. rewrite Hp in Hlen.
  unfold slice0.
  destruct (Z.ltb_spec (scramble_count (length keys) P) 0); [lia|].
  destruct sorted as [|x sorted]; [simpl in Hlen; lia|].
  set (n := Z.to_nat _).
  assert (Hn : (0 < n)%nat) by (unfold n; cbn [length]; lia).
  destruct n; [lia | discriminate].
Qed.

(** At 100 percent every name of the category is selected, each once. *)
Theorem full_percentage_selects_all
    (host_sort : list string -> sort_tree) (keys : list string)
    (d : nat -> Q) (i : nat) :
  rearranges host_sort ->
  Permutation keys
    (fst (select_keys host_sort keys (scramble_count (length keys) 100) d i)).
Proof.
  intros Hsort.
  destruct (select_keys_prefix host_sort keys
              (scramble_count (length keys) 100) d i Hsort) as (sorted & Hp & ->).
  rewrite scramble_count_full. unfold slice0.
  rewrite (Permutation_length Hp).
  destruct (Z.ltb_spec (Z.of_nat (length sorted)) 0); [lia|].
  rewrite Z.min_id, Nat2Z.id, firstn_all. exact Hp.
Qed.

Lemma selection_is_a_sample_witness :
  (rearranges Sample.binary_insertion_sort
   /\ List.NoDup ["react"; "vue"; "express"] /\ (0 <= 30)%Q /\ (30 <= 100)%Q)
  /\ let scrambleCount := scramble_count (length ["react"; "vue"; "express"]) 30 in
     let picked :=
       fst (select_keys Sample.binary_insertion_sort ["react"; "vue"; "express"]
              scrambleCount Demo.thirds 0%nat) in
     List.NoDup picked
     /\ (forall dep, In dep picked -> In dep ["react"; "vue"; "express"])
     /\ Z.of_nat (length picked) = scrambleCount
     /\ 0 <= scrambleCount <= Z.of_nat (length ["react"; "vue"; "express"])
     /\ scrambleCount
        <= Qceiling (inject_Z (Z.of_nat (length ["react"; "vue"; "express"]))
                     * 30 / 100)
     /\ (Z.of_nat (length ["react"; "vue"; "express"]) < 2 ^ 32 ->
         scrambleCount
         = Qceiling
             (binary64
                (binary64 (inject_Z (Z.of_nat (length ["react"; "vue"; "express"]))
                           * 30) / 100))).
Proof.
  assert (H1 : rearranges Sample.binary_insertion_sort)
    by exact binary_insertion_rearranges.
  assert (H2 : List.NoDup ["react"; "vue"; "express"]).
  { repeat constructor; simpl; intuition discriminate. }
  assert (H3 : (0 <= 30)%Q) by (vm_compute; discriminate).
  assert (H4 : (30 <= 100)%Q) by (vm_compute; discriminate).
  split; [tauto|].
  exact (selection_is_a_sample Sample.binary_insertion_sort
           ["react"; "vue"; "express"] 30 Demo.thirds 0%nat H1 H2 H3 H4).
Defined.

Lemma positive_percentage_selects_some_witness :
  (rearranges Sample.binary_insertion_sort
   /\ ["react"; "vue"; "express"] <> [] /\ (1 <= 1)%Q)
  /\ fst (select_keys Sample.binary_insertion_sort ["react"; "vue"; "express"]
            (scramble_count (length ["react"; "vue"; "express"]) 1)
            Demo.thirds 0%nat) <> [].
Proof.
  assert (H1 : rearranges Sample.binary_insertion_sort)
    by exact binary_insertion_rearranges.
  assert (H2 : ["react"; "vue"; "express"] <> []) by discriminate.
  assert (H3 : (1 <= 1)%Q) by (vm_compute; discriminate).
  split; [tauto|].
  exact (positive_percentage_selects_some Sample.binary_insertion_sort
           ["react"; "vue"; "express"] 1 Demo.thirds 0%nat H1 H2 H3).
Defined.

Lemma full_percentage_selects_all_witness :
  rearranges Sample.binary_insertion_sort
  /\ Permutation ["react"; "vue"; "express"]
       (fst (select_keys Sample.binary_insertion_sort ["react"; "vue"; "express"]
               (scramble_count (length ["react"; "vue"; "express"]) 100)
               Demo.thirds 0%nat)).
Proof.
  assert (H1 : rearranges Sample.binary_insertion_sort)
    by exact binary_insertion_rearranges.
  split; [exact H1|].
  exact (full_percentage_selects_all Sample.binary_insertion_sort
           ["react"; "vue"; "express"] Demo.thirds 0%nat H1).
Defined.

(** ** The mutator at rest *)

Lemma Number_nonneg s n : Number s = Fin n -> n < 2 ^ 53 ->
  exists d, NilZero.uint_of_string s = Some d /\ n = Z.of_N (N.of_uint d).
Proof.
  unfold Number. destruct (NilZero.uint_of_string s) as [d|]; [|discriminate].
  intros H Hn. exists d. split; [reflexivity|].
  destruct (Z.lt_ge_cases (Z.of_N (N.of_uint d)) (2 ^ 53)) as [Hs|Hl].
  - rewrite round_double_small in H by lia. congruence.
  - pose proof (round_double_large _ _ Hl H). lia.
Qed.

Lemma unorm_plain s d :
  no_leading_zero s = true -> NilZero.uint_of_string s = Some d ->
  NilZero.string_of_uint (Decimal.unorm d) = s.
Proof.
  intros Hz Hs. pose proof (NilZero.sus s d Hs) as Hsus.
  destruct d; try (exact Hsus).
  simpl in Hsus. subst s. simpl in Hz.
  destruct d; simpl in *; try discriminate. reflexivity.
Qed.

(** Printing the number read from a plain run of digits gives the run. *)
Lemma ToString_Number s n :
  no_leading_zero s = true -> Number s = Fin n -> 0 <= n < 2 ^ 53 ->
  ToString (Fin n) = s.
Proof.
  intros Hz Hn Hr. destruct (Number_nonneg s n Hn) as (d & Hd & ->); [lia|].
  rewrite ToString_small by lia. rewrite N2Z.id. unfold decimal.
  rewrite DecimalN.Unsigned.to_of. apply unorm_plain; assumption.
Qed.

Lemma Qltb_nonpos r q : (0 <= r)%Q -> (q <= 0)%Q -> Qltb r q = false.
Proof.
  intros Hr Hq. unfold Qltb. apply negb_false_iff, Qle_bool_iff.
  eapply Qle_trans; eassumption.
Qed.

Lemma scaled_nonpos aggression k :
  (aggression <= 0)%Q -> (0 <= k)%Q -> (aggression / 10 * k <= 0)%Q.
Proof.
  intros Ha Hk.
  assert (H : (aggression / 10 <= 0)%Q).
  { apply Qle_shift_div_r; [reflexivity|]. rewrite Qmult_0_l. exact Ha. }
  apply Qle_trans with (0 * k)%Q; [|rewrite Qmult_0_l; apply Qle_refl].
  apply Qmult_le_compat_r; assumption.
Qed.

Lemma free_mutation_at_rest m aggression hints d i :
  unit_draws d -> (aggression <= 0)%Q ->
  fst (free_mutation m aggression hints d i)
  = or_empty (g_modifier m) ++ ToString (Number (g_major m)) ++ "."
      ++ ToString (Number (g_minor m)) ++ "." ++ ToString (Number (g_patch m))
      ++ or_empty (g_prerelease m).
Proof.
  intros Hd Ha. unfold free_mutation, Rand.bind, Math_random, Rand.ret.
  rewrite (Qltb_nonpos (d (S i))), (Qltb_nonpos (d (S (S i))));
    try apply Hd; try (apply scaled_nonpos; [assumption | discriminate]).
  destruct (is_realistic _); [|reflexivity].
  rewrite Qltb_nonpos; [reflexivity | apply Hd |].
  rewrite Qmult_comm. apply scaled_nonpos; [assumption | discriminate].
Qed.

Lemma within_constraint_at_rest mo ma mi pa aggression d i :
  unit_draws d -> (aggression <= 0)%Q ->
  fst (createVersionWithinConstraint mo ma mi pa aggression d i)
  = mo ++ ToString ma ++ "." ++ ToString mi ++ "." ++ ToString pa.
Proof.
  intros Hd Ha. unfold createVersionWithinConstraint, Rand.bind, Math_random, Rand.ret.
  rewrite Qltb_nonpos; [reflexivity | apply Hd |].
  apply scaled_nonpos; [assumption | discriminate].
Qed.

Lemma plain_component s :
  small_component s -> no_leading_zero s = true -> ToString (Number s) = s.
Proof.
  intros (n & Hn & Hr) Hz. rewrite Hn. apply (ToString_Number s n Hz Hn). lia.
Qed.

(** With an aggression of zero or less and no constraint, and for draws in
    [0,1), a specifier of the grammar whose numbers are below [2^53 - 13] and
    written without leading zeros comes back as it was. *)
Theorem no_aggression_no_change
    (s : string) (m : RegExpMatch) (aggression : Q) (hints : Hints.t)
    (d : nat -> Q) (i : nat) :
  unit_draws d -> (aggression <= 0)%Q ->
  VERSION_RANGE_REGEX_exec s = Some m -> small_match m -> plain_match m ->
  constraint_match hints = None ->
  fst (scrambleVersion s aggression hints d i) = s.
Proof.
  intros Hd Ha Hs (Sa & Sb & Sc) (Pa & Pb & Pc) Hc.
  rewrite (free_path s m) by assumption.
  rewrite free_mutation_at_rest by assumption.
  rewrite !plain_component by assumption.
  destruct (exec_sound s m Hs) as [_ ->]. reflexivity.
Qed.

(** With an aggression of zero or less, and for draws in [0,1), a package
    under a valid constraint whose numbers are below [2^53 - 13] and written
    without leading zeros gets the constraint's modifier and numbers as its
    specifier, whatever its own specifier was. *)
Theorem constraint_replaces_even_at_rest
    (s : string) (m c : RegExpMatch) (aggression : Q) (hints : Hints.t)
    (d : nat -> Q) (i : nat) :
  unit_draws d -> (aggression <= 0)%Q ->
  VERSION_RANGE_REGEX_exec s = Some m ->
  constraint_match hints = Some c -> small_match c -> plain_match c ->
  fst (scrambleVersion s aggression hints d i)
  = or_empty (g_modifier c) ++ g_major c ++ "." ++ g_minor c ++ "." ++ g_patch c.
Proof.
  intros Hd Ha Hs Hc (Sa & Sb & Sc) (Pa & Pb & Pc).
  rewrite (constraint_path s m c) by assumption.
  rewrite within_constraint_at_rest by assumption.
  rewrite !plain_component by assumption. reflexivity.
Qed.

(** A number written with leading zeros is rewritten without them even when
    nothing is drawn: the result differs from the input. *)
Example leading_zeros_are_dropped :
  fst (scrambleVersion "^01.2.3" 0 Demo.simple Demo.thirds 0%nat) = "^1.2.3".
Proof. reflexivity. Qed.

Lemma demo_plain : plain_match Demo.groups.
Proof. repeat split. Qed.

Lemma demo_constraint_plain : plain_match Demo.constraint_groups.
Proof. repeat split. Qed.

Lemma no_aggression_no_change_witness :
  (unit_draws Demo.thirds /\ (0 <= 0)%Q
   /\ VERSION_RANGE_REGEX_exec Demo.specifier = Some Demo.groups
   /\ small_match Demo.groups /\ plain_match Demo.groups
   /\ constraint_match Demo.realistic = None)
  /\ fst (scrambleVersion Demo.specifier 0 Demo.realistic Demo.thirds 0%nat)
     = Demo.specifier.
Proof.
  assert (H1 : unit_draws Demo.thirds) by exact demo_draws.
  assert (H2 : (0 <= 0)%Q) by (vm_compute; discriminate).
  assert (H3 : VERSION_RANGE_REGEX_exec Demo.specifier = Some Demo.groups)
    by reflexivity.
  assert (H4 : small_match Demo.groups) by exact demo_small.
  assert (H5 : plain_match Demo.groups) by exact demo_plain.
  assert (H6 : constraint_match Demo.realistic = None) by reflexivity.
  split; [tauto|].
  exact (no_aggression_no_change Demo.specifier Demo.groups 0 Demo.realistic
           Demo.thirds 0%nat H1 H2 H3 H4 H5 H6).
Defined.

Lemma constraint_replaces_even_at_rest_witness :
  (unit_draws Demo.thirds /\ (0 <= 0)%Q
   /\ VERSION_RANGE_REGEX_exec Demo.specifier = Some Demo.groups
   /\ constraint_match Demo.constrained = Some Demo.constraint_groups
   /\ small_match Demo.constraint_groups /\ plain_match Demo.constraint_groups)
  /\ fst (scrambleVersion Demo.specifier 0 Demo.constrained Demo.thirds 0%nat)
     = or_empty (g_modifier Demo.constraint_groups)
         ++ g_major Demo.constraint_groups ++ "."
         ++ g_minor Demo.constraint_groups ++ "." ++ g_patch Demo.constraint_groups.
Proof.
  assert (H1 : unit_draws Demo.thirds) by exact demo_draws.
  assert (H2 : (0 <= 0)%Q) by (vm_compute; discriminate).
  assert (H3 : VERSION_RANGE_REGEX_exec Demo.specifier = Some Demo.groups)
    by reflexivity.
  assert (H4 : constraint_match Demo.constrained = Some Demo.constraint_groups)
    by reflexivity.
  assert (H5 : small_match Demo.constraint_groups) by exact demo_constraint_small.
  assert (H6 : plain_match Demo.constraint_groups) by exact demo_constraint_plain.
  split; [tauto|].
  exact (constraint_replaces_even_at_rest Demo.specifier Demo.groups
           Demo.constraint_groups 0 Demo.constrained Demo.thirds 0%nat
           H1 H2 H3 H4 H5 H6).
Defined.

(** ** Rules of the weakest precondition *)

Section WpRules.

Context {A B : Type}.

Lemma wp_ret (a : A) (Q : A -> session -> Prop) s : Q a s -> wp (Eff.ret a) Q s.
Proof. intros H. exact H. Qed.

Lemma wp_bind (m : M A) (k : A -> M B) (Q : B -> session -> Prop) s :
  wp m (fun a s' => wp (k a) Q s') s -> wp (Eff.bind m k) Q s.
Proof.
  unfold wp, Eff.bind. destruct (m s) as [a s'|e]; intros H; exact H.
Qed.

Lemma wp_mono (m : M A) (Q Q' : A -> session -> Prop) s :
  wp m Q s -> (forall a s', Q a s' -> Q' a s') -> wp m Q' s.
Proof.
  unfold wp. destruct (m s) as [a s'|e]; intros H HQ; [apply HQ, H | exact I].
Qed.

Lemma wp_rand (m : Rand A) (Q : A -> session -> Prop) s :
  (forall a j, Q a (mkSession (store s) (draws s) j (scrambledDeps s) (issues s))) ->
  wp (rand m) Q s.
Proof.
  intros H. unfold wp, rand. destruct (m (draws s) (drawn s)) as [a j]. apply H.
Qed.

Lemma wp_rand_eq (m : Rand A) (Q : A -> session -> Prop) s :
  (forall a j, m (draws s) (drawn s) = (a, j) ->
     Q a (mkSession (store s) (draws s) j (scrambledDeps s) (issues s))) ->
  wp (rand m) Q s.
Proof.
  intros H. unfold wp, rand. destruct (m (draws s) (drawn s)) as [a j] eqn:E.
  apply H. reflexivity.
Qed.

Lemma wp_member (o : option A) (Q : A -> session -> Prop) s :
  (forall a, o = Some a -> Q a s) -> wp (member o) Q s.
Proof. intros H. destruct o as [a|]; [apply H; reflexivity | exact I]. Qed.

Lemma wp_draws_only (m : M A) (Q : A -> session -> Prop) s :
  draws_only m ->
  (forall a j, Q a (mkSession (store s) (draws s) j (scrambledDeps s) (issues s))) ->
  wp m Q s.
Proof.
  intros Hm H. unfold wp. destruct (Hm s) as (a & j & ->). apply H.
Qed.

Lemma draws_only_ret (a : A) : draws_only (Eff.ret a).
Proof. intros s. exists a, (drawn s). destruct s; reflexivity. Qed.

Lemma draws_only_rand (m : Rand A) : draws_only (rand m).
Proof.
  intros s. unfold rand. destruct (m (draws s) (drawn s)) as [a j].
  exists a, j. reflexivity.
Qed.

Lemma draws_only_bind (m : M A) (k : A -> M B) :
  draws_only m -> (forall a, draws_only (k a)) -> draws_only (Eff.bind m k).
Proof.
  intros Hm Hk s. unfold Eff.bind. destruct (Hm s) as (a & j & ->).
  destruct (Hk a (mkSession (store s) (draws s) j (scrambledDeps s) (issues s)))
    as (b & j' & ->).
  exists b, j'. reflexivity.
Qed.

End WpRules.

Lemma wp_deref l (Q : StringRecord -> session -> Prop) s :
  (forall o, store s !! l = Some o -> Q o s) -> wp (deref l) Q s.
Proof.
  intros H. unfold wp, deref. destruct (store s !! l) as [o|];
    [apply H; reflexivity | exact I].
Qed.

Lemma wp_record_or_empty ol (Q : StringRecord -> session -> Prop) s :
  (forall o, match ol with
             | Some l => store s !! l = Some o
             | None => o = []
             end -> Q o s) ->
  wp (record_or_empty ol) Q s.
Proof.
  intros H. destruct ol as [l|]; simpl.
  - apply wp_deref. exact H.
  - apply wp_ret, H. reflexivity.
Qed.

Lemma wp_assign l k v (Q : unit -> session -> Prop) s :
  (forall o, store s !! l = Some o ->
             Q tt (mkSession (<[l := set_prop o k v]> (store s)) (draws s) (drawn s)
                     (scrambledDeps s) (issues s))) ->
  wp (assign l k v) Q s.
Proof.
  intros H. unfold wp, assign. destruct (store s !! l) as [o|];
    [apply H; reflexivity | exact I].
Qed.

Lemma wp_push_scrambled t x (Q : unit -> session -> Prop) s :
  Q tt (mkSession (store s) (draws s) (drawn s)
          (scrambled_push (scrambledDeps s) t x) (issues s)) ->
  wp (push_scrambled t x) Q s.
Proof. intros H. exact H. Qed.

Lemma wp_push_issue line (Q : unit -> session -> Prop) s :
  Q tt (mkSession (store s) (draws s) (drawn s) (scrambledDeps s)
          (issues s ++ [line])%list) ->
  wp (push_issue line) Q s.
Proof. intros H. exact H. Qed.

Lemma wp_get_scrambled t (Q : list string -> session -> Prop) s :
  Q (scrambled (scrambledDeps s) t) s -> wp (get_scrambled t) Q s.
Proof. intros H. exact H. Qed.

Lemma wp_for_of {A : Type} (xs : list A) (body : A -> M unit)
    (I : session -> Prop) s :
  I s -> (forall x s', In x xs -> I s' -> wp (body x) (fun _ => I) s') ->
  wp (for_of xs body) (fun _ => I) s.
Proof.
  revert s. induction xs as [|x xs IH]; intros s Hs Hbody; simpl.
  - apply wp_ret, Hs.
  - apply wp_bind. eapply wp_mono; [apply Hbody; [left; reflexivity | exact Hs]|].
    intros [] s' Hs'. apply IH; [exact Hs'|].
    intros y s'' Hy. apply Hbody. right. exact Hy.
Qed.

Ltac draws_only :=
  repeat first
    [ apply draws_only_ret | apply draws_only_rand
    | apply draws_only_bind; [|intros ?]
    | match goal with |- draws_only (if ?b then _ else _) => destruct b end
    | match goal with |- draws_only (match ?b with _ => _ end) => destruct b end ].

(** ** Facts on records *)

Lemma set_prop_keys o k v :
  In k (Object_keys o) -> Object_keys (set_prop o k v) = Object_keys o.
Proof.
  induction o as [|[k' v'] o IH]; simpl; [tauto|].
  intros H. destruct (String.eqb_spec k' k) as [->|Hne]; [reflexivity|].
  simpl. f_equal. apply IH. destruct H; [congruence | assumption].
Qed.

Lemma get_prop_key o k v : get_prop o k = Some v -> In k (Object_keys o).
Proof.
  induction o as [|[k' v'] o IH]; simpl; [discriminate|].
  destruct (String.eqb_spec k' k) as [->|Hne]; [left; reflexivity|].
  intros H. right. apply IH, H.
Qed.

Lemma get_set_prop_other o k v k' :
  k' <> k -> get_prop (set_prop o k v) k' = get_prop o k'.
Proof.
  intros Hne. induction o as [|[k0 v0] o IH]; simpl.
  - destruct (String.eqb_spec k k'); [congruence | reflexivity].
  - destruct (String.eqb_spec k0 k) as [->|H0]; simpl.
    + destruct (String.eqb_spec k k'); [congruence | reflexivity].
    + destruct (String.eqb_spec k0 k'); [reflexivity | exact IH].
Qed.

Lemma scrambled_push_same sd t x :
  scrambled (scrambled_push sd t x) t = (scrambled sd t ++ [x])%list.
Proof. destruct t; reflexivity. Qed.

Lemma scrambled_push_other sd t t' x :
  t' <> t -> scrambled (scrambled_push sd t x) t' = scrambled sd t'.
Proof. destruct t, t'; try reflexivity; congruence. Qed.

Lemma total_push sd t x : total (scrambled_push sd t x) = S (total sd).
Proof.
  unfold total. destruct t; simpl; rewrite length_app; simpl; lia.
Qed.

(** ** The invariant of a run *)

Section Invariant.

Variable st0 : gmap loc StringRecord.
Variables pkg copy : PackageJson.

Hypothesis pkg_valid : forall t l, category pkg t = Some l -> is_Some (st0 !! l).
Hypothesis copy_fresh : forall t l, category copy t = Some l -> st0 !! l = None.
Hypothesis copy_distinct : forall t t' l,
  category copy t = Some l -> category copy t' = Some l -> t = t'.

Local Abbreviation Inv := (holds st0 pkg copy).

Lemma holds_drawn s j :
  Inv s -> Inv (mkSession (store s) (draws s) j (scrambledDeps s) (issues s)).
Proof. intros H. exact H. Qed.

(** The three writes that record a change keep the invariant, when the name
    is one of the category. *)
Lemma holds_change s t lm om k v line d j :
  Inv s -> category copy t = Some lm -> store s !! lm = Some om ->
  original_key st0 pkg t k ->
  Inv (mkSession (<[lm := set_prop om k v]> (store s)) d j
         (scrambled_push (scrambledDeps s) t k) (issues s ++ [line])%list).
Proof.
  intros [Hi Hk Hc Hl Hd] Ht Hom Hkey. unfold holds. cbn.
  assert (Hkeys : In k (Object_keys om)).
  { specialize (Hk t). rewrite Ht in Hk. cbn in Hk. rewrite Hom in Hk.
    unfold original_key in Hkey. rewrite <- Hk in Hkey. exact Hkey. }
  split.
  - intros l Hl0. rewrite lookup_insert_ne; [apply Hi, Hl0|].
    intros <-. rewrite (copy_fresh t lm Ht) in Hl0. destruct Hl0; discriminate.
  - intros t'. specialize (Hk t'). rewrite <- Hk.
    destruct (category copy t') as [l'|] eqn:Ht'; [|reflexivity]. cbn.
    destruct (decide (l' = lm)) as [->|Hne].
    + rewrite lookup_insert_eq, Hom. rewrite set_prop_keys; auto.
    + rewrite lookup_insert_ne by congruence. reflexivity.
  - rewrite length_app, total_push. simpl. lia.
  - intros t' k'. destruct (decide (t' = t)) as [->|Hne].
    + rewrite scrambled_push_same, in_app_iff. intros [H|[<-|[]]]; auto.
    + rewrite scrambled_push_other by assumption. apply Hl.
  - intros t' k' Hdiff. destruct (decide (t' = t)) as [->|Hne].
    + rewrite scrambled_push_same, in_app_iff.
      destruct (String.eqb_spec k' k) as [->|Hk']; [right; left; reflexivity|].
      left. apply Hd. intros Heq. apply Hdiff. rewrite <- Heq.
      rewrite Ht. cbn. rewrite lookup_insert_eq, Hom.
      apply get_set_prop_other. exact Hk'.
    + rewrite scrambled_push_other by assumption. apply Hd.
      intros Heq. apply Hdiff. rewrite <- Heq.
      destruct (category copy t') as [l'|] eqn:Ht'; [|reflexivity]. cbn.
      rewrite lookup_insert_ne; [reflexivity|].
      intros <-. apply Hne. eapply copy_distinct; eassumption.
Qed.

Lemma original_key_intro s t l o k :
  Inv s -> category pkg t = Some l -> store s !! l = Some o ->
  In k (Object_keys o) -> original_key st0 pkg t k.
Proof.
  intros [Hi _ _ _ _] Ht Ho Hin. unfold original_key, keys_of. rewrite Ht.
  rewrite <- (Hi l (pkg_valid t l Ht)), Ho. exact Hin.
Qed.

End Invariant.

Ltac wp_simpl := cbv beta; cbn [store draws drawn scrambledDeps issues] in *.

Ltac wp_step :=
  lazymatch goal with
  | |- wp (Eff.ret _) _ _ => apply wp_ret
  | |- wp (Eff.bind _ _) _ _ => apply wp_bind
  | |- wp (push_scrambled _ _) _ _ => apply wp_push_scrambled
  | |- wp (push_issue _) _ _ => apply wp_push_issue
  | |- wp (get_scrambled _) _ _ => apply wp_get_scrambled
  end;
  wp_simpl.

(** Run the first computation of a bind and name what it returns. *)
Tactic Notation "wp_let" ident(x) ident(H) :=
  lazymatch goal with
  | |- wp (Eff.bind _ _) _ _ => apply wp_bind
  | |- _ => idtac
  end;
  lazymatch goal with
  | |- wp (deref _) _ _ => apply wp_deref; intros x H
  | |- wp (member _) _ _ => apply wp_member; intros x H
  | |- wp (rand _) _ _ => apply wp_rand; intros x H
  | |- wp (assign _ _ _) _ _ => apply wp_assign; intros x H
  | |- wp (record_or_empty _) _ _ => apply wp_record_or_empty; intros x H
  | |- wp _ _ _ => apply wp_draws_only; [draws_only | intros x H]
  end;
  wp_simpl.

Lemma index_In {A : Type} (l : list A) i x : index l i = Some x -> In x l.
Proof.
  unfold index. destruct (i <? 0); [discriminate|].
  intros H. apply list_elem_of_In, (list_elem_of_lookup_2 _ _ _ H).
Qed.

Lemma mem_string_In x l : mem_string x l = true -> In x l.
Proof.
  unfold mem_string. rewrite existsb_exists. intros (y & Hy & Heq).
  apply String.eqb_eq in Heq. congruence.
Qed.

Lemma filter_In_keys (f : string -> bool) l x :
  In x (filter (fun y => f y) l) -> In x l.
Proof.
  intros H. apply list_elem_of_In in H. apply list_elem_of_In.
  apply list_elem_of_filter in H. tauto.
Qed.

Section InvariantSteps.

Variable coerce : string -> option SemVer.
Variable st0 : gmap loc StringRecord.
Variables pkg copy : PackageJson.

Hypothesis pkg_valid : forall t l, category pkg t = Some l -> is_Some (st0 !! l).
Hypothesis copy_fresh : forall t l, category copy t = Some l -> st0 !! l = None.
Hypothesis copy_distinct : forall t t' l,
  category copy t = Some l -> category copy t' = Some l -> t = t'.

Local Abbreviation Inv := (holds st0 pkg copy).

Lemma holds_scramble_entry l depType aggression hints dep s :
  Inv s -> category pkg depType = Some l -> original_key st0 pkg depType dep ->
  wp (scramble_entry l copy depType aggression hints dep) (fun _ => Inv) s.
Proof.
  intros Hs Hl Hkey. unfold scramble_entry.
  wp_let deps Hdeps. wp_let newVersion j.
  destruct (differs _ _); [|wp_step; exact Hs].
  destruct (is_Some_bool _); [|wp_step; exact Hs].
  wp_let m Hm. wp_let om Hom. do 3 wp_step.
  eapply (holds_change st0 pkg copy copy_fresh copy_distinct s depType);
    eassumption.
Qed.

Lemma holds_peer_conflict_strategy current mode s :
  Inv s ->
  wp (peer_conflict_strategy coerce pkg copy current mode) (fun _ => Inv) s.
Proof.
  intros Hs. unfold peer_conflict_strategy.
  wp_let applies j.
  destruct (negb applies); [wp_step; exact Hs|].
  destruct (negb (is_Some_bool _)); [wp_step; exact Hs|].
  wp_let l Hl. wp_let regular Hregular.
  destruct (negb (Nat.ltb _ _)); [wp_step; exact Hs|].
  wp_let peerDeps HpeerDeps.
  assert (Hpeer : forall x, In x (Object_keys peerDeps) ->
                            original_key st0 pkg PEER_DEPENDENCIES x).
  { intros x Hx. destruct (category pkg PEER_DEPENDENCIES) as [lp|] eqn:Hp.
    - eapply (original_key_intro st0 pkg copy pkg_valid s); eassumption.
    - subst peerDeps. destruct Hx. }
  wp_step. wp_let l' Hl'. wp_let regular' Hregular'.
  set (sharedDeps := filter _ (Object_keys peerDeps)).
  assert (Hshared : forall x, In x sharedDeps -> In x (Object_keys peerDeps)).
  { intros x. apply filter_In_keys. }
  clearbody sharedDeps.
  destruct (negb (Nat.ltb _ _)); [wp_step; exact Hs|].
  wp_step.
  apply (wp_mono _ (fun b s' => Inv s' /\ (b = true -> In "react" sharedDeps))).
  { destruct (mem_string "react" sharedDeps) eqn:Hreact.
    - wp_let b j'. split; [exact Hs|]. intros _. apply mem_string_In, Hreact.
    - wp_step. split; [exact Hs | discriminate]. }
  clear dependent s. intros preferReact s [Hs Hreact]. wp_simpl.
  wp_step.
  apply (wp_mono _ (fun d s' => Inv s' /\ (forall x, d = Some x -> In x sharedDeps))).
  { destruct preferReact.
    - wp_step. split; [exact Hs|]. intros x [= <-]. auto.
    - wp_let i' j'. wp_step. split; [exact Hs|]. intros x. apply index_In. }
  clear dependent s. intros sharedDep s [Hs Hdep]. wp_simpl.
  wp_step.
  apply (wp_mono _ (fun rv s' => Inv s' /\ (forall p, coerce_valid coerce rv = Some p ->
                                                truthy sharedDep = true))).
  { destruct (is_Some_bool (dependencies pkg) && truthy sharedDep)%bool eqn:Hg.
    - wp_let l2 Hl2. wp_let o2 Ho2. wp_step. split; [exact Hs|]. intros _ _.
      apply andb_true_iff in Hg. tauto.
    - wp_step. split; [exact Hs|]. intros p. discriminate. }
  clear dependent s. intros regularVersion s [Hs Htruthy]. wp_simpl.
  destruct (coerce_valid coerce regularVersion) as [[regularText coerced]|];
    [|wp_step; exact Hs].
  specialize (Htruthy _ eq_refl).
  wp_let strategyChoice j3. wp_let conflictVersion j4.
  destruct (is_Some_bool (category copy PEER_DEPENDENCIES)); [|wp_step; exact Hs].
  rewrite Htruthy. cbn [andb].
  wp_step. wp_let m Hm. wp_let om Hom. do 3 wp_step.
  eapply (holds_change st0 pkg copy copy_fresh copy_distinct s PEER_DEPENDENCIES);
    try eassumption.
  apply Hpeer, Hshared, Hdep.
  destruct sharedDep as [x|]; [reflexivity | discriminate].
Qed.

Lemma record_keys_original s t deps :
  Inv s ->
  match category pkg t with
  | Some l => store s !! l = Some deps
  | None => deps = []
  end ->
  forall x, In x (Object_keys deps) -> original_key st0 pkg t x.
Proof.
  intros Hs Hdeps x Hx. destruct (category pkg t) as [l|] eqn:Ht.
  - eapply (original_key_intro st0 pkg copy pkg_valid s); eassumption.
  - subst deps. destruct Hx.
Qed.

Lemma truthy_get_prop deps k :
  truthy (get_prop deps k) = true -> In k (Object_keys deps).
Proof.
  destruct (get_prop deps k) as [v|] eqn:E; [|discriminate].
  intros _. eapply get_prop_key, E.
Qed.

Lemma holds_transitive_conflict_step newVersion conflict s :
  Inv s ->
  wp (transitive_conflict_step (dependencies pkg) (dependencies copy) newVersion
        conflict) (fun _ => Inv) s.
Proof.
  intros Hs. unfold transitive_conflict_step.
  wp_let deps Hdeps. do 2 wp_step.
  destruct (truthy _ && negb _)%bool eqn:Hg; [|wp_step; exact Hs].
  apply andb_true_iff in Hg. destruct Hg as [Hg _].
  wp_let m Hm. wp_let om Hom. do 3 wp_step.
  eapply (holds_change st0 pkg copy copy_fresh copy_distinct s DEPENDENCIES);
    try eassumption.
  eapply (record_keys_original s DEPENDENCIES deps Hs Hdeps).
  apply truthy_get_prop, Hg.
Qed.

Lemma holds_transitive_strategy mode scaled s :
  Inv s -> wp (transitive_strategy coerce pkg copy mode scaled) (fun _ => Inv) s.
Proof.
  intros Hs. unfold transitive_strategy.
  wp_let applies j.
  destruct (negb applies); [wp_step; exact Hs|].
  wp_let deps Hdeps.
  destruct (negb (_ && _)); [wp_step; exact Hs|].
  wp_let i1 j1.
  destruct (negb (Nat.ltb _ _)); [wp_step; exact Hs|].
  wp_let i2 j2.
  destruct (coerce_valid _ _) as [[text coerced]|]; [|wp_step; exact Hs].
  wp_let r j3.
  apply wp_for_of; [exact Hs|].
  intros conflict s' _ Hs'. apply holds_transitive_conflict_step, Hs'.
Qed.

Lemma holds_sibling_step m baseVersion baseMatch x s :
  Inv s -> dependencies copy = Some m -> truthy (Some x) = true ->
  original_key st0 pkg DEPENDENCIES x ->
  wp (sibling_step (dependencies pkg) (dependencies copy) baseVersion baseMatch
        (Some x)) (fun _ => Inv) s.
Proof.
  intros Hs Hm Hx Hkey. unfold sibling_step.
  wp_let hit j.
  destruct (negb hit); [wp_step; exact Hs|].
  wp_let r j1. rewrite Hm, Hx. cbn [is_Some_bool andb or_empty].
  wp_step. wp_let m' Hm'. wp_let om Hom. do 2 wp_step.
  wp_let deps Hdeps. wp_step.
  injection Hm' as <-.
  eapply (holds_change st0 pkg copy copy_fresh copy_distinct s DEPENDENCIES);
    eassumption.
Qed.

Lemma startsWith_nonempty dep prefix :
  startsWith dep prefix = true -> truthy (Some prefix) = true ->
  truthy (Some dep) = true.
Proof.
  unfold startsWith. destruct prefix; [discriminate|].
  destruct dep; [discriminate | reflexivity].
Qed.

Lemma holds_sibling_family depKeys scaled prefix s :
  Inv s -> truthy (Some prefix) = true ->
  (forall x, In x depKeys -> original_key st0 pkg DEPENDENCIES x) ->
  wp (sibling_family (dependencies pkg) (dependencies copy) depKeys scaled prefix)
     (fun _ => Inv) s.
Proof.
  intros Hs Hprefix Hkeys. unfold sibling_family.
  wp_let hit j.
  destruct (negb hit); [wp_step; exact Hs|].
  set (relatedPackages := filter _ depKeys).
  assert (Hrel : forall x, In x relatedPackages ->
                   In x depKeys /\ startsWith x prefix = true).
  { intros x Hx. apply list_elem_of_In, list_elem_of_filter in Hx.
    destruct Hx as [Hp Hx]. split; [apply list_elem_of_In, Hx|].
    apply Is_true_true, Hp. }
  clearbody relatedPackages.
  destruct (negb (Nat.leb _ _)); [wp_step; exact Hs|].
  wp_let deps Hdeps.
  match goal with |- wp (match ?b with _ => _ end) _ _ =>
    destruct b as [bm|]; [|wp_step; exact Hs] end.
  destruct (dependencies copy) as [m|] eqn:Hm; cbn [is_Some_bool];
    [|wp_step; exact Hs].
  apply wp_for_of; [exact Hs|].
  intros p s' Hp Hs'. apply in_map_iff in Hp. destruct Hp as (i & <- & Hi).
  apply in_seq in Hi.
  destruct (index relatedPackages (Z.of_nat i)) as [x|] eqn:Hx.
  - destruct (Hrel x (index_In _ _ _ Hx)) as [Hin Hstarts].
    rewrite <- Hm. apply (holds_sibling_step m); auto.
    eapply startsWith_nonempty; eassumption.
  - exfalso. unfold index in Hx.
    destruct (Z.ltb_spec (Z.of_nat i) 0); [lia|].
    rewrite Nat2Z.id in Hx. apply lookup_ge_None in Hx. lia.
Qed.

Lemma prefixes_truthy keys acc :
  (forall p, In p acc -> truthy (Some p) = true) ->
  forall p,
    In p (fold_left (fun acc dep =>
                       match family_prefix dep with
                       | Some p => if truthy (Some p) then Set_add acc p else acc
                       | None => acc
                       end) keys acc) ->
    truthy (Some p) = true.
Proof.
  revert acc. induction keys as [|k keys IH]; intros acc Hacc p; cbn [fold_left];
    [apply Hacc|].
  apply IH. intros q Hq.
  destruct (family_prefix k) as [pk|]; [|apply Hacc, Hq].
  destruct (truthy (Some pk)) eqn:Hpk; [|apply Hacc, Hq].
  unfold Set_add in Hq. destruct (mem_string pk acc); [apply Hacc, Hq|].
  apply in_app_iff in Hq. destruct Hq as [Hq|[<-|[]]]; [apply Hacc, Hq | exact Hpk].
Qed.

Lemma holds_sibling_strategy current mode scaled s :
  Inv s ->
  wp (sibling_strategy pkg copy current mode scaled) (fun _ => Inv) s.
Proof.
  intros Hs. unfold sibling_strategy.
  destruct (negb (_ && _)); [wp_step; exact Hs|].
  wp_let deps Hdeps.
  apply wp_for_of; [exact Hs|].
  intros prefix s' Hp Hs'. apply holds_sibling_family; [exact Hs' | |].
  - eapply prefixes_truthy; [|exact Hp]. intros p [].
  - apply (record_keys_original s DEPENDENCIES deps Hs Hdeps).
Qed.

Lemma holds_createRealisticConflicts current aggression mode s :
  Inv s ->
  wp (createRealisticConflicts coerce pkg copy current aggression mode)
     (fun _ => Inv) s.
Proof.
  intros Hs. unfold createRealisticConflicts.
  wp_step. eapply wp_mono; [apply holds_peer_conflict_strategy, Hs|].
  intros [] s1 Hs1. wp_simpl.
  wp_step. eapply wp_mono; [apply holds_transitive_strategy, Hs1|].
  intros [] s2 Hs2. wp_simpl.
  apply holds_sibling_strategy, Hs2.
Qed.

Variable host_sort : list string -> sort_tree.
Hypothesis host_rearranges : rearranges host_sort.

Lemma holds_scramble_category percentage aggression mode hints depType s :
  Inv s ->
  wp (scramble_category host_sort coerce pkg copy percentage aggression mode hints
        depType) (fun _ => Inv) s.
Proof.
  intros Hs. unfold scramble_category.
  destruct (category pkg depType) as [l|] eqn:Hl; [|wp_step; exact Hs].
  wp_let deps Hdeps.
  destruct (negb (Nat.ltb _ _)); [wp_step; exact Hs|].
  wp_step. apply wp_rand_eq. intros depsToScramble j Hsel. wp_simpl.
  assert (Hin : forall dep, In dep depsToScramble ->
                            original_key st0 pkg depType dep).
  { intros dep Hdep.
    eapply (original_key_intro st0 pkg copy pkg_valid s); try eassumption.
    apply (selected_keys_are_keys host_sort host_rearranges _
             (scramble_count (length (Object_keys deps)) percentage)
             (draws s) (drawn s)).
    rewrite Hsel. exact Hdep. }
  wp_step.
  apply (wp_mono _ (fun _ => Inv)).
  { apply wp_for_of; [exact Hs|]. intros dep s' Hdep Hs'.
    apply holds_scramble_entry; auto. }
  intros [] s1 Hs1. wp_simpl.
  destruct (_ || _)%bool; [|wp_step; exact Hs1].
  apply holds_createRealisticConflicts, Hs1.
Qed.

End InvariantSteps.

(** ** What a whole run keeps *)

(** A fresh copy and empty accumulators: the invariant holds. *)
Lemma copy_holds pkg copy s s1 :
  grows s s1 ->
  (forall t, entries s1 (category copy t) = entries s (category pkg t)) ->
  holds (store s) pkg copy
    (mkSession (store s1) (draws s1) (drawn s1) (mkScrambled [] [] [] []) []).
Proof.
  intros G1 Hent. destruct G1 as (_ & _ & _ & _ & Gs). split; cbn.
  - intros l Hl. apply Gs, Hl.
  - intros t. specialize (Hent t). unfold entries in Hent. unfold keys_of.
    destruct (category copy t), (category pkg t); try rewrite Hent;
      try reflexivity.
    rewrite <- Hent. reflexivity.
  - reflexivity.
  - intros t k Hk. destruct t; destruct Hk.
  - intros t k Hk. exfalso. apply Hk. specialize (Hent t).
    unfold entries in Hent. unfold version_of.
    destruct (category copy t), (category pkg t); try rewrite Hent;
      try reflexivity.
    rewrite <- Hent. reflexivity.
Qed.

Section RunInvariant.

Variable host_sort : list string -> sort_tree.
Variable coerce : string -> option SemVer.
Hypothesis host_rearranges : rearranges host_sort.

Lemma scrambleDependencies_invariant pkg options s :
  valid_refs (allocated s) pkg ->
  exists r s',
    scrambleDependencies host_sort coerce pkg options s = Ok r s'
    /\ scramble_invariant (store s) pkg (modified r) (store s')
         (result_scrambledDeps r) (result_issues r).
Proof.
  intros Hv.
  destruct (deep_copy_spec pkg s Hv) as (copy & s1 & E1 & G1 & Hent & Hfresh & Hinj).
  set (s2 := mkSession (store s1) (draws s1) (drawn s1) (mkScrambled [] [] [] []) []).
  assert (Hp2 : valid_refs (allocated s2) pkg).
  { intros t l Hl. apply (grows_allocated s s1 l G1), (Hv t), Hl. }
  assert (Hc2 : valid_refs (allocated s2) copy).
  { intros t l Hl. destruct (Hfresh t l Hl) as [_ H]. exact H. }
  destruct (selector_loop_confined host_sort coerce pkg copy options s2
              (fun l => True) Hp2 Hc2) as (s3 & E3 & _); [tauto|].
  exists (mkResult copy (scrambledDeps s3) (issues s3)), s3.
  split.
  { unfold scrambleDependencies, Eff.bind. rewrite E1.
    change (new_accumulators s1) with (Ok tt s2). cbv beta iota.
    rewrite E3. reflexivity. }
  cbn [modified result_scrambledDeps result_issues].
  assert (Hfresh0 : forall t l, category copy t = Some l -> store s !! l = None).
  { intros t l Hl. destruct (Hfresh t l Hl) as [Hn _].
    apply eq_None_not_Some. exact Hn. }
  assert (H2 : holds (store s) pkg copy s2).
  { apply (copy_holds pkg copy s s1); assumption. }
  pose proof (wp_for_of (resolved_depTypes options)
                (scramble_category host_sort coerce pkg copy
                   (resolved_scramblePercentage options)
                   (resolved_aggressionLevel options)
                   (resolved_conflictMode options) (hints_for options))
                (holds (store s) pkg copy) s2 H2) as Hloop.
  unfold wp in Hloop. rewrite E3 in Hloop. apply Hloop.
  intros t s' _ Hs'.
  apply (holds_scramble_category coerce (store s) pkg copy); auto.
Qed.

End RunInvariant.

(** The result has the categories of the input, and each category has the
    names of the input in the same order: scrambling changes specifiers and
    never adds, removes or moves a dependency. *)
Theorem names_are_kept
    (host_sort : list string -> sort_tree) (coerce : string -> option SemVer)
    (pkg : PackageJson) (options : RouletteOptions) (s : session) :
  rearranges host_sort -> valid_refs (allocated s) pkg ->
  exists r s',
    scrambleDependencies host_sort coerce pkg options s = Ok r s'
    /\ forall t, keys_of (store s') (category (modified r) t)
                 = keys_of (store s) (category pkg t).
Proof.
  intros Hsort Hv.
  destruct (scrambleDependencies_invariant host_sort coerce Hsort pkg options s Hv)
    as (r & s' & E & [_ Hkeys _ _ _]).
  exists r, s'. split; assumption.
Qed.

(** [issues] has one line for each name that [scrambledDeps] lists. *)
Theorem one_issue_per_recorded_name
    (host_sort : list string -> sort_tree) (coerce : string -> option SemVer)
    (pkg : PackageJson) (options : RouletteOptions) (s : session) :
  rearranges host_sort -> valid_refs (allocated s) pkg ->
  exists r s',
    scrambleDependencies host_sort coerce pkg options s = Ok r s'
    /\ length (result_issues r) = total (result_scrambledDeps r).
Proof.
  intros Hsort Hv.
  destruct (scrambleDependencies_invariant host_sort coerce Hsort pkg options s Hv)
    as (r & s' & E & [_ _ Hcount _ _]).
  exists r, s'. split; assumption.
Qed.

(** A name that [scrambledDeps] lists under a category is a dependency of
    that category in the input. *)
Theorem recorded_names_are_dependencies
    (host_sort : list string -> sort_tree) (coerce : string -> option SemVer)
    (pkg : PackageJson) (options : RouletteOptions) (s : session) :
  rearranges host_sort -> valid_refs (allocated s) pkg ->
  exists r s',
    scrambleDependencies host_sort coerce pkg options s = Ok r s'
    /\ forall t k, In k (scrambled (result_scrambledDeps r) t) ->
                   original_key (store s) pkg t k.
Proof.
  intros Hsort Hv.
  destruct (scrambleDependencies_invariant host_sort coerce Hsort pkg options s Hv)
    as (r & s' & E & [_ _ _ Hlisted _]).
  exists r, s'. split; assumption.
Qed.

(** Every specifier of the result that differs from the input's is recorded:
    its name is listed in [scrambledDeps] under its category. *)
Theorem every_change_is_recorded
    (host_sort : list string -> sort_tree) (coerce : string -> option SemVer)
    (pkg : PackageJson) (options : RouletteOptions) (s : session) :
  rearranges host_sort -> valid_refs (allocated s) pkg ->
  exists r s',
    scrambleDependencies host_sort coerce pkg options s = Ok r s'
    /\ forall t k,
         version_of (store s') (category (modified r) t) k
           <> version_of (store s) (category pkg t) k ->
         In k (scrambled (result_scrambledDeps r) t).
Proof.
  intros Hsort Hv.
  destruct (scrambleDependencies_invariant host_sort coerce Hsort pkg options s Hv)
    as (r & s' & E & [_ _ _ _ Hchanged]).
  exists r, s'. split; assumption.
Qed.

Lemma names_are_kept_witness :
  let s := Sample.start Sample.objects (always 0%Q) in
  let options :=
    Sample.options [DEPENDENCIES; PEER_DEPENDENCIES] 100 10 "realistic" [] in
  (rearranges Sample.binary_insertion_sort
   /\ valid_refs (allocated s) Sample.manifest)
  /\ exists r s',
       scrambleDependencies Sample.binary_insertion_sort Sample.coerce
         Sample.manifest options s = Ok r s'
       /\ forall t, keys_of (store s') (category (modified r) t)
                    = keys_of (store s) (category Sample.manifest t).
Proof.
  intros s options.
  assert (H1 : rearranges Sample.binary_insertion_sort)
    by exact binary_insertion_rearranges.
  assert (H2 : valid_refs (allocated s) Sample.manifest)
    by apply sample_manifest_valid.
  split; [tauto|].
  exact (names_are_kept Sample.binary_insertion_sort Sample.coerce
           Sample.manifest options s H1 H2).
Defined.

Lemma one_issue_per_recorded_name_witness :
  let s := Sample.start Sample.objects (always 0%Q) in
  let options :=
    Sample.options [DEPENDENCIES; PEER_DEPENDENCIES] 100 10 "realistic" [] in
  (rearranges Sample.binary_insertion_sort
   /\ valid_refs (allocated s) Sample.manifest)
  /\ exists r s',
       scrambleDependencies Sample.binary_insertion_sort Sample.coerce
         Sample.manifest options s = Ok r s'
       /\ length (result_issues r) = total (result_scrambledDeps r).
Proof.
  intros s options.
  assert (H1 : rearranges Sample.binary_insertion_sort)
    by exact binary_insertion_rearranges.
  assert (H2 : valid_refs (allocated s) Sample.manifest)
    by apply sample_manifest_valid.
  split; [tauto|].
  exact (one_issue_per_recorded_name Sample.binary_insertion_sort Sample.coerce
           Sample.manifest options s H1 H2).
Defined.

Lemma recorded_names_are_dependencies_witness :
  let s := Sample.start Sample.objects (always 0%Q) in
  let options :=
    Sample.options [DEPENDENCIES; PEER_DEPENDENCIES] 100 10 "peer-conflict" [] in
  (rearranges Sample.binary_insertion_sort
   /\ valid_refs (allocated s) Sample.manifest)
  /\ exists r s',
       scrambleDependencies Sample.binary_insertion_sort Sample.coerce
         Sample.manifest options s = Ok r s'
       /\ forall t k, In k (scrambled (result_scrambledDeps r) t) ->
                      original_key (store s) Sample.manifest t k.
Proof.
  intros s options.
  assert (H1 : rearranges Sample.binary_insertion_sort)
    by exact binary_insertion_rearranges.
  assert (H2 : valid_refs (allocated s) Sample.manifest)
    by apply sample_manifest_valid.
  split; [tauto|].
  exact (recorded_names_are_dependencies Sample.binary_insertion_sort
           Sample.coerce Sample.manifest options s H1 H2).
Defined.

Lemma every_change_is_recorded_witness :
  let s := Sample.start Sample.objects (always 0%Q) in
  let options :=
    Sample.options [DEPENDENCIES; DEV_DEPENDENCIES] 50 5 "realistic" [] in
  (rearranges Sample.binary_insertion_sort
   /\ valid_refs (allocated s) Sample.manifest)
  /\ exists r s',
       scrambleDependencies Sample.binary_insertion_sort Sample.coerce
         Sample.manifest options s = Ok r s'
       /\ forall t k,
            version_of (store s') (category (modified r) t) k
              <> version_of (store s) (category Sample.manifest t) k ->
            In k (scrambled (result_scrambledDeps r) t).
Proof.
  intros s options.
  assert (H1 : rearranges Sample.binary_insertion_sort)
    by exact binary_insertion_rearranges.
  assert (H2 : valid_refs (allocated s) Sample.manifest)
    by apply sample_manifest_valid.
  split; [tauto|].
  exact (every_change_is_recorded Sample.binary_insertion_sort Sample.coerce
           Sample.manifest options s H1 H2).
Defined.

(** ** Options, defaults and the command line *)

(** Merging the defaults into the options, as [scramblePackageJson] does
    before it calls the selector, changes nothing: the selector falls back
    on the same defaults itself. *)
Theorem merged_defaults_change_nothing
    (host_sort : list string -> sort_tree) (coerce : string -> option SemVer)
    (pkg : PackageJson) (options : RouletteOptions) :
  scrambleDependencies host_sort coerce pkg (spread_defaults options)
  = scrambleDependencies host_sort coerce pkg options.
Proof.
  destruct options as [tp cb dt sp ag vc rm cm].
  destruct dt, sp, ag, vc, rm, cm; reflexivity.
Qed.

Lemma inject_Z_zero z : Qeq_bool (inject_Z z) 0 = (z =? 0).
Proof.
  unfold Qeq_bool, inject_Z. simpl. rewrite Z.mul_1_r. reflexivity.
Qed.

Lemma number_or_clamped lo hi z d :
  0 <= lo <= hi -> (1 <= d)%Q -> (d <= inject_Z hi)%Q ->
  (1 <= number_or (Some (inject_Z (Z.min hi (Z.max lo z)))) d)%Q
  /\ (number_or (Some (inject_Z (Z.min hi (Z.max lo z)))) d <= inject_Z hi)%Q.
Proof.
  intros Hr Hd1 Hd2. unfold number_or. rewrite inject_Z_zero.
  destruct (Z.eqb_spec (Z.min hi (Z.max lo z)) 0) as [|Hne]; [tauto|].
  split.
  - change 1%Q with (inject_Z 1). rewrite <- Zle_Qle. lia.
  - rewrite <- Zle_Qle. lia.
Qed.

(** Whatever integers the command line is given for the percentage and the
    aggression, the selector works with a percentage between 1 and 100 and an
    aggression between 1 and 10, in [realistic] mode, protecting major
    versions and without version constraints. *)
Theorem command_line_ranges
    (path : string) (backup : bool) (types : list DependencyType)
    (percentage level : Z) :
  let options := spread_defaults (cli_options path backup types percentage level) in
  (1 <= resolved_scramblePercentage options)%Q
  /\ (resolved_scramblePercentage options <= 100)%Q
  /\ (1 <= resolved_aggressionLevel options)%Q
  /\ (resolved_aggressionLevel options <= 10)%Q
  /\ resolved_depTypes options = types
  /\ resolved_conflictMode options = "realistic"
  /\ resolved_respectMajorVersions options = Some true
  /\ resolved_versionConstraints options = [].
Proof.
  intros options.
  destruct (number_or_clamped 0 100 percentage 30) as [P1 P2];
    [lia | discriminate | discriminate |].
  destruct (number_or_clamped 1 10 level 5) as [A1 A2];
    [lia | discriminate | discriminate |].
  repeat split; assumption.
Qed.

(** ** Nothing to scramble *)

Lemma for_of_idle {A : Type} (xs : list A) (body : A -> M unit) s :
  (forall x, In x xs -> body x s = Ok tt s) -> for_of xs body s = Ok tt s.
Proof.
  induction xs as [|x xs IH]; intros H; [reflexivity|].
  simpl. unfold Eff.bind. rewrite H by (left; reflexivity).
  apply IH. intros y Hy. apply H. right. exact Hy.
Qed.

(** When every category the options list is absent from the manifest or has
    no entry, the run draws nothing, records nothing and returns a copy of
    the input. *)
Theorem nothing_to_scramble
    (host_sort : list string -> sort_tree) (coerce : string -> option SemVer)
    (pkg : PackageJson) (options : RouletteOptions) (s : session) :
  valid_refs (allocated s) pkg ->
  (forall t, In t (resolved_depTypes options) ->
             entries s (category pkg t) = None
             \/ entries s (category pkg t) = Some []) ->
  exists r s',
    scrambleDependencies host_sort coerce pkg options s = Ok r s'
    /\ drawn s' = drawn s
    /\ result_scrambledDeps r = mkScrambled [] [] [] []
    /\ result_issues r = []
    /\ forall t, entries s' (category (modified r) t) = entries s (category pkg t).
Proof.
  intros Hv Hempty.
  destruct (deep_copy_spec pkg s Hv) as (copy & s1 & E1 & G1 & Hent & Hfresh & Hinj).
  set (s2 := mkSession (store s1) (draws s1) (drawn s1) (mkScrambled [] [] [] []) []).
  exists (mkResult copy (mkScrambled [] [] [] []) []), s2.
  destruct G1 as (Gd & Gn & _ & _ & Gs).
  split; [|repeat split; solve [assumption | reflexivity | apply Hent]].
  unfold scrambleDependencies, Eff.bind. rewrite E1.
  change (new_accumulators s1) with (Ok tt s2). cbv beta iota.
  rewrite for_of_idle; [reflexivity|].
  intros t Ht. unfold scramble_category.
  destruct (category pkg t) as [l|] eqn:Hl; [|reflexivity].
  unfold Eff.bind, deref. cbn [store s2].
  rewrite (Gs l (Hv t l Hl)).
  destruct (Hempty t Ht) as [H|H]; rewrite Hl in H; simpl in H; rewrite H.
  - destruct (Hv t l Hl) as [o Ho]. congruence.
  - reflexivity.
Qed.

Lemma nothing_to_scramble_witness :
  let s := Sample.start Sample.objects (always 0%Q) in
  let options := Sample.options [OPTIONAL_DEPENDENCIES] 100 10 "realistic" [] in
  (valid_refs (allocated s) Sample.manifest
   /\ forall t, In t (resolved_depTypes options) ->
                entries s (category Sample.manifest t) = None
                \/ entries s (category Sample.manifest t) = Some [])
  /\ exists r s',
       scrambleDependencies Sample.binary_insertion_sort Sample.coerce
         Sample.manifest options s = Ok r s'
       /\ drawn s' = drawn s
       /\ result_scrambledDeps r = mkScrambled [] [] [] []
       /\ result_issues r = []
       /\ forall t, entries s' (category (modified r) t)
                    = entries s (category Sample.manifest t).
Proof.
  intros s options.
  assert (H1 : valid_refs (allocated s) Sample.manifest)
    by apply sample_manifest_valid.
  assert (H2 : forall t, In t (resolved_depTypes options) ->
                 entries s (category Sample.manifest t) = None
                 \/ entries s (category Sample.manifest t) = Some []).
  { intros t [<-|[]]. left. reflexivity. }
  split; [split; assumption|].
  exact (nothing_to_scramble Sample.binary_insertion_sort Sample.coerce
           Sample.manifest options s H1 H2).
Defined.

(** ** What the strategist may touch *)

(** Called on any two manifests whose categories exist, in any mode and for
    any category, the strategist returns, and the only objects it may have
    written are [modified.dependencies] and [modified.peerDependencies]:
    every other object, the development and optional dependencies of
    [modified] among them, is as it was. *)
Theorem strategist_writes_two_categories
    (coerce : string -> option SemVer) (original modified : PackageJson)
    (current : DependencyType) (aggression : Q) (mode : string) (s : session) :
  valid_refs (allocated s) original -> valid_refs (allocated s) modified ->
  exists s',
    createRealisticConflicts coerce original modified current aggression mode s
    = Ok tt s'
    /\ draws s' = draws s
    /\ forall l, dependencies modified <> Some l ->
                 peerDependencies modified <> Some l ->
                 store s' !! l = store s !! l.
Proof.
  intros Ho Hm.
  set (W := fun l : positive =>
              dependencies modified = Some l \/ peerDependencies modified = Some l).
  assert (H : confined (allocated s) W
                (createRealisticConflicts coerce original modified current
                   aggression mode)).
  { unfold createRealisticConflicts.
    apply confined_bind.
    { apply confined_peer_conflict_strategy; try assumption.
      intros l Hl _. right. exact Hl. }
    intros _. apply confined_bind.
    { apply confined_transitive_strategy; try assumption.
      intros l Hl _. left. exact Hl. }
    intros _. apply confined_sibling_strategy; try assumption.
    intros l Hl _. left. exact Hl. }
  destruct (H s) as ([] & s' & E & Hd & _ & Hf); [auto|].
  exists s'. split; [exact E|]. split; [exact Hd|].
  intros l H1 H2. apply Hf. intros [Hw|Hw]; contradiction.
Qed.

Lemma small_manifest_valid d :
  valid_refs (allocated (Sample.start Sample.objects d)) Sample.small_manifest.
Proof. intros [| | |] l [= <-]; vm_compute; eauto. Qed.

Lemma strategist_writes_two_categories_witness :
  let s := Sample.start Sample.objects (always 0%Q) in
  (valid_refs (allocated s) Sample.small_manifest
   /\ valid_refs (allocated s) Sample.manifest)
  /\ exists s',
       createRealisticConflicts Sample.coerce Sample.small_manifest
         Sample.manifest DEV_DEPENDENCIES 10 "realistic" s = Ok tt s'
       /\ draws s' = draws s
       /\ forall l, dependencies Sample.manifest <> Some l ->
                    peerDependencies Sample.manifest <> Some l ->
                    store s' !! l = store s !! l.
Proof.
  intros s.
  assert (H1 : valid_refs (allocated s) Sample.small_manifest)
    by apply small_manifest_valid.
  assert (H2 : valid_refs (allocated s) Sample.manifest)
    by apply sample_manifest_valid.
  split; [split; assumption|].
  exact (strategist_writes_two_categories Sample.coerce Sample.small_manifest
           Sample.manifest DEV_DEPENDENCIES 10 "realistic" s H1 H2).
Defined.

(** ** How much a run without strategist records *)

Lemma wp_conj {A : Type} (m : M A) (Q1 Q2 : A -> session -> Prop) s :
  wp m Q1 s -> wp m Q2 s -> wp m (fun a s' => Q1 a s' /\ Q2 a s') s.
Proof. unfold wp. destruct (m s); auto. Qed.

(** A loop whose invariant depends on the elements already processed. *)
Lemma wp_for_of_prefix {A : Type} (xs : list A) (body : A -> M unit)
    (I : list A -> session -> Prop) done s :
  I done s ->
  (forall x done' s', In x xs -> I done' s' ->
                      wp (body x) (fun _ => I (done' ++ [x])%list) s') ->
  wp (for_of xs body) (fun _ => I (done ++ xs)%list) s.
Proof.
  revert done s. induction xs as [|x xs IH]; intros done s Hs Hbody; simpl.
  - apply wp_ret. rewrite app_nil_r. exact Hs.
  - apply wp_bind.
    apply (wp_mono _ (fun _ => I (done ++ [x])%list)).
    { apply Hbody; [left; reflexivity | exact Hs]. }
    intros [] s' Hs'. cbv beta.
    replace (done ++ x :: xs)%list with ((done ++ [x]) ++ xs)%list
      by (rewrite <- app_assoc; reflexivity).
    apply IH; [exact Hs'|].
    intros y done' s'' Hy. apply Hbody. right. exact Hy.
Qed.

Section Recorded.

Lemma recorded_scramble_entry l copy depType aggression hints dep n k s :
  recorded_within (one_more n depType k) s ->
  wp (scramble_entry l copy depType aggression hints dep)
     (fun _ => recorded_within (one_more n depType (S k))) s.
Proof.
  intros Hs. unfold scramble_entry.
  assert (Hweak : forall s', scrambledDeps s' = scrambledDeps s ->
                    recorded_within (one_more n depType (S k)) s').
  { intros s' E t. rewrite E. specialize (Hs t). unfold one_more in *.
    destruct (decide (t = depType)); lia. }
  wp_let deps Hdeps. wp_let newVersion j.
  destruct (differs _ _); [|wp_step; apply Hweak; reflexivity].
  destruct (is_Some_bool _); [|wp_step; apply Hweak; reflexivity].
  wp_let m Hm. wp_let om Hom. do 3 wp_step.
  intros t. specialize (Hs t). cbn. unfold one_more in *.
  destruct (decide (t = depType)) as [->|Hne].
  - rewrite scrambled_push_same, length_app. simpl. lia.
  - rewrite scrambled_push_other by assumption. exact Hs.
Qed.

Lemma recorded_weaken n depType k s :
  recorded_within n s -> recorded_within (one_more n depType k) s.
Proof.
  intros H t. specialize (H t). unfold one_more.
  destruct (decide (t = depType)); lia.
Qed.

Variable host_sort : list string -> sort_tree.
Variable coerce : string -> option SemVer.
Hypothesis host_rearranges : rearranges host_sort.

Variable st0 : gmap loc StringRecord.
Variables pkg copy : PackageJson.

Hypothesis pkg_valid : forall t l, category pkg t = Some l -> is_Some (st0 !! l).
Hypothesis copy_fresh : forall t l, category copy t = Some l -> st0 !! l = None.
Hypothesis copy_distinct : forall t t' l,
  category copy t = Some l -> category copy t' = Some l -> t = t'.

Variable P : Q.
Variable mode : string.
Hypothesis P_nonneg : (0 <= P)%Q.
Hypothesis P_percent : (P <= 100)%Q.
Hypothesis not_realistic : is_mode mode "realistic" = false.
Hypothesis not_peer_conflict : is_mode mode "peer-conflict" = false.

Local Abbreviation Inv := (holds st0 pkg copy).

Lemma recorded_scramble_category aggression hints depType n s :
  Inv s -> recorded_within n s ->
  wp (scramble_category host_sort coerce pkg copy P aggression mode hints depType)
     (fun _ s' => Inv s'
        /\ recorded_within (one_more n depType (selection_bound st0 pkg P depType))
             s') s.
Proof.
  intros Hs Hn. unfold scramble_category.
  destruct (category pkg depType) as [l|] eqn:Hl;
    [|wp_step; split; [exact Hs | apply recorded_weaken, Hn]].
  wp_let deps Hdeps.
  destruct (negb (Nat.ltb _ _));
    [wp_step; split; [exact Hs | apply recorded_weaken, Hn]|].
  wp_step. apply wp_rand_eq. intros depsToScramble j Hsel. wp_simpl.
  assert (Hin : forall dep, In dep depsToScramble ->
                            original_key st0 pkg depType dep).
  { intros dep Hdep.
    eapply (original_key_intro st0 pkg copy pkg_valid s); try eassumption.
    apply (selected_keys_are_keys host_sort host_rearranges _
             (scramble_count (length (Object_keys deps)) P) (draws s) (drawn s)).
    rewrite Hsel. exact Hdep. }
  assert (Hlen : (length depsToScramble <= selection_bound st0 pkg P depType)%nat).
  { unfold selection_bound, keys_of. rewrite Hl.
    destruct Hs as [Hi _ _ _ _]. rewrite <- (Hi l (pkg_valid depType l Hl)), Hdeps.
    destruct (selection_count host_sort host_rearranges (Object_keys deps) P
                (draws s) (drawn s) P_nonneg P_percent) as [Hc _].
    rewrite Hsel in Hc. cbn [fst] in Hc.
    pose proof (scramble_count_le_exact (length (Object_keys deps)) P
                  P_nonneg P_percent).
    lia. }
  wp_step.
  apply (wp_mono _ (fun _ s' =>
           Inv s' /\ recorded_within
                       (one_more n depType (length ([] ++ depsToScramble)%list)) s')).
  { apply (wp_for_of_prefix depsToScramble _
             (fun done s' =>
                Inv s' /\ recorded_within (one_more n depType (length done)) s')).
    - split; [exact Hs | apply recorded_weaken, Hn].
    - intros dep done' s' Hdep [Hs' Hn'].
      rewrite length_app. cbn [length]. rewrite Nat.add_1_r.
      apply wp_conj.
      + apply holds_scramble_entry; auto.
      + apply recorded_scramble_entry, Hn'. }
  intros [] s1 [Hs1 Hn1]. wp_simpl.
  rewrite not_realistic, not_peer_conflict. cbn [orb].
  wp_step. cbn [app] in Hn1. split; [exact Hs1|].
  intros t. specialize (Hn1 t). unfold one_more in *.
  destruct (decide (t = depType)); lia.
Qed.

Lemma recorded_loop aggression hints depTypes s :
  Inv s -> recorded_within (fun _ => 0%nat) s ->
  wp (for_of depTypes
        (scramble_category host_sort coerce pkg copy P aggression mode hints))
     (fun _ s' =>
        Inv s'
        /\ recorded_within
             (fun t => (count_occ DependencyType_eq_dec depTypes t
                        * selection_bound st0 pkg P t)%nat) s') s.
Proof.
  intros Hs H0.
  apply (wp_for_of_prefix depTypes _
           (fun done s' =>
              Inv s'
              /\ recorded_within
                   (fun t => (count_occ DependencyType_eq_dec done t
                              * selection_bound st0 pkg P t)%nat) s') [] s).
  - split; [exact Hs | exact H0].
  - intros x done' s' _ [Hs' Hn'].
    eapply wp_mono; [apply recorded_scramble_category; eassumption|].
    intros [] s1 [Hs1 Hn1]. split; [exact Hs1|].
    intros t. specialize (Hn1 t). unfold one_more in Hn1.
    rewrite count_occ_app. cbn [count_occ].
    destruct (decide (t = x)) as [->|Hne].
    + destruct (DependencyType_eq_dec x x); [|congruence]. lia.
    + destruct (DependencyType_eq_dec x t); [congruence|]. lia.
Qed.

End Recorded.

(** In a mode other than [realistic] and [peer-conflict], and for a
    percentage between 0 and 100, each pass over a category records at most
    [ceil(E * P / 100)] of its [E] names: a category listed once has at most
    that many recorded names, and a category that is not listed has none. *)
Theorem percentage_bounds_the_record
    (host_sort : list string -> sort_tree) (coerce : string -> option SemVer)
    (pkg : PackageJson) (options : RouletteOptions) (s : session) :
  rearranges host_sort -> valid_refs (allocated s) pkg ->
  is_mode (resolved_conflictMode options) "realistic" = false ->
  is_mode (resolved_conflictMode options) "peer-conflict" = false ->
  (0 <= resolved_scramblePercentage options)%Q ->
  (resolved_scramblePercentage options <= 100)%Q ->
  exists r s',
    scrambleDependencies host_sort coerce pkg options s = Ok r s'
    /\ forall t,
         (length (scrambled (result_scrambledDeps r) t)
          <= count_occ DependencyType_eq_dec (resolved_depTypes options) t
             * selection_bound (store s) pkg (resolved_scramblePercentage options) t)%nat.
Proof.
  intros Hsort Hv Hm1 Hm2 HP0 HP1.
  destruct (deep_copy_spec pkg s Hv) as (copy & s1 & E1 & G1 & Hent & Hfresh & Hinj).
  set (s2 := mkSession (store s1) (draws s1) (drawn s1) (mkScrambled [] [] [] []) []).
  assert (Hp2 : valid_refs (allocated s2) pkg).
  { intros t l Hl. apply (grows_allocated s s1 l G1), (Hv t), Hl. }
  assert (Hc2 : valid_refs (allocated s2) copy).
  { intros t l Hl. destruct (Hfresh t l Hl) as [_ H]. exact H. }
  destruct (selector_loop_confined host_sort coerce pkg copy options s2
              (fun l => True) Hp2 Hc2) as (s3 & E3 & _); [tauto|].
  exists (mkResult copy (scrambledDeps s3) (issues s3)), s3.
  split.
  { unfold scrambleDependencies, Eff.bind. rewrite E1.
    change (new_accumulators s1) with (Ok tt s2). cbv beta iota.
    rewrite E3. reflexivity. }
  cbn [modified result_scrambledDeps result_issues].
  assert (Hfresh0 : forall t l, category copy t = Some l -> store s !! l = None).
  { intros t l Hl. destruct (Hfresh t l Hl) as [Hn _].
    apply eq_None_not_Some. exact Hn. }
  assert (H2 : holds (store s) pkg copy s2).
  { apply (copy_holds pkg copy s s1); assumption. }
  assert (H0 : recorded_within (fun _ => 0%nat) s2).
  { intros t. destruct t; cbn; lia. }
  pose proof (recorded_loop host_sort coerce Hsort (store s) pkg copy Hv Hfresh0 Hinj
                (resolved_scramblePercentage options) (resolved_conflictMode options)
                HP0 HP1 Hm1 Hm2 (resolved_aggressionLevel options) (hints_for options)
                (resolved_depTypes options) s2 H2 H0) as Hloop.
  unfold wp in Hloop. rewrite E3 in Hloop. apply Hloop.
Qed.

Lemma percentage_bounds_the_record_witness :
  let s := Sample.start Sample.objects (always 0%Q) in
  let options := Sample.options [DEPENDENCIES; DEV_DEPENDENCIES] 50 5 "simple" [] in
  (rearranges Sample.binary_insertion_sort
   /\ valid_refs (allocated s) Sample.manifest
   /\ is_mode (resolved_conflictMode options) "realistic" = false
   /\ is_mode (resolved_conflictMode options) "peer-conflict" = false
   /\ (0 <= resolved_scramblePercentage options)%Q
   /\ (resolved_scramblePercentage options <= 100)%Q)
  /\ exists r s',
       scrambleDependencies Sample.binary_insertion_sort Sample.coerce
         Sample.manifest options s = Ok r s'
       /\ forall t,
            (length (scrambled (result_scrambledDeps r) t)
             <= count_occ DependencyType_eq_dec (resolved_depTypes options) t
                * selection_bound (store s) Sample.manifest
                    (resolved_scramblePercentage options) t)%nat.
Proof.
  intros s options.
  assert (H1 : rearranges Sample.binary_insertion_sort)
    by exact binary_insertion_rearranges.
  assert (H2 : valid_refs (allocated s) Sample.manifest)
    by apply sample_manifest_valid.
  assert (H3 : is_mode (resolved_conflictMode options) "realistic" = false)
    by reflexivity.
  assert (H4 : is_mode (resolved_conflictMode options) "peer-conflict" = false)
    by reflexivity.
  assert (H5 : (0 <= resolved_scramblePercentage options)%Q)
    by (vm_compute; discriminate).
  assert (H6 : (resolved_scramblePercentage options <= 100)%Q)
    by (vm_compute; discriminate).
  split; [tauto|].
  exact (percentage_bounds_the_record Sample.binary_insertion_sort Sample.coerce
           Sample.manifest options s H1 H2 H3 H4 H5 H6).
Defined.

(** ** The file layer *)

Lemma length_append (a b : string) :
  String.length (a ++ b) = (String.length a + String.length b)%nat.
Proof. induction a as [|c a IH]; simpl; [reflexivity | rewrite IH; reflexivity]. Qed.

Lemma append_assoc (a b c : string) : (a ++ b) ++ c = a ++ (b ++ c).
Proof.
  induction a as [|x a IH]; [reflexivity|].
  rewrite !append_cons, IH. reflexivity.
Qed.

(** The backup is never the file itself. *)
Lemma backup_is_another_file filePath w : backup_of filePath w <> filePath.
Proof.
  unfold backup_of. intros H. apply (f_equal String.length) in H.
  rewrite length_append in H. rewrite (append_cons "." _) in H.
  simpl in H. lia.
Qed.

Lemma target_of_merged options :
  target_or_default (targetPath (spread_defaults options))
  = target_or_default (targetPath options).
Proof. destruct options as [[tp|] cb dt sp ag vc rm cm]; reflexivity. Qed.

Section FileLayer.

Variable host_sort : list string -> sort_tree.
Variable coerce : string -> option SemVer.
Variable path_resolve : string -> string.
Variable JSON_parse : string -> Manifest + string.
Variable JSON_stringify : Manifest -> string.
Variable writable : string -> bool.
Variable readFile_error : string -> string.
Variable writeFile_error : string -> string.

Local Abbreviation load := (Files.loadPackageJson JSON_parse readFile_error).
Local Abbreviation save :=
  (Files.savePackageJson JSON_stringify writable writeFile_error).
Local Abbreviation backup :=
  (Files.createBackup writable readFile_error writeFile_error).
Local Abbreviation scramble :=
  (Files.scramblePackageJson host_sort coerce path_resolve JSON_parse
     JSON_stringify writable readFile_error writeFile_error).
Local Abbreviation restore :=
  (Files.restoreFromBackup path_resolve writable readFile_error writeFile_error).

(** Loading reads: it writes no file, whatever its outcome, and it resolves
    only when the file is there. *)
Lemma load_files filePath w :
  files (world_of (load filePath w)) = files w
  /\ clock (world_of (load filePath w)) = clock w
  /\ (forall pkg w', load filePath w = Resolved pkg w' -> is_Some (files w !! filePath)).
Proof.
  unfold Files.loadPackageJson, Files.rethrow, Files.bind, Files.fs_readFile.
  destruct (files w !! filePath) as [content|] eqn:E.
  - destruct (JSON_parse content) as [m|e]; cbn.
    + unfold Files.lift. destruct (Files.build m (mem w)); cbn; eauto.
    + split; [reflexivity|]. split; [reflexivity|]. intros; discriminate.
  - cbn. split; [reflexivity|]. split; [reflexivity|]. intros; discriminate.
Qed.

(** A backup writes the backup file or nothing. *)
Lemma backup_files filePath w :
  match backup filePath w with
  | Resolved p w' =>
      p = backup_of filePath w
      /\ clock w' = clock w
      /\ exists content, files w !! filePath = Some content
           /\ files w' = <[backup_of filePath w := content]> (files w)
  | Rejected _ w' => files w' = files w /\ clock w' = clock w
  end.
Proof.
  unfold Files.createBackup, Files.rethrow, Files.bind, Files.Date_now,
    Files.fs_readFile, Files.fs_writeFile, Files.ret.
  destruct (files w !! filePath) as [content|] eqn:E; [|split; reflexivity].
  fold (backup_of filePath w).
  destruct (writable (backup_of filePath w)); cbn; eauto.
Qed.

(** Saving writes the file or nothing. *)
Lemma save_files filePath data w :
  match save filePath data w with
  | Resolved _ w' =>
      exists text, files w' = <[filePath := text]> (files w)
  | Rejected _ w' => files w' = files w
  end.
Proof.
  unfold Files.savePackageJson, Files.rethrow, Files.bind, Files.lift,
    Files.fs_writeFile.
  destruct (Files.read_back data (mem w)) as [m s'|e]; [|reflexivity]. cbn.
  destruct (writable filePath); cbn; eauto.
Qed.

(** The files after a run, whatever its outcome: as they were; or with the
    backup; or with the backup and the new manifest; or, when no backup is
    asked for, with the new manifest only. *)
Lemma scramble_files options w :
  let T := target_file path_resolve options in
  let w' := world_of (scramble options w) in
  files w' = files w
  \/ (backup_requested (spread_defaults options) = true
      /\ exists content, files w !! T = Some content
           /\ (files w' = <[backup_of T w := content]> (files w)
               \/ exists text,
                    files w' = <[T := text]> (<[backup_of T w := content]> (files w))))
  \/ (backup_requested (spread_defaults options) = false
      /\ is_Some (files w !! T)
      /\ exists text, files w' = <[T := text]> (files w)).
Proof.
  intros T w'. assert (Hw' : w' = world_of (scramble options w)) by reflexivity.
  clearbody w'. subst T.
  unfold Files.scramblePackageJson, target_file in *.
  set (T := path_resolve _) in *.
  unfold Files.bind at 1 in Hw'.
  destruct (load_files T w) as (Hf & Hc & Hsome).
  destruct (load T w) as [pkg w1|e w1] eqn:E1; cbn in Hf, Hc;
    [|left; subst w'; exact Hf].
  specialize (Hsome pkg w1 eq_refl).
  unfold Files.bind at 1 in Hw'.
  destruct (backup_requested (spread_defaults options)) eqn:Hb.
  - unfold Files.bind at 1 in Hw'.
    pose proof (backup_files T w1) as Hbk.
    destruct (backup T w1) as [p w2|e w2];
      [|left; subst w'; cbn; destruct Hbk; congruence].
    destruct Hbk as (-> & Hc2 & content & Hread & Hw2).
    unfold Files.ret at 1 in Hw'.
    assert (HB : backup_of T w1 = backup_of T w).
    { unfold backup_of. rewrite Hc. reflexivity. }
    rewrite HB in Hw2. rewrite Hf in Hread, Hw2.
    right. left. split; [reflexivity|]. exists content. split; [exact Hread|].
    unfold Files.bind at 1, Files.lift at 1 in Hw'.
    destruct (scrambleDependencies host_sort coerce pkg (spread_defaults options)
                (mem w2)) as [r s'|e]; [|left; subst w'; exact Hw2].
    unfold Files.bind at 1 in Hw'.
    pose proof (save_files T (modified r) (mkWorld (files w2) (clock w2) s')) as Hsv.
    destruct (save T (modified r) _) as [[] w3|e w3]; cbn in *; subst w'.
    + right. destruct Hsv as (text & ->). exists text. rewrite Hw2. reflexivity.
    + left. rewrite Hsv. exact Hw2.
  - unfold Files.ret at 1 in Hw'.
    unfold Files.bind at 1, Files.lift at 1 in Hw'.
    destruct (scrambleDependencies host_sort coerce pkg (spread_defaults options)
                (mem w1)) as [r s'|e]; [|left; subst w'; exact Hf].
    unfold Files.bind at 1 in Hw'.
    pose proof (save_files T (modified r) (mkWorld (files w1) (clock w1) s')) as Hsv.
    destruct (save T (modified r) _) as [[] w3|e w3]; cbn in *; subst w'.
    + right. right. split; [reflexivity|]. split; [exact Hsome|].
      destruct Hsv as (text & ->). exists text. rewrite Hf. reflexivity.
    + left. rewrite Hsv. exact Hf.
Qed.

(** What a run that resolves has done, when a backup is asked for. *)
Lemma scramble_resolved options w res w1 :
  let T := target_file path_resolve options in
  backup_requested (spread_defaults options) = true ->
  scramble options w = Resolved res w1 ->
  exists content text,
    files w !! T = Some content
    /\ files w1 = <[T := text]> (<[backup_of T w := content]> (files w))
    /\ r_backupPath res = backup_of T w
    /\ writable T = true.
Proof.
  intros T Hb Hrun. subst T.
  unfold Files.scramblePackageJson, target_file in *.
  set (T := path_resolve _) in *.
  unfold Files.bind at 1 in Hrun.
  destruct (load_files T w) as (Hf & Hc & _).
  destruct (load T w) as [pkg w0|e w0] eqn:E1; cbn in Hf, Hc; [|discriminate].
  unfold Files.bind at 1 in Hrun. rewrite Hb in Hrun.
  unfold Files.bind at 1 in Hrun.
  pose proof (backup_files T w0) as Hbk.
  destruct (backup T w0) as [p w2|e w2]; [|discriminate].
  destruct Hbk as (-> & Hc2 & content & Hread & Hw2).
  unfold Files.ret at 1 in Hrun.
  assert (HB : backup_of T w0 = backup_of T w).
  { unfold backup_of. rewrite Hc. reflexivity. }
  rewrite HB in Hw2, Hrun. rewrite Hf in Hread, Hw2.
  unfold Files.bind at 1, Files.lift at 1 in Hrun.
  destruct (scrambleDependencies host_sort coerce pkg (spread_defaults options)
              (mem w2)) as [r s'|e]; [|discriminate].
  unfold Files.bind at 1 in Hrun.
  unfold Files.savePackageJson, Files.rethrow, Files.bind, Files.lift,
    Files.fs_writeFile in Hrun. cbn in Hrun.
  destruct (Files.read_back (modified r) s') as [m s''|e]; [|discriminate].
  cbn in Hrun. destruct (writable T) eqn:Hwr; [|discriminate].
  cbn in Hrun. injection Hrun as <- <-. cbn.
  exists content, (JSON_stringify m). rewrite Hw2.
  split; [exact Hread|]. split; [reflexivity|]. split; [|reflexivity].
  unfold string_or, backup_of.
  destruct T; reflexivity.
Qed.

End FileLayer.

(** With a backup asked for, the manifest is overwritten only after its
    backup is written: however the run ends, if the target file is not what
    it was, the backup file holds what it was. *)
Theorem overwrite_only_after_backup
    (host_sort : list string -> sort_tree) (coerce : string -> option SemVer)
    (path_resolve : string -> string) (JSON_parse : string -> Manifest + string)
    (JSON_stringify : Manifest -> string) (writable : string -> bool)
    (readFile_error writeFile_error : string -> string)
    (options : RouletteOptions) (w : world) :
  let T := target_file path_resolve options in
  let w' :=
    world_of (Files.scramblePackageJson host_sort coerce path_resolve JSON_parse
                JSON_stringify writable readFile_error writeFile_error options w) in
  backup_requested (spread_defaults options) = true ->
  files w' !! T <> files w !! T ->
  is_Some (files w !! T) /\ files w' !! backup_of T w = files w !! T.
Proof.
  intros T w' Hb Hdiff.
  destruct (scramble_files host_sort coerce path_resolve JSON_parse JSON_stringify
              writable readFile_error writeFile_error options w)
    as [Hsame|[(_ & content & Hread & [Hbk|(text & Hboth)])|(Hno & _)]];
    fold T in Hsame || fold T in Hread, Hbk || fold T in Hread, Hboth || idtac;
    fold w' in Hsame || fold w' in Hbk || fold w' in Hboth || idtac.
  - exfalso. apply Hdiff. rewrite Hsame. reflexivity.
  - exfalso. apply Hdiff. rewrite Hbk.
    apply lookup_insert_ne, backup_is_another_file.
  - split; [rewrite Hread; eauto|]. rewrite Hboth, Hread.
    rewrite lookup_insert_ne
      by (intros H; symmetry in H; exact (backup_is_another_file T w H)).
    apply lookup_insert_eq.
  - congruence.
Qed.

(** A run writes the manifest and, when a backup is asked for, the backup
    file; every other file is as it was, however the run ends. *)
Theorem run_writes_target_and_backup
    (host_sort : list string -> sort_tree) (coerce : string -> option SemVer)
    (path_resolve : string -> string) (JSON_parse : string -> Manifest + string)
    (JSON_stringify : Manifest -> string) (writable : string -> bool)
    (readFile_error writeFile_error : string -> string)
    (options : RouletteOptions) (w : world) (p : string) :
  let T := target_file path_resolve options in
  let w' :=
    world_of (Files.scramblePackageJson host_sort coerce path_resolve JSON_parse
                JSON_stringify writable readFile_error writeFile_error options w) in
  p <> T ->
  (backup_requested (spread_defaults options) = true -> p <> backup_of T w) ->
  files w' !! p = files w !! p.
Proof.
  intros T w' HT HB.
  destruct (scramble_files host_sort coerce path_resolve JSON_parse JSON_stringify
              writable readFile_error writeFile_error options w)
    as [Hsame|[(Hb & content & Hread & [Hbk|(text & Hboth)])|(Hno & _ & text & Hsave)]];
    fold T in Hsame || fold T in Hread, Hbk || fold T in Hread, Hboth
    || fold T in Hsave || idtac;
    fold w' in Hsame || fold w' in Hbk || fold w' in Hboth || fold w' in Hsave
    || idtac.
  - rewrite Hsame. reflexivity.
  - rewrite Hbk. apply lookup_insert_ne. intros H. apply (HB Hb). auto.
  - rewrite Hboth. rewrite lookup_insert_ne by auto.
    apply lookup_insert_ne. intros H. apply (HB Hb). auto.
  - rewrite Hsave. apply lookup_insert_ne. auto.
Qed.

(** After a run with a backup that resolved, restoring from the backup path
    it returned to the same target resolves and gives the manifest the
    content it had before the run; no other file is touched. *)
Theorem restore_undoes_scramble
    (host_sort : list string -> sort_tree) (coerce : string -> option SemVer)
    (path_resolve : string -> string) (JSON_parse : string -> Manifest + string)
    (JSON_stringify : Manifest -> string) (writable : string -> bool)
    (readFile_error writeFile_error : string -> string)
    (options : RouletteOptions) (w : world) (res : ScrambleResult) (w1 : world) :
  let T := target_file path_resolve options in
  backup_requested (spread_defaults options) = true ->
  Files.scramblePackageJson host_sort coerce path_resolve JSON_parse JSON_stringify
    writable readFile_error writeFile_error options w = Resolved res w1 ->
  exists w2,
    Files.restoreFromBackup path_resolve writable readFile_error writeFile_error
      (r_backupPath res) (targetPath options) w1 = Resolved tt w2
    /\ files w2 !! T = files w !! T
    /\ forall p, p <> T -> files w2 !! p = files w1 !! p.
Proof.
  intros T Hb Hrun.
  destruct (scramble_resolved host_sort coerce path_resolve JSON_parse JSON_stringify
              writable readFile_error writeFile_error options w res w1 Hb Hrun)
    as (content & text & Hread & Hw1 & Hpath & Hwr).
  fold T in Hread, Hw1, Hpath, Hwr.
  unfold Files.restoreFromBackup, Files.rethrow, Files.bind, Files.fs_readFile,
    Files.fs_writeFile.
  rewrite <- target_of_merged. fold (target_file path_resolve options). fold T.
  rewrite Hpath, Hw1.
  rewrite lookup_insert_ne
    by (intros H; symmetry in H; exact (backup_is_another_file T w H)).
  rewrite lookup_insert_eq, Hwr.
  eexists. split; [reflexivity|]. cbn. split.
  - rewrite lookup_insert_eq. symmetry. exact Hread.
  - intros p Hp. rewrite lookup_insert_ne by auto. rewrite Hw1. reflexivity.
Qed.

(** When the manifest cannot be read or its text cannot be parsed, the run
    is rejected with the error of [loadPackageJson], and nothing has
    changed: no backup, no write. *)
Theorem unreadable_manifest_changes_nothing
    (host_sort : list string -> sort_tree) (coerce : string -> option SemVer)
    (path_resolve : string -> string) (JSON_parse : string -> Manifest + string)
    (JSON_stringify : Manifest -> string) (writable : string -> bool)
    (readFile_error writeFile_error : string -> string)
    (options : RouletteOptions) (w : world) :
  let T := target_file path_resolve options in
  (files w !! T = None
   \/ exists content error, files w !! T = Some content
                            /\ JSON_parse content = inr error) ->
  exists cause,
    Files.scramblePackageJson host_sort coerce path_resolve JSON_parse JSON_stringify
      writable readFile_error writeFile_error options w
    = Rejected ("Error: Failed to load package.json from " ++ T ++ ": " ++ cause) w.
Proof.
  intros T H. unfold Files.scramblePackageJson.
  fold (target_file path_resolve options). fold T.
  unfold Files.bind at 1, Files.loadPackageJson, Files.rethrow, Files.bind,
    Files.fs_readFile.
  destruct H as [H|(content & error & H & Hp)]; rewrite H.
  - exists (readFile_error T).
    rewrite (append_assoc "Failed to load package.json from " (T ++ ": ")),
      (append_assoc T ": ").
    reflexivity.
  - rewrite Hp. unfold Files.reject. exists error.
    rewrite (append_assoc "Failed to load package.json from " (T ++ ": ")),
      (append_assoc T ": ").
    reflexivity.
Qed.

Lemma overwrite_only_after_backup_witness :
  let T := target_file Disk.resolve Disk.options in
  let w' := world_of (Disk.scramblePackageJson Disk.options Disk.world) in
  (backup_requested (spread_defaults Disk.options) = true
   /\ files w' !! T <> files Disk.world !! T)
  /\ is_Some (files Disk.world !! T)
  /\ files w' !! backup_of T Disk.world = files Disk.world !! T.
Proof.
  intros T w'.
  assert (H1 : backup_requested (spread_defaults Disk.options) = true)
    by reflexivity.
  assert (H2 : files w' !! T <> files Disk.world !! T)
    by (intros H; vm_compute in H; discriminate).
  split; [split; assumption|].
  exact (overwrite_only_after_backup Sample.binary_insertion_sort Sample.coerce
           Disk.resolve Disk.parse Disk.stringify Disk.writable
           Disk.readFile_error Disk.writeFile_error Disk.options Disk.world H1 H2).
Defined.

Lemma run_writes_target_and_backup_witness :
  let T := target_file Disk.resolve Disk.options in
  let w' := world_of (Disk.scramblePackageJson Disk.options Disk.world) in
  ("/app/index.js" <> T
   /\ (backup_requested (spread_defaults Disk.options) = true ->
       "/app/index.js" <> backup_of T Disk.world))
  /\ files w' !! "/app/index.js" = files Disk.world !! "/app/index.js".
Proof.
  intros T w'.
  assert (H1 : "/app/index.js" <> T) by (vm_compute; discriminate).
  assert (H2 : backup_requested (spread_defaults Disk.options) = true ->
               "/app/index.js" <> backup_of T Disk.world)
    by (intros _; vm_compute; discriminate).
  split; [split; assumption|].
  exact (run_writes_target_and_backup Sample.binary_insertion_sort Sample.coerce
           Disk.resolve Disk.parse Disk.stringify Disk.writable
           Disk.readFile_error Disk.writeFile_error Disk.options Disk.world
           "/app/index.js" H1 H2).
Defined.

Lemma restore_undoes_scramble_witness :
  let T := target_file Disk.resolve Disk.options in
  match Disk.scramblePackageJson Disk.options Disk.world with
  | Resolved res w1 =>
      (backup_requested (spread_defaults Disk.options) = true
       /\ Disk.scramblePackageJson Disk.options Disk.world = Resolved res w1)
      /\ exists w2,
           Disk.restoreFromBackup (r_backupPath res) (targetPath Disk.options) w1
           = Resolved tt w2
           /\ files w2 !! T = files Disk.world !! T
           /\ forall p, p <> T -> files w2 !! p = files w1 !! p
  | Rejected _ _ => False
  end.
Proof.
  intros T.
  assert (H1 : backup_requested (spread_defaults Disk.options) = true)
    by reflexivity.
  destruct (Disk.scramblePackageJson Disk.options Disk.world) as [res w1|e w1]
    eqn:H2.
  - split; [split; [exact H1 | reflexivity]|].
    exact (restore_undoes_scramble Sample.binary_insertion_sort Sample.coerce
             Disk.resolve Disk.parse Disk.stringify Disk.writable
             Disk.readFile_error Disk.writeFile_error Disk.options Disk.world
             res w1 H1 H2).
  - vm_compute in H2. discriminate.
Defined.

Lemma unreadable_manifest_changes_nothing_witness :
  let T := target_file Disk.resolve Disk.options in
  let w := mkWorld ∅ 0 (Sample.start ∅ (always 0%Q)) in
  (files w !! T = None
   \/ exists content error, files w !! T = Some content
                            /\ Disk.parse content = inr error)
  /\ exists cause,
       Disk.scramblePackageJson Disk.options w
       = Rejected ("Error: Failed to load package.json from " ++ T ++ ": " ++ cause) w.
Proof.
  intros T w.
  assert (H1 : files w !! T = None
               \/ exists content error, files w !! T = Some content
                                        /\ Disk.parse content = inr error)
    by (left; reflexivity).
  split; [exact H1|].
  exact (unreadable_manifest_changes_nothing Sample.binary_insertion_sort
           Sample.coerce Disk.resolve Disk.parse Disk.stringify Disk.writable
           Disk.readFile_error Disk.writeFile_error Disk.options w H1).
Defined.

(** ** Package families *)

Lemma span_drop_not_slash s : s = span_not_slash s ++ drop_not_slash s.
Proof.
  induction s as [|c s IH]; [reflexivity|]. simpl.
  destruct (Ascii.eqb c "/"); [reflexivity|].
  rewrite append_cons. f_equal. exact IH.
Qed.

Lemma span_not_slash_lacks s : lacks "/" (span_not_slash s) = true.
Proof.
  induction s as [|c s IH]; [reflexivity|]. simpl.
  destruct (Ascii.eqb c "/") eqn:E; [reflexivity|].
  unfold lacks. simpl. rewrite E. exact IH.
Qed.

Lemma drop_not_slash_head s :
  drop_not_slash s = "" \/ exists r, drop_not_slash s = String "/" r.
Proof.
  induction s as [|c s IH]; [left; reflexivity|]. simpl.
  destruct (Ascii.eqb_spec c "/") as [->|Hne]; [right; eauto | exact IH].
Qed.

Lemma span_not_slash_app a r :
  lacks "/" a = true -> span_not_slash (a ++ String "/" r) = a.
Proof.
  induction a as [|c a IH]; intros H; [reflexivity|].
  unfold lacks in H. simpl in H. apply andb_true_iff in H. destruct H as [Hc Ha].
  rewrite append_cons. simpl. apply negb_true_iff in Hc. rewrite Hc.
  f_equal. apply IH, Ha.
Qed.

Lemma drop_not_slash_app a r :
  lacks "/" a = true -> drop_not_slash (a ++ String "/" r) = String "/" r.
Proof.
  induction a as [|c a IH]; intros H; [reflexivity|].
  unfold lacks in H. simpl in H. apply andb_true_iff in H. destruct H as [Hc Ha].
  rewrite append_cons. simpl. apply negb_true_iff in Hc. rewrite Hc.
  apply IH, Ha.
Qed.

Lemma span_not_slash_app_lacks a b :
  lacks "/" a = true -> span_not_slash (a ++ b) = a ++ span_not_slash b.
Proof.
  induction a as [|c a IH]; intros H; [reflexivity|].
  unfold lacks in H. simpl in H. apply andb_true_iff in H. destruct H as [Hc Ha].
  rewrite !append_cons. simpl. apply negb_true_iff in Hc. rewrite Hc.
  f_equal. apply IH, Ha.
Qed.

Lemma lacks_app c a b : lacks c (a ++ b) = (lacks c a && lacks c b)%bool.
Proof.
  induction a as [|x a IH]; [reflexivity|].
  rewrite append_cons. unfold lacks in *. simpl. rewrite IH.
  apply andb_assoc.
Qed.

(** The longest prefix that ends with a hyphen. *)
Lemma longest_dash_none s : longest_dash s = None <-> lacks "-" s = true.
Proof.
  induction s as [|c s IH]; [split; reflexivity|]. simpl.
  destruct (longest_dash s) as [p|].
  - split; [discriminate|]. unfold lacks. simpl. intros H.
    apply andb_true_iff in H. destruct H as [_ H].
    destruct IH as [_ IH]. specialize (IH H). discriminate.
  - destruct IH as [IH _]. specialize (IH eq_refl).
    unfold lacks in *. simpl. rewrite IH, andb_true_r.
    destruct (Ascii.eqb c "-"); split; (reflexivity || discriminate).
Qed.

Lemma longest_dash_some s p :
  longest_dash s = Some p <->
  exists body rest, p = body ++ "-" /\ s = body ++ String "-" rest
                    /\ lacks "-" rest = true.
Proof.
  revert p. induction s as [|c s IH]; intros p.
  - simpl. split; [discriminate|]. intros (body & rest & _ & H & _).
    destruct body; discriminate.
  - simpl. destruct (longest_dash s) as [q|] eqn:E.
    + split.
      * intros [= <-]. destruct (proj1 (IH q) eq_refl) as (body & rest & -> & -> & Hr).
        exists (String c body), rest. repeat split; assumption.
      * intros (body & rest & -> & Hs & Hr).
        destruct body as [|x body].
        -- injection Hs as -> ->.
           apply longest_dash_none in Hr. congruence.
        -- rewrite append_cons in Hs. injection Hs as -> ->.
           rewrite append_cons. f_equal. f_equal.
           assert (H : Some q = Some (body ++ "-")).
           { apply IH. eauto. }
           congruence.
    + apply longest_dash_none in E. split.
      * destruct (Ascii.eqb_spec c "-") as [->|Hne]; [|discriminate].
        intros [= <-]. exists "", s. repeat split; assumption.
      * intros (body & rest & -> & Hs & Hr).
        destruct body as [|x body].
        -- injection Hs as -> ->. reflexivity.
        -- rewrite append_cons in Hs. injection Hs as -> ->.
           rewrite lacks_app in E. apply andb_true_iff in E. destruct E as [_ E].
           unfold lacks in E. simpl in E. discriminate.
Qed.

(** The model of the family pattern captures exactly what the pattern
    describes: the scope of a scoped name with its slash, or else the longest
    prefix of the first path segment that ends with a hyphen after at least
    two characters. *)
Theorem family_prefix_is_the_pattern (dep p : string) :
  family_prefix dep = Some p <-> family_shape dep p.
Proof.
  split.
  - destruct dep as [|c0 rest]; [discriminate|]. simpl.
    destruct (Ascii.eqb_spec c0 "@") as [->|Hne].
    + destruct (span_not_slash rest) as [|x run] eqn:Hrun; [discriminate|].
      destruct (drop_not_slash rest) as [|y tail] eqn:Htail; [discriminate|].
      intros [= <-].
      destruct (drop_not_slash_head rest) as [H|(r & H)]; [congruence|].
      rewrite Htail in H. injection H as -> ->.
      apply (family_scoped _ (String x run) r); [discriminate | |].
      * rewrite <- Hrun. apply span_not_slash_lacks.
      * f_equal. rewrite <- Hrun, <- Htail. apply span_drop_not_slash.
    + destruct (span_not_slash rest) as [|c1 r] eqn:Hrun; [discriminate|].
      destruct (longest_dash r) as [q|] eqn:Hq; [|discriminate].
      intros [= <-].
      apply longest_dash_some in Hq. destruct Hq as (body & more & -> & -> & Hr).
      pose proof (span_not_slash_lacks rest) as Hl. rewrite Hrun in Hl.
      change (String c1 (body ++ String "-" more))
        with (String c1 body ++ String "-" more) in Hl.
      rewrite lacks_app in Hl. apply andb_true_iff in Hl. destruct Hl as [Hb Hm].
      apply (family_hyphenated _ c0 (String c1 body) (more ++ drop_not_slash rest));
        [assumption | discriminate | assumption | |].
      * unfold lacks in Hm. simpl in Hm.
        rewrite span_not_slash_app_lacks by exact Hm.
        rewrite lacks_app, Hr. simpl.
        destruct (drop_not_slash_head rest) as [->|(t & ->)]; reflexivity.
      * f_equal. rewrite (span_drop_not_slash rest) at 1. rewrite Hrun.
        rewrite !append_cons. f_equal.
        rewrite append_assoc, append_cons. reflexivity.
  - intros [scope rest Hs Hl ->|c body rest Hc Hb Hl Hd ->]; simpl.
    + rewrite span_not_slash_app, drop_not_slash_app by assumption.
      destruct scope; [congruence | reflexivity].
    + destruct (Ascii.eqb_spec c "@") as [|_]; [congruence|].
      destruct body as [|c1 body]; [congruence|].
      unfold lacks in Hl. simpl in Hl. apply andb_true_iff in Hl.
      destruct Hl as [H1 Hl]. apply negb_true_iff in H1.
      rewrite append_cons. simpl. rewrite H1.
      change (String "-" rest) with ("-" ++ rest).
      rewrite <- append_assoc.
      assert (Hl' : lacks "/" (body ++ "-") = true).
      { rewrite lacks_app, andb_true_iff. split; [exact Hl | reflexivity]. }
      rewrite span_not_slash_app_lacks by exact Hl'.
      assert (Hq : longest_dash ((body ++ "-") ++ span_not_slash rest)
                   = Some (body ++ "-")).
      { apply longest_dash_some. exists body, (span_not_slash rest).
        split; [reflexivity|]. split; [|exact Hd].
        rewrite append_assoc. reflexivity. }
      rewrite Hq. reflexivity.
Qed.

(** ** The peer strategy *)


Lemma lookup_property_own o k v :
  lookup_property o k = Own v -> get_prop o k = Some v.
Proof.
  unfold lookup_property. destruct (get_prop o k); [congruence|].
  destruct (mem_string k Object_prototype_keys); discriminate.
Qed.

Lemma coerce_valid_own coerce rv text c :
  coerce_valid coerce rv = Some (text, c) ->
  rv = Own text /\ coerce text = Some c /\ text <> "".
Proof.
  destruct rv as [v| |]; simpl; try discriminate.
  destruct v as [|x v]; simpl; [discriminate|].
  destruct (coerce (String x v)) eqn:E; [|discriminate].
  intros [= <- <-]. repeat split; [exact E | discriminate].
Qed.

(** What strategy 1 has done when it returns: nothing but draws, or one
    conflict for a name [x] that is a peer dependency and a regular
    dependency of the original, whose regular specifier [semver] can read. *)
Lemma peer_conflict_strategy_spec coerce original modified current mode s :
  wp (peer_conflict_strategy coerce original modified current mode)
     (fun _ s' =>
        only_drew s s'
        \/ exists x v regular peer line,
             entries s (dependencies original) = Some regular
             /\ entries s (peerDependencies original) = Some peer
             /\ In x (Object_keys peer)
             /\ get_prop regular x = Some v /\ v <> ""
             /\ coerce v <> None
             /\ scrambledDeps s'
                = scrambled_push (scrambledDeps s) PEER_DEPENDENCIES x
             /\ issues s' = (issues s ++ [line])%list) s.
Proof.
  unfold peer_conflict_strategy.
  assert (Hidle : forall j,
            only_drew s (mkSession (store s) (draws s) j (scrambledDeps s) (issues s)))
    by (intros; repeat split).
  wp_let applies j.
  destruct (negb applies); [wp_step; left; apply Hidle|].
  destruct (negb (is_Some_bool _)); [wp_step; left; apply Hidle|].
  wp_let l Hl. wp_let regular Hregular.
  destruct (negb (Nat.ltb _ _)); [wp_step; left; apply Hidle|].
  wp_let peerDeps HpeerDeps.
  wp_step. wp_let l' Hl'. wp_let regular' Hregular'.
  assert (l' = l) by congruence. subst l'.
  assert (regular' = regular) by congruence. subst regular'.
  set (sharedDeps := filter _ (Object_keys peerDeps)).
  assert (Hshared : forall x, In x sharedDeps -> In x (Object_keys peerDeps)).
  { intros x. apply filter_In_keys. }
  clearbody sharedDeps.
  destruct (negb (Nat.ltb _ _)); [wp_step; left; apply Hidle|].
  set (s1 := mkSession (store s) (draws s) j (scrambledDeps s) (issues s)).
  assert (H1 : only_drew s s1) by apply Hidle.
  wp_step.
  apply (wp_mono _ (fun b s' => only_drew s s'
                                /\ (b = true -> In "react" sharedDeps))).
  { destruct (mem_string "react" sharedDeps) eqn:Hreact.
    - wp_let b j'. split; [apply Hidle|]. intros _. apply mem_string_In, Hreact.
    - wp_step. split; [exact H1 | discriminate]. }
  clear s1 H1. intros preferReact s2 [H2 Hreact]. wp_simpl.
  wp_step.
  apply (wp_mono _ (fun d s' => only_drew s s'
                                /\ (forall x, d = Some x -> In x sharedDeps))).
  { destruct preferReact.
    - wp_step. split; [exact H2|]. intros x [= <-]. auto.
    - wp_let i' j'. wp_step. split.
      + destruct H2 as (? & ? & ? & ?). repeat split; assumption.
      + intros x. apply index_In. }
  clear dependent s2. intros sharedDep s3 [H3 Hdep]. wp_simpl.
  wp_step.
  apply (wp_mono _ (fun rv s' =>
           only_drew s s'
           /\ (forall text c, coerce_valid coerce rv = Some (text, c) ->
                 exists x, sharedDep = Some x /\ x <> ""
                           /\ get_prop regular x = Some text))).
  { destruct (is_Some_bool (dependencies original) && truthy sharedDep)%bool eqn:Hg.
    - wp_let l2 Hl2. wp_let o2 Ho2. wp_step. split; [exact H3|].
      intros text c Hcv. apply coerce_valid_own in Hcv. destruct Hcv as (Hown & _ & _).
      apply andb_true_iff in Hg. destruct Hg as [_ Hg].
      destruct sharedDep as [[|c0 x]|]; try discriminate.
      exists (String c0 x). split; [reflexivity|]. split; [discriminate|].
      apply lookup_property_own in Hown. cbn [or_empty] in Hown.
      assert (l2 = l) by congruence. subst l2.
      destruct H3 as (Hst & _). rewrite Hst in Ho2.
      assert (o2 = regular) by congruence. subst o2. exact Hown.
    - wp_step. split; [exact H3|]. intros text c. discriminate. }
  clear dependent s3. intros regularVersion s4 [H4 Hrv]. wp_simpl.
  destruct (coerce_valid coerce regularVersion) as [[regularText coerced]|] eqn:Hcv;
    [|wp_step; left; exact H4].
  destruct (Hrv _ _ eq_refl) as (x & -> & Hx & Hget).
  apply coerce_valid_own in Hcv. destruct Hcv as (_ & Hco & Hne).
  wp_let strategyChoice j3. wp_let conflictVersion j4.
  assert (Hresult : forall st text,
    (fun s' : session =>
       only_drew s s'
       \/ exists x v regular peer line,
            entries s (dependencies original) = Some regular
            /\ entries s (peerDependencies original) = Some peer
            /\ In x (Object_keys peer)
            /\ get_prop regular x = Some v /\ v <> ""
            /\ coerce v <> None
            /\ scrambledDeps s'
               = scrambled_push (scrambledDeps s) PEER_DEPENDENCIES x
            /\ issues s' = (issues s ++ [line])%list)
      (mkSession st (draws s4) j4
         (scrambled_push (scrambledDeps s4) PEER_DEPENDENCIES x)
         (issues s4 ++ [text])%list)).
  { intros st text. right. destruct H4 as (_ & _ & Hsd & His).
    destruct (category original PEER_DEPENDENCIES) as [lp|] eqn:Hp.
    - exists x, regularText, regular, peerDeps. eexists.
      cbn [scrambledDeps issues]. rewrite Hsd, His.
      change (peerDependencies original) with (category original PEER_DEPENDENCIES).
      rewrite Hl, Hp. cbn [entries].
      repeat split; try assumption; try reflexivity.
      + apply Hshared, Hdep. reflexivity.
      + congruence.
    - subst peerDeps. exfalso. apply (Hshared x (Hdep x eq_refl)). }
  destruct (is_Some_bool (category modified PEER_DEPENDENCIES)) eqn:Hm;
    [|wp_step; left; destruct H4 as (? & ? & ? & ?); repeat split; assumption].
  assert (Htruthy : truthy (Some x) = true) by (destruct x; [congruence | reflexivity]).
  rewrite Htruthy. cbn [andb or_empty show_optional].
  wp_step. wp_let m Hmm. wp_let om Hom. do 3 wp_step.
  apply Hresult.
Qed.

(** Strategy 1 returns, and either it has only drawn, or it has recorded one
    conflict under [peerDependencies], for a name that the original lists
    both as a peer dependency and as a regular dependency with a non-empty
    specifier that [semver.coerce] accepts. *)
Theorem peer_conflict_needs_shared_name
    (coerce : string -> option SemVer) (original modified : PackageJson)
    (current : DependencyType) (mode : string) (s : session) :
  valid_refs (allocated s) original -> valid_refs (allocated s) modified ->
  exists s',
    peer_conflict_strategy coerce original modified current mode s = Ok tt s'
    /\ (only_drew s s'
        \/ exists x v regular peer line,
             entries s (dependencies original) = Some regular
             /\ entries s (peerDependencies original) = Some peer
             /\ In x (Object_keys peer)
             /\ get_prop regular x = Some v /\ v <> ""
             /\ coerce v <> None
             /\ scrambledDeps s'
                = scrambled_push (scrambledDeps s) PEER_DEPENDENCIES x
             /\ issues s' = (issues s ++ [line])%list).
Proof.
  intros Ho Hm.
  destruct (confined_peer_conflict_strategy coerce (allocated s) (fun _ => True)
              original modified Ho Hm current mode) with (s := s)
    as ([] & s' & E & _); [tauto | auto |].
  exists s'. split; [exact E|].
  pose proof (peer_conflict_strategy_spec coerce original modified current mode s)
    as Hwp.
  unfold wp in Hwp. rewrite E in Hwp. exact Hwp.
Qed.

Lemma peer_conflict_needs_shared_name_witness :
  let s := Sample.start Sample.objects (always 0%Q) in
  (valid_refs (allocated s) Sample.manifest
   /\ valid_refs (allocated s) Sample.manifest)
  /\ exists s',
       peer_conflict_strategy Sample.coerce Sample.manifest Sample.manifest
         PEER_DEPENDENCIES "peer-conflict" s = Ok tt s'
       /\ (only_drew s s'
           \/ exists x v regular peer line,
                entries s (dependencies Sample.manifest) = Some regular
                /\ entries s (peerDependencies Sample.manifest) = Some peer
                /\ In x (Object_keys peer)
                /\ get_prop regular x = Some v /\ v <> ""
                /\ Sample.coerce v <> None
                /\ scrambledDeps s'
                   = scrambled_push (scrambledDeps s) PEER_DEPENDENCIES x
                /\ issues s' = (issues s ++ [line])%list).
Proof.
  intros s.
  assert (H1 : valid_refs (allocated s) Sample.manifest)
    by apply sample_manifest_valid.
  split; [split; exact H1|].
  exact (peer_conflict_needs_shared_name Sample.coerce Sample.manifest
           Sample.manifest PEER_DEPENDENCIES "peer-conflict" s H1 H1).
Defined.

(** ** The random comparator as a fair coin *)

Section Coins.

Local Open Scope nat_scope.

(** How many draw sequences of [space] satisfy [g]. *)
Local Abbreviation count g space := (length (filter (fun w => Is_true (g w)) space)).

Lemma count_cons {A : Type} (g : A -> bool) x l :
  count g (x :: l) = (if g x then 1 else 0) + count g l.
Proof.
  rewrite filter_cons. destruct (decide (Is_true (g x))) as [E|E].
  - apply Is_true_true in E. rewrite E. reflexivity.
  - apply Is_true_false in E. rewrite E. reflexivity.
Qed.

Lemma count_app {A : Type} (g : A -> bool) l l' :
  count g (l ++ l')%list = count g l + count g l'.
Proof. rewrite filter_app, length_app. reflexivity. Qed.

Lemma count_ext {A : Type} (g g' : A -> bool) l :
  (forall w, g w = g' w) -> count g l = count g' l.
Proof.
  intros H. induction l as [|x l IH]; [reflexivity|].
  rewrite !count_cons, IH, H. reflexivity.
Qed.

Lemma count_map_cons {A : Type} (g : list A -> bool) r l :
  count g (map (cons r) l) = count (fun w => g (r :: w)) l.
Proof.
  induction l as [|x l IH]; [reflexivity|].
  cbn [map]. rewrite !count_cons, IH. reflexivity.
Qed.

Lemma count_const {A : Type} (c : bool) (l : list A) :
  count (fun _ => c) l = if c then length l else 0.
Proof.
  induction l as [|x l IH]; [destruct c; reflexivity|].
  rewrite count_cons, IH. destruct c; reflexivity.
Qed.

(** Over all first draws, a property that looks only at the sign of the
    first draw's answer. *)
Lemma count_flat_map {A : Type} (g : list A -> bool) (side : A -> bool)
    (tails : list (list A)) (heads : list A) (yes no : nat) :
  (forall r, count (fun w => g (r :: w)) tails = if side r then yes else no) ->
  count g (flat_map (fun r => map (cons r) tails) heads)
  = length (List.filter side heads) * yes
    + length (List.filter (fun r => negb (side r)) heads) * no.
Proof.
  intros H. induction heads as [|r heads IH]; [reflexivity|].
  cbn [flat_map List.filter]. rewrite count_app, count_map_cons, H, IH.
  destruct (side r); cbn [negb length]; lia.
Qed.

(** The comparator's answer on the draw [k / 2^(b+1)] is negative exactly
    for [k] below [2^b]. *)
Lemma negative_answer b k :
  Qltb ((Z.of_nat k # Pos.of_nat (2 ^ S b)) - (1 # 2)) 0 = (k <? 2 ^ b).
Proof.
  assert (Hpos : 2 ^ b <> 0) by (apply Nat.pow_nonzero; lia).
  assert (Hden : Z.pos (Pos.of_nat (2 ^ S b)) = (2 * Z.of_nat (2 ^ b))%Z).
  { rewrite <- positive_nat_Z, Nat2Pos.id by (apply Nat.pow_nonzero; lia).
    rewrite Nat.pow_succ_r'. lia. }
  unfold Qltb, Qle_bool, Qminus, Qplus, Qopp. cbn [Qnum Qden].
  rewrite Hden.
  destruct (Nat.ltb_spec k (2 ^ b)); [apply negb_true_iff | apply negb_false_iff];
    [apply Z.leb_gt | apply Z.leb_le]; lia.
Qed.

Lemma filter_seq_below n m :
  length (List.filter (fun k => k <? n) (seq 0 (n + m))) = n.
Proof.
  rewrite seq_app, List.filter_app, length_app.
  assert (H1 : forall a len, a + len <= n ->
            length (List.filter (fun k => k <? n) (seq a len)) = len).
  { intros a len. revert a. induction len as [|len IH]; intros a Ha; [reflexivity|].
    cbn [seq List.filter]. destruct (Nat.ltb_spec a n); [|lia].
    cbn [length]. rewrite IH by lia. reflexivity. }
  assert (H2 : forall a len, n <= a ->
            length (List.filter (fun k => k <? n) (seq a len)) = 0).
  { intros a len. revert a. induction len as [|len IH]; intros a Ha; [reflexivity|].
    cbn [seq List.filter]. destruct (Nat.ltb_spec a n); [lia|].
    apply IH. lia. }
  rewrite H1, H2 by lia. lia.
Qed.

Lemma filter_seq_above n m :
  length (List.filter (fun k => negb (k <? n)) (seq 0 (n + m))) = m.
Proof.
  pose proof (List.filter_length (fun k => k <? n) (seq 0 (n + m))) as H.
  rewrite filter_seq_below, length_seq in H. lia.
Qed.

Lemma filter_map_length {A B : Type} (f : A -> B) (g : B -> bool) l :
  length (List.filter g (map f l)) = length (List.filter (fun x => g (f x)) l).
Proof.
  induction l as [|x l IH]; [reflexivity|].
  cbn [map List.filter]. destruct (g (f x)); cbn [length]; rewrite IH; reflexivity.
Qed.

(** Half of the draws of a generator with at least one random bit give a
    negative answer. *)
Lemma negative_half b :
  length (List.filter (fun r => Qltb (r - (1 # 2)) 0) (bit_draws (S b))) = 2 ^ b
  /\ length (List.filter (fun r => negb (Qltb (r - (1 # 2)) 0)) (bit_draws (S b)))
     = 2 ^ b.
Proof.
  unfold bit_draws. rewrite !filter_map_length.
  assert (E : 2 ^ S b = 2 ^ b + 2 ^ b) by (rewrite Nat.pow_succ_r'; lia).
  split.
  - rewrite (List.filter_ext _ (fun k => k <? 2 ^ b))
      by (intros k; apply negative_answer).
    rewrite E. apply filter_seq_below.
  - rewrite (List.filter_ext _ (fun k => negb (k <? 2 ^ b)))
      by (intros k; rewrite negative_answer; reflexivity).
    rewrite E. apply filter_seq_above.
Qed.

(** A sort reads the stream from where it stands. *)
Lemma run_sort_shift t r w i :
  fst (run_sort t (script (r :: w)) (S i)) = fst (run_sort t (script w) i).
Proof.
  revert i. induction t as [result|n IHn z IHz p IHp]; intros i; [reflexivity|].
  cbn [run_sort]. unfold Rand.bind, Math_random.
  change (script (r :: w) (S i)) with (script w i).
  destruct (Qltb _ _); [apply IHn|]. destruct (Qeq_bool _ _); [apply IHz | apply IHp].
Qed.

(** The count of the draw sequences that lead a sign-only sort to an array
    with property [f]: every outcome of the coins stands for as many draw
    sequences as any other. *)
Lemma coin_count (f : list string -> bool) t :
  sign_only t -> forall b h, depth t <= h ->
  count (fun w => f (fst (run_sort t (script w) 0))) (draw_sequences (S b) h)
  = (2 ^ b) ^ h * coin_hits f t h.
Proof.
  induction 1 as [result|n p Hn IHn Hp IHp]; intros b h Hh.
  - cbn [run_sort coin_hits]. unfold Rand.ret. cbn [fst].
    rewrite count_const, draw_sequences_length.
    destruct (f result); [|lia].
    rewrite Nat.pow_mul_r, Nat.pow_succ_r', Nat.pow_mul_l. lia.
  - cbn [depth] in Hh. destruct h as [|h]; [lia|].
    cbn [draw_sequences coin_hits].
    rewrite (count_flat_map _ (fun r => Qltb (r - (1 # 2)) 0) _ _
               ((2 ^ b) ^ h * coin_hits f n h) ((2 ^ b) ^ h * coin_hits f p h)).
    + destruct (negative_half b) as [-> ->]. rewrite Nat.pow_succ_r'. lia.
    + intros r. destruct (Qltb (r - (1 # 2)) 0) eqn:E.
      * rewrite <- IHn by lia. apply count_ext. intros w.
        cbn [run_sort]. unfold Rand.bind, Math_random.
        change (script (r :: w) 0) with r. rewrite E.
        rewrite run_sort_shift. reflexivity.
      * rewrite <- IHp by lia. apply count_ext. intros w.
        cbn [run_sort]. unfold Rand.bind, Math_random.
        change (script (r :: w) 0) with r. rewrite E.
        destruct (Qeq_bool _ _); rewrite run_sort_shift; reflexivity.
Qed.

End Coins.

(** The probability that [x] is chosen when the engine's sort is sign-only:
    a share of the outcomes of as many fair coins as the sort makes
    comparator calls at most, whatever the number of random bits of a
    draw. *)
Lemma inclusion_by_coins host_sort b keys scrambleCount x :
  sign_only (host_sort keys) ->
  (inclusion_probability host_sort (S b) keys scrambleCount x
   == Z.of_nat (coin_hits (fun sorted => mem_string x (slice0 sorted scrambleCount))
                  (host_sort keys) (depth (host_sort keys)))
      # Pos.of_nat (2 ^ depth (host_sort keys)))%Q.
Proof.
  intros Hsign. unfold inclusion_probability. cbv zeta.
  set (h := depth (host_sort keys)).
  pose proof (coin_count (fun sorted => mem_string x (slice0 sorted scrambleCount))
                (host_sort keys) Hsign b h (Nat.le_refl _)) as Hcount.
  unfold chosen, select_keys, Rand.bind, Rand.ret.
  assert (Hfst : forall w,
            fst (let (a, j) := run_sort (host_sort keys) (script w) 0%nat in
                 (slice0 a scrambleCount, j))
            = slice0 (fst (run_sort (host_sort keys) (script w) 0%nat)) scrambleCount).
  { intros w. destruct (run_sort _ _ _). reflexivity. }
  erewrite (list_filter_iff _ (fun w => Is_true (mem_string x (slice0 (fst
              (run_sort (host_sort keys) (script w) 0%nat)) scrambleCount))))
    by (intros w; rewrite Hfst; reflexivity).
  rewrite Hcount, draw_sequences_length.
  set (hits := coin_hits _ _ _).
  assert (Hp : forall n, Z.pos (Pos.of_nat (2 ^ n)) = Z.of_nat (2 ^ n)).
  { intros n. rewrite <- positive_nat_Z, Nat2Pos.id; [reflexivity|].
    apply Nat.pow_nonzero. lia. }
  unfold Qeq. cbn [Qnum Qden]. rewrite !Hp.
  rewrite Nat.pow_mul_r, Nat.pow_succ_r', Nat.pow_mul_l. lia.
Qed.

(** The sample sorts are sign-only. *)
Lemma binary_search_sign_only fuel left right k :
  (forall at_, sign_only (k at_)) ->
  sign_only (Sample.binary_search fuel left right k).
Proof.
  intros Hk. revert left right.
  induction fuel as [|fuel IH]; intros left right; cbn [Sample.binary_search];
    [apply Hk|].
  destruct (Nat.ltb left right); [|apply Hk].
  constructor; apply IH.
Qed.

Lemma insert_all_sign_only sorted rest : sign_only (Sample.insert_all sorted rest).
Proof.
  revert sorted. induction rest as [|pivot rest IH]; intros sorted;
    cbn [Sample.insert_all]; [constructor|].
  apply binary_search_sign_only. intros at_. apply IH.
Qed.

Lemma extend_run_sign_only descending run rest k :
  (forall a b, sign_only (k a b)) ->
  sign_only (Sample.extend_run descending run rest k).
Proof.
  intros Hk. revert run.
  induction rest as [|current rest IH]; intros run; cbn [Sample.extend_run];
    [apply Hk|].
  destruct descending; constructor; auto.
Qed.

Lemma timsort_short_sign_only keys : sign_only (Sample.timsort_short keys).
Proof.
  unfold Sample.timsort_short, Sample.count_and_make_run.
  destruct keys as [|first [|second rest]]; try apply insert_all_sign_only.
  constructor; apply extend_run_sign_only; intros a b; apply insert_all_sign_only.
Qed.



(** C6: on V8's sort, the three entries of a category at 30 percent (one
    key to choose) are chosen with probabilities 7/16, 3/16 and 6/16, however
    many random bits a draw has: the first entry more than twice as often as
    the second, and none with probability [scrambleCount / E = 1/3]. *)
Theorem comparator_shuffle_is_biased (b : nat) (k1 k2 k3 : string) :
  k1 <> k2 -> k1 <> k3 -> k2 <> k3 ->
  let keys := [k1; k2; k3] in
  let scrambleCount := scramble_count (length keys) 30 in
  let chosen_with := inclusion_probability Sample.timsort_short (S b) keys scrambleCount in
  scrambleCount = 1
  /\ (chosen_with k1 == 7 # 16)%Q
  /\ (chosen_with k2 == 3 # 16)%Q
  /\ (chosen_with k3 == 6 # 16)%Q
  /\ forall x, In x keys ->
       ~ (chosen_with x == inject_Z scrambleCount / inject_Z (Z.of_nat (length keys)))%Q.
Proof.
  intros H12 H13 H23 keys scrambleCount chosen_with.
  assert (Hcount : scrambleCount = 1) by reflexivity.
  assert (Hfirst : forall x a b c : string,
            mem_string x (slice0 [a; b; c] 1) = String.eqb x a).
  { intros x a b' c. change (slice0 [a; b'; c] 1) with [a].
    unfold mem_string. cbn [existsb]. apply orb_false_r. }
  assert (E : forall x y : string, x <> y -> String.eqb x y = false)
    by (intros x y; apply String.eqb_neq).
  assert (E' : forall x y : string, x <> y -> String.eqb y x = false)
    by (intros x y Hxy; apply String.eqb_neq; congruence).
  assert (H1 : (chosen_with k1 == 7 # 16)%Q).
  { unfold chosen_with. rewrite inclusion_by_coins by apply timsort_short_sign_only.
    rewrite Hcount. cbn. rewrite !Hfirst.
    rewrite ?String.eqb_refl, ?(E _ _ H12), ?(E _ _ H13).
    reflexivity. }
  assert (H2 : (chosen_with k2 == 3 # 16)%Q).
  { unfold chosen_with. rewrite inclusion_by_coins by apply timsort_short_sign_only.
    rewrite Hcount. cbn. rewrite !Hfirst.
    rewrite ?String.eqb_refl, ?(E' _ _ H12), ?(E _ _ H23).
    reflexivity. }
  assert (H3 : (chosen_with k3 == 6 # 16)%Q).
  { unfold chosen_with. rewrite inclusion_by_coins by apply timsort_short_sign_only.
    rewrite Hcount. cbn. rewrite !Hfirst.
    rewrite ?String.eqb_refl, ?(E' _ _ H13), ?(E' _ _ H23).
    reflexivity. }
  repeat split; try assumption.
  intros x [<-|[<-|[<-|[]]]]; rewrite Hcount; intros H.
  - rewrite H1 in H. discriminate H.
  - rewrite H2 in H. discriminate H.
  - rewrite H3 in H. discriminate H.
Qed.

Lemma comparator_shuffle_is_biased_witness :
  ("react" <> "vue" /\ "react" <> "express" /\ "vue" <> "express")
  /\ let keys := ["react"; "vue"; "express"] in
     let scrambleCount := scramble_count (length keys) 30 in
     let chosen_with :=
       inclusion_probability Sample.timsort_short 53 keys scrambleCount in
     scrambleCount = 1
     /\ (chosen_with "react" == 7 # 16)%Q
     /\ (chosen_with "vue" == 3 # 16)%Q
     /\ (chosen_with "express" == 6 # 16)%Q
     /\ forall x, In x keys ->
          ~ (chosen_with x
             == inject_Z scrambleCount / inject_Z (Z.of_nat (length keys)))%Q.
Proof.
  assert (H1 : "react" <> "vue") by discriminate.
  assert (H2 : "react" <> "express") by discriminate.
  assert (H3 : "vue" <> "express") by discriminate.
  split; [tauto|].
  exact (comparator_shuffle_is_biased 52 "react" "vue" "express" H1 H2 H3).
Defined.

(** Plain binary insertion is biased in another way: 3/8, 3/8 and 1/4. *)
Example binary_insertion_bias (b : nat) :
  let chosen_with :=
    inclusion_probability Sample.binary_insertion_sort (S b) ["a"; "b"; "c"] 1 in
  (chosen_with "a" == 3 # 8)%Q /\ (chosen_with "b" == 3 # 8)%Q
  /\ (chosen_with "c" == 1 # 4)%Q.
Proof.
  intros chosen_with. unfold chosen_with.
  rewrite !inclusion_by_coins by apply insert_all_sign_only.
  repeat split; reflexivity.
Qed.

(** ** What the loop over the chosen keys records *)

Section Recording.

Variable l : loc.
Variable copy : PackageJson.
Variable depType : DependencyType.
Variable aggression : Q.
Variable hints : string -> Hints.t.
Variable deps : StringRecord.
Variable target : loc.

Hypothesis copy_category : category copy depType = Some target.
Hypothesis copy_apart : target <> l.

(** The issue line of lines 250-251. *)
Local Abbreviation issue_line := (fun m : string * option string * string =>
  "Modified " ++ DependencyType_value depType ++ " " ++ fst (fst m) ++ ": "
    ++ show_optional (snd (fst m)) ++ " -> " ++ snd m).

Local Abbreviation changed := (fun m : string * option string * string =>
  differs (snd (fst m)) (snd m)).




End Recording.




(** The run of the witness: the specifier of [webpack] changes and is
    recorded, the one of [react] comes back as it was and leaves no trace. *)
Example changes_recorded_sample :
  let deps := [("react", "^17.0.2"); ("webpack", "^4.0.0")] in
  let s := Sample.start (<[4%positive := deps]> Sample.objects)
             (script [0; 1 # 4; 1 # 4; 1 # 4; 9 # 10]%Q) in
  let copy := mkPackageJson "demo" "1.0.0" (Some 4%positive) None None None in
  let hints := hints_for (Sample.options [DEPENDENCIES] 100 10 "simple" []) in
  fst (mutations deps 10 hints ["webpack"; "react"] (draws s) 1%nat)
  = [("webpack", Some "^4.0.0", ">=4.0.0"); ("react", Some "^17.0.2", "^17.0.2")]
  /\ match scramble_category Sample.timsort_short Sample.coerce Sample.manifest
             copy 100 10 "simple" hints DEPENDENCIES s with
     | Ok _ s1 =>
         (store s1 !! 4%positive, scrambled (scrambledDeps s1) DEPENDENCIES,
          issues s1)
     | Throw _ => (None, [], [])
     end
     = (Some [("react", "^17.0.2"); ("webpack", ">=4.0.0")],
        ["webpack"],
        ["Modified dependencies webpack: ^4.0.0 -> >=4.0.0"]).
Proof. vm_compute. split; reflexivity. Qed.

(** ** Branches that are skipped *)



Section Skipped.

Variable coerce : string -> option SemVer.
Variables original modified : PackageJson.
Variable s0 : session.

(** What makes a family of related packages no opportunity: it has fewer
    than two members, or no specifier of a regular dependency matches the
    version grammar. *)
Hypothesis no_family : forall regular,
  entries s0 (dependencies original) = Some regular ->
  (forall prefix,
     (length (filter (fun dep => startsWith dep prefix) (Object_keys regular))
      < 2)%nat)
  \/ (forall x v, get_prop regular x = Some v -> VERSION_RANGE_REGEX_exec v = None).




(** No specifier of a regular dependency is one [semver.coerce] reads. *)
Hypothesis no_reference : forall regular x v,
  entries s0 (dependencies original) = Some regular ->
  get_prop regular x = Some v -> coerce v = None.




End Skipped.



(** A manifest whose regular dependencies are a tag and a workspace
    reference: in [realistic] mode the strategist draws twice, for its second
    strategy and for the family [@demo/], and leaves the store, the lists and
    the issues as they were. *)
Example strategist_skips_sample :
  let objects : gmap loc StringRecord :=
    <[1%positive := [("jest", "latest"); ("@demo/core", "workspace:*");
                     ("@demo/cli", "workspace:*")]]> ∅ in
  let s := Sample.start objects (always 0%Q) in
  match createRealisticConflicts Sample.coerce Sample.small_manifest
          Sample.small_manifest DEPENDENCIES 10 "realistic" s with
  | Ok _ s' =>
      (store s' !! 1%positive, scrambledDeps s', issues s', drawn s')
      = (store s !! 1%positive, scrambledDeps s, issues s, 2%nat)
  | Throw _ => False
  end.
Proof. vm_compute. reflexivity. Qed.
